(** * CRED-1: the merge-and-score engine, embedded in Rocq

    A shallow embedding of the pipeline of the CRED-1 domain credibility
    dataset ([pipeline/build_dataset.py], [pipeline/enrich_dataset.py],
    [examples/usage.py]) and the properties its specification states.

    Modelling conventions.
    - A Python [str] is a Rocq [string]; a character is a code point in
      U+0000..U+00FF (Latin-1), on which [str.lower] acts character by
      character and stays inside the range.
    - A Python [float] that is a number is a real number: arithmetic is
      exact, [math.log10] is [ln x / ln 10], and [round(x, n)] rounds half
      to even.  A binary float can lie on the other side of a decimal tie
      than the number it stands for, so no property here rests on the
      side a tie is rounded to.  A score read from the Iffy.news file can
      also be NaN or an infinity: scores are [pyfloat]s, a number or one
      of these three.
    - A Python [dict] keyed by strings is a [gmap string _]; a Python [set]
      is a [gset _]; [None] and an absent key are [None]. *)

From Stdlib Require Import Reals Lra Lia ZArith String Ascii.
From stdpp Require Import gmap strings list sorting.

Open Scope string_scope.

(** ** Python string primitives *)

Module PyStr.

(** Code point of a character. *)
Definition ord (c : ascii) : N := N_of_ascii c.

Definition in_range (lo hi : N) (c : ascii) : bool :=
  ((lo <=? ord c) && (ord c <=? hi))%N.

(** [str.isspace] on U+0000..U+00FF: TAB..CR, FS..US, SPACE, NEL, NBSP. *)
Definition is_space (c : ascii) : bool :=
  in_range 9 13 c || in_range 28 32 c || (ord c =? 133)%N || (ord c =? 160)%N.

(** Characters changed by [str.lower]: A..Z and U+00C0..U+00DE but U+00D7. *)
Definition is_upper (c : ascii) : bool :=
  in_range 65 90 c || (in_range 192 222 c && negb (ord c =? 215)%N).

Definition lower_char (c : ascii) : ascii :=
  if is_upper c then ascii_of_N (ord c + 32) else c.

(** [s.lower()] *)
Fixpoint lower (s : string) : string :=
  match s with
  | EmptyString => EmptyString
  | String c s' => String (lower_char c) (lower s')
  end.

(** [s.lstrip(chars)], the character set given as a predicate. *)
Fixpoint lstrip (p : ascii -> bool) (s : string) : string :=
  match s with
  | EmptyString => EmptyString
  | String c s' => if p c then lstrip p s' else s
  end.

Definition is_empty (s : string) : bool :=
  match s with EmptyString => true | String _ _ => false end.

(** [s.rstrip(chars)]: a character goes when it is in the set and all that
    follows it has gone. *)
Fixpoint rstrip (p : ascii -> bool) (s : string) : string :=
  match s with
  | EmptyString => EmptyString
  | String c s' =>
      let r := rstrip p s' in
      if is_empty r && p c then EmptyString else String c r
  end.

(** [s.strip()] *)
Definition strip (s : string) : string := rstrip is_space (lstrip is_space s).

(** The one-character sets of [rstrip("/")] and [rstrip(".")]. *)
Definition is_char (a : ascii) (c : ascii) : bool := (ord c =? ord a)%N.

(** [s.startswith(p)] *)
Definition startswith (s p : string) : bool := String.prefix p s.

(** [s[n:]] *)
Fixpoint slice_from (n : nat) (s : string) : string :=
  match n, s with
  | O, _ => s
  | S n', EmptyString => EmptyString
  | S n', String _ s' => slice_from n' s'
  end.

(** [s[0]]; [None] is Python's IndexError. *)
Definition index0 (s : string) : option string :=
  match s with
  | EmptyString => None
  | String c _ => Some (String c EmptyString)
  end.

(** First and last character, for stating what a string looks like. *)
Definition first_char (s : string) : option ascii :=
  match s with EmptyString => None | String c _ => Some c end.

Fixpoint last_char (s : string) : option ascii :=
  match s with
  | EmptyString => None
  | String c EmptyString => Some c
  | String _ s' => last_char s'
  end.

Fixpoint all_chars (p : ascii -> bool) (s : string) : bool :=
  match s with
  | EmptyString => true
  | String c s' => p c && all_chars p s'
  end.

(** [p] fails on the character, or there is none. *)
Definition opt_rejects (p : ascii -> bool) (o : option ascii) : bool :=
  match o with None => true | Some c => negb (p c) end.

(** [s.split(sep)] for a one-character separator: never an empty list. *)
Fixpoint split (sep : ascii) (s : string) : list string :=
  match s with
  | EmptyString => [EmptyString]
  | String c s' =>
      if is_char sep c then EmptyString :: split sep s'
      else match split sep s' with
           | [] => [String c EmptyString]
           | w :: ws => String c w :: ws
           end
  end.

(** [sep.join(parts)] *)
Fixpoint join (sep : string) (parts : list string) : string :=
  match parts with
  | [] => EmptyString
  | [w] => w
  | w :: ws => w +:+ sep +:+ join sep ws
  end.

(** [l[-n:]] on a list, for [n > 0]. *)
Definition last_n {A} (n : nat) (l : list A) : list A :=
  drop (length l - n) l.

(** No character of the string is [sep]. *)
Definition sep_free (sep : ascii) (w : string) : bool :=
  all_chars (fun c => negb (is_char sep c)) w.

(** [s.split(sep, 1)] for a one-character separator: the string cut at
    its first separator, or the string alone. *)
Fixpoint split1 (sep : ascii) (s : string) : list string :=
  match s with
  | EmptyString => [EmptyString]
  | String c s' =>
      if is_char sep c then [EmptyString; s']
      else match split1 sep s' with
           | [] => [String c EmptyString]
           | w :: ws => String c w :: ws
           end
  end.

(** [s.count(a)] for one character. *)
Fixpoint count_char (a : ascii) (s : string) : nat :=
  match s with
  | EmptyString => 0
  | String c s' => (if is_char a c then 1 else 0) + count_char a s'
  end.

(** [s.strip(chars)] *)
Definition strip_chars (p : ascii -> bool) (s : string) : string :=
  rstrip p (lstrip p s).

(** [s.replace(old, new)] for a pattern [old] that is not empty: the
    occurrences are taken from the left and do not overlap.  [skip] counts
    the characters of an occurrence still to pass over. *)
Fixpoint replace_from (old new : string) (skip : nat) (s : string) : string :=
  match s with
  | EmptyString => EmptyString
  | String c s' =>
      match skip with
      | S k => replace_from old new k s'
      | O =>
          if String.prefix old s
          then new +:+ replace_from old new (String.length old - 1) s'
          else String c (replace_from old new 0 s')
      end
  end.

Definition replace (old new s : string) : string := replace_from old new 0 s.

End PyStr.

(** ** Python numbers: floats as reals *)

Module PyNum.

Local Open Scope R_scope.

(** [math.log10] *)
Definition log10 (x : R) : R := ln x / ln 10.

(** Nearest integer, ties to the even one. *)
Definition round_half_even (x : R) : Z :=
  let f := Zfloor x in
  let d := x - IZR f in
  if Rlt_dec d (1 / 2) then f
  else if Rlt_dec (1 / 2) d then (f + 1)%Z
  else if Z.even f then f else (f + 1)%Z.

(** [round(x, ndigits)] *)
Definition round (x : R) (ndigits : nat) : R :=
  IZR (round_half_even (x * 10 ^ ndigits)) / 10 ^ ndigits.

(** A float as the scores meet it: a number, or one of the three other
    values [float(s)] reads (from "inf", "-inf" and "nan"). *)
Inductive pyfloat : Type :=
  | Num (x : R)
  | PosInf
  | NegInf
  | NaN.

(** [a + b] *)
Definition fadd (a b : pyfloat) : pyfloat :=
  match a, b with
  | Num x, Num y => Num (x + y)
  | NaN, _ | _, NaN => NaN
  | PosInf, NegInf | NegInf, PosInf => NaN
  | PosInf, _ | _, PosInf => PosInf
  | NegInf, _ | _, NegInf => NegInf
  end.

(** The infinity of a sign, and [w * inf] for a number [w]. *)
Definition inf_of (positive : bool) : pyfloat :=
  if positive then PosInf else NegInf.

Definition scale_inf (w : R) (positive : bool) : pyfloat :=
  if Rlt_dec 0 w then inf_of positive
  else if Rlt_dec w 0 then inf_of (negb positive)
  else NaN.

(** [a * b] *)
Definition fmul (a b : pyfloat) : pyfloat :=
  match a, b with
  | Num x, Num y => Num (x * y)
  | NaN, _ | _, NaN => NaN
  | Num x, PosInf | PosInf, Num x => scale_inf x true
  | Num x, NegInf | NegInf, Num x => scale_inf x false
  | PosInf, PosInf | NegInf, NegInf => PosInf
  | PosInf, NegInf | NegInf, PosInf => NegInf
  end.

(** [a < b] and [a <= b]: false when either side is NaN. *)
Definition flt (a b : pyfloat) : bool :=
  match a, b with
  | Num x, Num y => if Rlt_dec x y then true else false
  | NaN, _ | _, NaN => false
  | _, NegInf => false
  | NegInf, _ => true
  | PosInf, _ => false
  | Num _, PosInf => true
  end.

Definition fle (a b : pyfloat) : bool :=
  match a, b with
  | Num x, Num y => if Rle_dec x y then true else false
  | NaN, _ | _, NaN => false
  | NegInf, _ => true
  | _, NegInf => false
  | _, PosInf => true
  | PosInf, Num _ => false
  end.

(** [min(a, b)]: [b] when [b < a], else [a]. *)
Definition fmin (a b : pyfloat) : pyfloat := if flt b a then b else a.

(** [round(a, ndigits)] on a float: NaN and the infinities come back as
    they are. *)
Definition fround (a : pyfloat) (ndigits : nat) : pyfloat :=
  match a with
  | Num x => Num (round x ndigits)
  | _ => a
  end.

(** A float in [0,1]. *)
Definition in_unit (a : pyfloat) : Prop :=
  match a with
  | Num x => 0 <= x <= 1
  | _ => False
  end.

End PyNum.

(** ** build_dataset.py *)

Module Build.

(** The unified taxonomy, in the order of [category_priority]. *)
Inductive Category : Set :=
  | Fake | Conspiracy | Unreliable | Mixed | Satire | Other
  | MostlyReliable | Reliable.

#[global] Instance category_eq_dec : EqDecision Category.
Proof. solve_decision. Defined.

Definition category_index (c : Category) : nat :=
  match c with
  | Fake => 0 | Conspiracy => 1 | Unreliable => 2 | Mixed => 3
  | Satire => 4 | Other => 5 | MostlyReliable => 6 | Reliable => 7
  end.

Definition category_of_index (n : nat) : Category :=
  match n with
  | 0 => Fake | 1 => Conspiracy | 2 => Unreliable | 3 => Mixed
  | 4 => Satire | 5 => Other | 6 => MostlyReliable | _ => Reliable
  end.

#[global] Instance category_countable : Countable Category.
Proof.
  apply (inj_countable' category_index category_of_index).
  intros c; destruct c; reflexivity.
Defined.

(** The string a category is in the Python dictionaries. *)
Definition category_name (c : Category) : string :=
  match c with
  | Fake => "fake" | Conspiracy => "conspiracy" | Unreliable => "unreliable"
  | Mixed => "mixed" | Satire => "satire" | Other => "other"
  | MostlyReliable => "mostly_reliable" | Reliable => "reliable"
  end.

(** [d.get(k, default)] on a dictionary literal. *)
Fixpoint dict_get {V} (d : list (string * V)) (k : string) : option V :=
  match d with
  | [] => None
  | (k', v) :: d' => if String.eqb k' k then Some v else dict_get d' k
  end.

Definition OPENSOURCES_CATEGORY_MAP : list (string * Category) :=
  [ ("fake", Fake); ("fake news", Fake); ("Fake", Fake); ("fake ", Fake);
    ("bias", Mixed); ("conspiracy", Conspiracy); ("Conspiracy", Conspiracy);
    ("satire", Satire); ("satirical", Satire); ("unreliable", Unreliable);
    ("unrealiable", Unreliable); (" unreliable", Unreliable);
    ("clickbait", Unreliable); ("political", Mixed); ("Political", Mixed);
    ("junksci", Unreliable); ("hate", Unreliable); ("rumor", Unreliable);
    ("rumor ", Unreliable); ("reliable", Reliable); ("state", Mixed);
    ("blog", Other) ].

Definition IFFY_FACTUAL_MAP : list (string * Category) :=
  [ ("VL", Fake); ("L", Unreliable); ("M", Mixed); ("MH", MostlyReliable);
    ("H", Reliable); ("VH", Reliable) ].

(** [OPENSOURCES_CATEGORY_MAP.get(t, "other")] *)
Definition map_opensources_label (t : string) : Category :=
  default Other (dict_get OPENSOURCES_CATEGORY_MAP t).

(** [IFFY_FACTUAL_MAP.get(factual, "unreliable")] *)
Definition map_iffy_factual (factual : string) : Category :=
  default Unreliable (dict_get IFFY_FACTUAL_MAP factual).

Definition normalize_domain (domain : string) : string :=
  let d := PyStr.rstrip (PyStr.is_char ".")
             (PyStr.rstrip (PyStr.is_char "/")
                (PyStr.strip (PyStr.lower domain))) in
  if PyStr.startswith d "www." then PyStr.slice_from 4 d else d.

(** The value of [d] in [normalize_domain] before the test for "www.". *)
Definition stripped (domain : string) : string :=
  PyStr.rstrip (PyStr.is_char ".")
    (PyStr.rstrip (PyStr.is_char "/") (PyStr.strip (PyStr.lower domain))).

(** What one pass of [normalize_domain] can leave behind: white space at
    either end, a final "/", a leading "www.". *)
Definition residue_free (d : string) : bool :=
  PyStr.opt_rejects PyStr.is_space (PyStr.first_char d)
  && PyStr.opt_rejects PyStr.is_space (PyStr.last_char d)
  && PyStr.opt_rejects (PyStr.is_char "/") (PyStr.last_char d)
  && negb (PyStr.startswith d "www.").

(** A domain in normal form: no upper-case character, no final ".", and
    nothing a pass would still remove. *)
Definition normalized (d : string) : bool :=
  PyStr.all_chars (fun c => negb (PyStr.is_upper c)) d
  && PyStr.opt_rejects (PyStr.is_char ".") (PyStr.last_char d)
  && residue_free d.

Definition category_priority : list Category :=
  [Fake; Conspiracy; Unreliable; Mixed; Satire; Other; MostlyReliable;
   Reliable].

(** The worst-wins loop: the first category of the priority list that is
    among [types], and ["other"] when the loop ends without a hit. *)
Definition pick_primary (types : list Category) : Category :=
  default Other
    (List.find (fun cat => bool_decide (cat ∈ types)) category_priority).

(** Severity by position in [category_priority]: 0 is the most severe. *)
Definition severity (c : Category) : nat := category_index c.


(** The metadata keys an Iffy.news row contributes. *)
Record iffy_meta : Type := {
  iffy_factual : string;
  iffy_bias : string;
  iffy_cred : string;
  iffy_score : option PyNum.pyfloat;
  iffy_site_rank : option Z;
  iffy_year_online : option Z;
  iffy_lang : string;
  iffy_name : string
}.

(** An entry of the merged dataset.  The eight [iffy_*] keys come and go
    together, so they are one optional field. *)
Record entry : Type := {
  domain : string;
  category : Category;
  categories_all : gset Category;
  sources : list string;
  iffy : option iffy_meta;
  opensources_types : option (list string)
}.


(** One value of the OpenSources JSON object; [None] is a missing key. *)
Record os_info : Type := {
  os_type : option string;
  os_type2 : option string;
  os_type3 : option string
}.

(** The labels of the keys "type", "2nd type", "3rd type" that are not
    blank, mapped. *)
Definition os_types (info : os_info) : list Category :=
  flat_map
    (fun field =>
       let t := PyStr.strip (default "" field) in
       if PyStr.is_empty t then [] else [map_opensources_label t])
    [os_type info; os_type2 info; os_type3 info].

Definition opensources_entry (d : string) (info : os_info) : entry :=
  let types := os_types info in
  {| domain := d;
     category := pick_primary types;
     categories_all := list_to_set types;
     sources := ["opensources"];
     iffy := None;
     opensources_types :=
       Some [default "" (os_type info); default "" (os_type2 info);
             default "" (os_type3 info)] |}.

(** [raw] is the JSON object as its list of items, in file order. *)
Definition parse_opensources (raw : list (string * os_info))
  : gmap string entry :=
  fold_left
    (fun entries item =>
       let d := normalize_domain (fst item) in
       if PyStr.is_empty d then entries
       else <[d := opensources_entry d (snd item)]> entries)
    raw ∅.

(** One row of the Iffy.news CSV; [None] is a missing column. *)
Record iffy_row : Type := {
  col_Domain : option string;
  col_MBFC_Fact : option string;
  col_MBFC_Bias : option string;
  col_MBFC_cred : option string;
  col_Score : option string;
  col_Site_Rank : option string;
  col_Year_online : option string;
  col_Lang : option string;
  col_Name : option string
}.

Section Parsers.

(** Python's [float(s)] and [int(s)]; [None] is a ValueError.  [float]
    reads "nan" and "inf" too. *)
Variable py_float : string -> option PyNum.pyfloat.
Variable py_int : string -> option Z.

Definition cell (c : option string) : string := PyStr.strip (default "" c).

(** [f(s) if s else None], a ValueError giving [None] as well. *)
Definition parse_optional {A} (f : string -> option A) (s : string)
  : option A :=
  if PyStr.is_empty s then None else f s.

Definition iffy_entry (d : string) (row : iffy_row) : entry :=
  let factual := cell (col_MBFC_Fact row) in
  let category := map_iffy_factual factual in
  {| domain := d;
     category := category;
     categories_all := {[ category ]};
     sources := ["iffy"];
     iffy := Some
       {| iffy_factual := factual;
          iffy_bias := cell (col_MBFC_Bias row);
          iffy_cred := cell (col_MBFC_cred row);
          iffy_score := parse_optional py_float (cell (col_Score row));
          iffy_site_rank := parse_optional py_int (cell (col_Site_Rank row));
          iffy_year_online :=
            parse_optional py_int (cell (col_Year_online row));
          iffy_lang := cell (col_Lang row);
          iffy_name := cell (col_Name row) |};
     opensources_types := None |}.

Definition parse_iffy (rows : list iffy_row) : gmap string entry :=
  fold_left
    (fun entries row =>
       let d := normalize_domain (default "" (col_Domain row)) in
       if PyStr.is_empty d then entries
       else <[d := iffy_entry d row]> entries)
    rows ∅.

End Parsers.

(** [sorted(...)] on strings: by code point, lexicographically. *)
Definition str_le (s1 s2 : string) : Prop := Is_true (String.leb s1 s2).

#[global] Instance str_le_dec : RelDecision str_le.
Proof. intros s1 s2. unfold str_le. apply _. Defined.

Definition sorted (l : list string) : list string := merge_sort str_le l.

(** The branch of [merge_entries] for a domain both sources have. *)
Definition merge_both (d : string) (os_entry if_entry : entry) : entry :=
  let cats := [category os_entry; category if_entry] in
  {| domain := d;
     category := pick_primary cats;
     categories_all := categories_all os_entry ∪ categories_all if_entry;
     sources := ["opensources"; "iffy"];
     iffy := iffy if_entry;
     opensources_types := opensources_types os_entry |}.

(** The body of the loop over the sorted domains.  [None, None] cannot
    occur for a domain of the union of the key sets. *)
Definition merge_at (opensources iffy : gmap string entry) (d : string)
  : option entry :=
  match opensources !! d, iffy !! d with
  | Some os_entry, Some if_entry => Some (merge_both d os_entry if_entry)
  | Some os_entry, None => Some os_entry
  | None, if_entry => if_entry
  end.

Definition merge_entries (opensources iffy : gmap string entry)
  : list entry :=
  let all_domains : gset string := dom opensources ∪ dom iffy in
  omap (merge_at opensources iffy) (sorted (elements all_domains)).

(** What a merged entry says of a domain apart from the metadata carried
    through from the sources. *)
Definition verdict (e : entry)
  : string * Category * gset Category * list string :=
  (domain e, category e, categories_all e, sources e).

(** [CREDIBILITY_SCORES] of [step_merge]. *)
Definition CREDIBILITY_SCORES (c : Category) : R :=
  match c with
  | Reliable => 1
  | MostlyReliable => 8 / 10
  | Mixed => 5 / 10
  | Satire => 3 / 10
  | Other => 5 / 10
  | Unreliable => 2 / 10
  | Conspiracy => 1 / 10
  | Fake => 0
  end.

(** A value of the compact output: score, category letter, source count,
    and, after enrichment, rank and age. *)
Record compact : Type := {
  c_s : PyNum.pyfloat;
  c_c : option string;
  c_n : nat;
  c_r : option Z;
  c_a : option R
}.

(** The compact entry [step_merge] writes for a merged entry. *)
Definition tier1_entry (e : entry) : compact :=
  let score := PyNum.Num (CREDIBILITY_SCORES (category e)) in
  let score :=
    match iffy e ≫= iffy_score with
    | Some iffy_score =>
        PyNum.fround
          (PyNum.fadd (PyNum.fmul (PyNum.Num (6 / 10)) score)
             (PyNum.fmul (PyNum.Num (4 / 10)) iffy_score)) 2
    | None => score
    end in
  {| c_s := PyNum.fround score 2;
     c_c := PyStr.index0 (category_name (category e));
     c_n := length (sources e);
     c_r := None;
     c_a := None |}.

(** The compact dataset [step_merge] writes: a later entry of a domain
    replaces an earlier. *)
Definition tier1 (merged : list entry) : gmap string compact :=
  fold_left (fun t e => <[domain e := tier1_entry e]> t) merged ∅.

(** The loop both parsers run: an item with an empty key is skipped, any
    other is stored under its key. *)
Definition keyed_fold {A} (key : A -> string) (val : string -> A -> entry)
    (l : list A) (acc : gmap string entry) : gmap string entry :=
  fold_left
    (fun entries x =>
       let k := key x in
       if PyStr.is_empty k then entries else <[k := val k x]> entries)
    l acc.

(** A map whose entries carry their key as their domain, as the parsed
    maps do. *)
Definition keyed (m : gmap string entry) : Prop :=
  forall d e, m !! d = Some e -> domain e = d.

(** Two small source files, to run the definitions on. *)
Definition sample_raw : list (string * os_info) :=
  [ ("Example.com",
     {| os_type := Some "fake"; os_type2 := Some "bias"; os_type3 := Some "" |});
    ("www.satire.org/",
     {| os_type := Some "satire"; os_type2 := None; os_type3 := None |}) ].

Definition sample_rows : list iffy_row :=
  [ {| col_Domain := Some "example.com"; col_MBFC_Fact := Some "MH";
       col_MBFC_Bias := Some "R"; col_MBFC_cred := Some "L";
       col_Score := None; col_Site_Rank := None; col_Year_online := None;
       col_Lang := Some "en"; col_Name := Some "Example" |} ].

Definition sample_rows_apart : list iffy_row :=
  [ {| col_Domain := Some "WWW.Other.net"; col_MBFC_Fact := Some "L";
       col_MBFC_Bias := None; col_MBFC_cred := None;
       col_Score := None; col_Site_Rank := None; col_Year_online := None;
       col_Lang := None; col_Name := None |} ].

(** [float] and [int] on columns that are never filled in the samples. *)
Definition no_float (_ : string) : option PyNum.pyfloat := None.
Definition no_int (_ : string) : option Z := None.

End Build.

(** ** examples/usage.py *)

Module Usage.

(** The key [check_domain] looks up: its "# Normalize" lines. *)
Definition lookup_key (domain : string) : string :=
  let domain :=
    PyStr.rstrip (PyStr.is_char "/") (PyStr.strip (PyStr.lower domain)) in
  if PyStr.startswith domain "www." then PyStr.slice_from 4 domain
  else domain.

Definition check_domain (cred : gmap string Build.compact) (domain : string)
  : option Build.compact :=
  cred !! lookup_key domain.

Definition CATEGORIES : list (string * string) :=
  [ ("f", "fake"); ("u", "unreliable"); ("m", "mixed"); ("c", "conspiracy");
    ("s", "satire"); ("r", "reliable"); ("o", "other") ].

(** [CATEGORIES.get(result["c"], "unknown")] *)
Definition category_of_letter (c : string) : string :=
  default "unknown" (Build.dict_get CATEGORIES c).

(** The three levels [main] prints. *)
Inductive level : Set := Low | MixedLevel | Ok.

(** The traffic-light reading of a score in [main]. *)
Definition traffic_light (score : PyNum.pyfloat) : level :=
  if PyNum.fle score (PyNum.Num (2 / 10)) then Low
  else if PyNum.fle score (PyNum.Num (5 / 10)) then MixedLevel
  else Ok.

End Usage.

(** ** enrich_dataset.py *)

Module Enrich.

(** [score_components], the audit record of a score. *)
Record components : Type := {
  comp_category : R;
  comp_iffy : option PyNum.pyfloat;
  comp_tranco : option R;
  comp_age : option R;
  comp_factcheck : option R;
  comp_safe_browsing : option string
}.

(** An entry on its way through the enrichment steps: the keys of the
    merged entry and the keys the steps add.  [safe_browsing_flagged] is
    only ever stored as [True], so [false] is the absent key. *)
Record entry : Type := {
  merged : Build.entry;
  tranco_rank : option Z;
  domain_age_years : option R;
  domain_registered : option string;
  factcheck_claims : option Z;
  safe_browsing_flagged : bool;
  credibility_score : option PyNum.pyfloat;
  score_components : option components
}.

Definition domain (e : entry) : string := Build.domain (merged e).
Definition category (e : entry) : Build.Category := Build.category (merged e).
Definition iffy_score (e : entry) : option PyNum.pyfloat :=
  Build.iffy (merged e) ≫= Build.iffy_score.

(** [load_merged]: an entry as it comes from the merged dataset. *)
Definition of_merged (m : Build.entry) : entry :=
  {| merged := m; tranco_rank := None; domain_age_years := None;
     domain_registered := None; factcheck_claims := None;
     safe_browsing_flagged := false; credibility_score := None;
     score_components := None |}.

Definition set_domain_age (age : R) (reg : string) (e : entry) : entry :=
  {| merged := merged e; tranco_rank := tranco_rank e;
     domain_age_years := Some age; domain_registered := Some reg;
     factcheck_claims := factcheck_claims e;
     safe_browsing_flagged := safe_browsing_flagged e;
     credibility_score := credibility_score e;
     score_components := score_components e |}.

Definition set_factcheck_claims (count : Z) (e : entry) : entry :=
  {| merged := merged e; tranco_rank := tranco_rank e;
     domain_age_years := domain_age_years e;
     domain_registered := domain_registered e;
     factcheck_claims := Some count;
     safe_browsing_flagged := safe_browsing_flagged e;
     credibility_score := credibility_score e;
     score_components := score_components e |}.

Definition set_score (score : PyNum.pyfloat) (comp : components) (e : entry)
  : entry :=
  {| merged := merged e; tranco_rank := tranco_rank e;
     domain_age_years := domain_age_years e;
     domain_registered := domain_registered e;
     factcheck_claims := factcheck_claims e;
     safe_browsing_flagged := safe_browsing_flagged e;
     credibility_score := Some score;
     score_components := Some comp |}.

Definition set_tranco_rank (rank : Z) (e : entry) : entry :=
  {| merged := merged e; tranco_rank := Some rank;
     domain_age_years := domain_age_years e;
     domain_registered := domain_registered e;
     factcheck_claims := factcheck_claims e;
     safe_browsing_flagged := safe_browsing_flagged e;
     credibility_score := credibility_score e;
     score_components := score_components e |}.

(** *** Tranco rank

    The step reads the lines of the cached list.  [py_int] is [int(...)],
    [None] its ValueError, which nothing catches: the step then ends with
    it, as it does with the ZeroDivisionError of the matched percentage
    when there is no entry. *)
Section Tranco.

Variable py_int : string -> option Z.

(** One turn of the loop over the lines of the file. *)
Definition tranco_line (tranco : gmap string Z) (line : string)
  : option (gmap string Z) :=
  match PyStr.split1 "," (PyStr.strip line) with
  | [rank; domain] =>
      match py_int rank with
      | Some rank => Some (<[PyStr.lower domain := rank]> tranco)
      | None => None
      end
  | _ => Some tranco
  end.

Definition tranco_table (lines : list string) : option (gmap string Z) :=
  fold_left
    (fun acc line =>
       match acc with
       | Some tranco => tranco_line tranco line
       | None => None
       end)
    lines (Some ∅).

(** The body of the loop over the entries. *)
Definition tranco_apply (tranco : gmap string Z) (e : entry) : entry :=
  let rank :=
    match tranco !! domain e with
    | Some rank => Some rank
    | None => tranco !! ("www." +:+ domain e)
    end in
  match rank with
  | Some rank => set_tranco_rank rank e
  | None => e
  end.

Definition step_tranco (lines : list string) (entries : list entry)
  : option (list entry) :=
  match tranco_table lines with
  | Some tranco =>
      match entries with
      | [] => None
      | _ :: _ => Some (map (tranco_apply tranco) entries)
      end
  | None => None
  end.

End Tranco.

(** *** Registrable domain *)

Definition two_level : list string :=
  ["co.uk"; "com.au"; "co.nz"; "co.za"; "com.br"; "co.in"; "org.uk";
   "net.au"].

Definition get_base_domain (domain : string) : string :=
  let parts := PyStr.split "." domain in
  let maybe := PyStr.join "." (PyStr.last_n 2 parts) in
  if bool_decide (3 <= length parts) && bool_decide (maybe ∈ two_level)
  then PyStr.join "." (PyStr.last_n 3 parts)
  else if bool_decide (2 <= length parts)
       then PyStr.join "." (PyStr.last_n 2 parts)
       else domain.

(** *** The state of a run of a cached enrichment step

    The in-memory cache, the cache file ([None]: no file yet), the outside
    world the query function talks to, and the keys sent to it, latest
    first. *)
Record run (C W : Type) : Type := {
  cache : gmap string C;
  cache_file : option (gmap string C);
  world : W;
  queries : list string
}.

Arguments cache {C W} _.
Arguments cache_file {C W} _.
Arguments world {C W} _.
Arguments queries {C W} _.

(** The cache is loaded from its file when there is one. *)
Definition load_cache {C W} (file : option (gmap string C)) (w : W)
  : run C W :=
  {| cache := default ∅ file; cache_file := file; world := w;
     queries := [] |}.

(** [json.dump(cache, f)] *)
Definition save_cache {C W} (st : run C W) : run C W :=
  {| cache := cache st; cache_file := Some (cache st); world := world st;
     queries := queries st |}.

(** [to_query[:limit]] when [limit > 0]. *)
Definition apply_limit {A} (limit : Z) (l : list A) : list A :=
  if (0 <? limit)%Z then take (Z.to_nat limit) l else l.

(** The number of results in the cache that the cache file does not have
    yet: what a crash would lose. *)
Definition unflushed {C W} (st : run C W) : nat :=
  size (cache st) - size (default ∅ (cache_file st)).

Section Drivers.

(** The outside world and the two providers.  A provider answers a key in
    a world and leaves a new world; for RDAP the answer is the list of
    (eventAction, eventDate) pairs of the response, [None] standing for
    every exception [query_rdap] catches. *)
Variable World : Type.
Variable rdap_server : string -> World -> option (list (string * string)) * World.

(** What the Fact Check API can answer: a list of claims of some length,
    HTTP 429, or any other failure. *)
Inductive fc_response : Type :=
  | FcClaims (n : nat)
  | FcTooManyRequests
  | FcFailure.

Variable factcheck_server : string -> string -> World -> fc_response * World.

(** [datetime.fromisoformat(reg.replace("Z", "+00:00"))] as microseconds
    since the epoch; [None] for a string it rejects and for a date without
    a zone, whose subtraction from [now] raises. *)
Variable fromisoformat : string -> option Z.

(** **** RDAP *)

(** A value of the RDAP cache: the result of a query or the marker
    [{"error": True}]. *)
Record rdap_result : Type := {
  rdap_error : bool;
  registered : option string;
  expires : option string;
  updated : option string
}.

Definition rdap_empty : rdap_result :=
  {| rdap_error := false; registered := None; expires := None;
     updated := None |}.

Definition rdap_error_marker : rdap_result :=
  {| rdap_error := true; registered := None; expires := None;
     updated := None |}.

(** One turn of the loop over the events of a response. *)
Definition rdap_event (result : rdap_result) (event : string * string)
  : rdap_result :=
  let '(action, date) := event in
  if PyStr.is_empty date then result
  else if String.eqb action "registration" then
    {| rdap_error := rdap_error result; registered := Some date;
       expires := expires result; updated := updated result |}
  else if String.eqb action "expiration" then
    {| rdap_error := rdap_error result; registered := registered result;
       expires := Some date; updated := updated result |}
  else if String.eqb action "last changed" then
    {| rdap_error := rdap_error result; registered := registered result;
       expires := expires result; updated := Some date |}
  else result.

Definition rdap_is_empty (r : rdap_result) : bool :=
  match registered r, expires r, updated r with
  | None, None, None => true
  | _, _, _ => false
  end.

(** [query_rdap]: [None] for an exception and for a result without any of
    the three dates. *)
Definition query_rdap (domain : string) (w : World)
  : option rdap_result * World :=
  let base := get_base_domain domain in
  let '(response, w') := rdap_server base w in
  match response with
  | None => (None, w')
  | Some events =>
      let result := fold_left rdap_event events rdap_empty in
      (if rdap_is_empty result then None else Some result, w')
  end.

Abbreviation rdap_run := (run rdap_result World).

(** The body of the query loop at index [i]. *)
Definition rdap_query_step (i : nat) (e : entry) (st : rdap_run) : rdap_run :=
  let base := get_base_domain (domain e) in
  if bool_decide (base ∈ dom (cache st)) then st
  else
    let '(result, w') := query_rdap base (world st) in
    let st' :=
      {| cache := <[base := default rdap_error_marker result]> (cache st);
         cache_file := cache_file st;
         world := w';
         queries := base :: queries st |} in
    if ((i + 1) mod 100 =? 0)%nat then save_cache st' else st'.

Fixpoint rdap_query_loop (i : nat) (to_query : list entry) (st : rdap_run)
  : rdap_run :=
  match to_query with
  | [] => st
  | e :: rest => rdap_query_loop (S i) rest (rdap_query_step i e st)
  end.

(** Age in years at [now] of a domain registered at [reg]. *)
Definition age_years (now reg : Z) : R :=
  (IZR ((now - reg) / 86400000000) / (36525 / 100))%R.

(** The "Apply to entries" loop body. *)
Definition rdap_apply (now : Z) (cache : gmap string rdap_result) (e : entry)
  : entry :=
  let base := get_base_domain (domain e) in
  let rdap := default rdap_empty (cache !! base) in
  if rdap_error rdap then e
  else match registered rdap with
       | None => e
       | Some reg =>
           if PyStr.is_empty reg then e
           else match fromisoformat reg with
                | None => e
                | Some reg_date =>
                    set_domain_age (PyNum.round (age_years now reg_date) 1)
                      reg e
                end
       end.

(** [step_rdap], started at time [now] with cache file [file] in world
    [w]: the entries it returns and the state it leaves.  The summary
    lines after the apply loop are left out; with no entry at all the
    percentage printed there divides by zero. *)
Definition step_rdap (now : Z) (entries : list entry) (limit : Z)
    (file : option (gmap string rdap_result)) (w : World)
  : list entry * rdap_run :=
  let st := load_cache file w in
  let to_query :=
    filter (fun e => get_base_domain (domain e) ∉ dom (cache st)) entries in
  let to_query := apply_limit limit to_query in
  let st :=
    match to_query with
    | [] => st
    | _ :: _ => save_cache (rdap_query_loop 0 to_query st)
    end in
  (map (rdap_apply now (cache st)) entries, st).

(** **** Fact Check *)

(** The "error" key of a cached fact-check result. *)
Inductive fc_error : Type :=
  | ErrFalse
  | ErrTrue
  | ErrRateLimit.

(** A value of the fact-check cache; the rate-limit result has no
    "claim_count". *)
Record fc_result : Type := {
  claim_count : option Z;
  error : fc_error
}.

Definition query_factcheck (domain api_key : string) (w : World)
  : fc_result * World :=
  let '(response, w') := factcheck_server domain api_key w in
  (match response with
   | FcClaims n => {| claim_count := Some (Z.of_nat n); error := ErrFalse |}
   | FcTooManyRequests => {| claim_count := None; error := ErrRateLimit |}
   | FcFailure => {| claim_count := Some 0%Z; error := ErrTrue |}
   end, w').

Abbreviation fc_run := (run fc_result World).

Definition is_rate_limit (r : fc_result) : bool :=
  match error r with ErrRateLimit => true | _ => false end.

Definition factcheck_query_step (api_key : string) (i : nat) (e : entry)
    (st : fc_run) : fc_run :=
  let d := domain e in
  if bool_decide (d ∈ dom (cache st)) then st
  else
    let '(result, w1) := query_factcheck d api_key (world st) in
    let '(result, w2, sent) :=
      if is_rate_limit result
      then let '(again, w2) := query_factcheck d api_key w1 in
           (again, w2, [d; d])
      else (result, w1, [d]) in
    let st' :=
      {| cache := <[d := result]> (cache st);
         cache_file := cache_file st;
         world := w2;
         queries := sent ++ queries st |} in
    if ((i + 1) mod 200 =? 0)%nat then save_cache st' else st'.

Fixpoint factcheck_query_loop (api_key : string) (i : nat)
    (to_query : list entry) (st : fc_run) : fc_run :=
  match to_query with
  | [] => st
  | e :: rest =>
      factcheck_query_loop api_key (S i) rest
        (factcheck_query_step api_key i e st)
  end.

Definition factcheck_apply (cache : gmap string fc_result) (e : entry)
  : entry :=
  let count :=
    match cache !! domain e with
    | Some cached => default 0%Z (claim_count cached)
    | None => 0%Z
    end in
  if (0 <? count)%Z then set_factcheck_claims count e else e.

(** [step_factcheck] with the API key [get_google_api_key] found. *)
Definition step_factcheck (api_key : string) (entries : list entry)
    (limit : Z) (file : option (gmap string fc_result)) (w : World)
  : list entry * fc_run :=
  let st := load_cache file w in
  let to_query := filter (fun e => domain e ∉ dom (cache st)) entries in
  let to_query := apply_limit limit to_query in
  let st :=
    match to_query with
    | [] => st
    | _ :: _ => save_cache (factcheck_query_loop api_key 0 to_query st)
    end in
  (map (factcheck_apply (cache st)) entries, st).

(** **** Safe Browsing *)

(** A value of the Safe Browsing cache; [sb_error] is the key "error",
    there only after a failed batch. *)
Record sb_result : Type := {
  flagged : bool;
  sb_error : bool
}.

(** The API: the URLs of a request in a world give the URLs of the
    matches, or [None] for any exception. *)
Variable safebrowsing_server :
  string -> list string -> World -> option (list string) * World.

Definition BATCH_SIZE : nat := 500.

(** [f"http://{d}/"] *)
Definition threat_url (d : string) : string := "http://" +:+ d +:+ "/".

(** The domain read back from the URL of a match. *)
Definition url_domain (url : string) : string :=
  PyStr.strip_chars (PyStr.is_char "/")
    (PyStr.replace "https://" "" (PyStr.replace "http://" "" url)).

(** [range(0, n, BATCH_SIZE)] *)
Definition batch_starts (n : nat) : list nat :=
  (fun k => k * BATCH_SIZE) <$> seq 0 ((n + BATCH_SIZE - 1) / BATCH_SIZE).

(** [to_check[batch_start:batch_start + BATCH_SIZE]] *)
Definition batch_at (to_check : list string) (batch_start : nat)
  : list string :=
  take BATCH_SIZE (drop batch_start to_check).

Definition batches (to_check : list string) : list (list string) :=
  batch_at to_check <$> batch_starts (length to_check).

(** [for d in batch: cache[d] = result(d)] *)
Definition sb_mark (result : string -> sb_result) (batch : list string)
    (cache : gmap string sb_result) : gmap string sb_result :=
  fold_left (fun c d => <[d := result d]> c) batch cache.

Abbreviation sb_run := (run sb_result World).

(** One turn of the loop over the batches; the domains of the batch are
    added to [queries]. *)
Definition sb_batch_step (api_key : string) (st : sb_run)
    (batch : list string) : sb_run :=
  let '(response, w') :=
    safebrowsing_server api_key (threat_url <$> batch) (world st) in
  let result :=
    match response with
    | Some matches =>
        let flagged_domains := url_domain <$> matches in
        fun d => {| flagged := bool_decide (d ∈ flagged_domains);
                    sb_error := false |}
    | None => fun _ => {| flagged := false; sb_error := true |}
    end in
  {| cache := sb_mark result batch (cache st);
     cache_file := cache_file st;
     world := w';
     queries := rev batch ++ queries st |}.

Definition set_flagged (e : entry) : entry :=
  {| merged := merged e; tranco_rank := tranco_rank e;
     domain_age_years := domain_age_years e;
     domain_registered := domain_registered e;
     factcheck_claims := factcheck_claims e;
     safe_browsing_flagged := true;
     credibility_score := credibility_score e;
     score_components := score_components e |}.

Definition sb_apply (cache : gmap string sb_result) (e : entry) : entry :=
  match cache !! domain e with
  | Some cached => if flagged cached then set_flagged e else e
  | None => e
  end.

(** [step_safebrowsing] with the API key found; the cache file is written
    at the end of every run. *)
Definition step_safebrowsing (api_key : string) (entries : list entry)
    (file : option (gmap string sb_result)) (w : World)
  : list entry * sb_run :=
  let st := load_cache file w in
  let to_check :=
    domain <$> filter (fun e => domain e ∉ dom (cache st)) entries in
  let st := fold_left (sb_batch_step api_key) (batches to_check) st in
  let st := save_cache st in
  (map (sb_apply (cache st)) entries, st).

End Drivers.


(** *** Scores *)

Local Open Scope R_scope.

(** [CATEGORY_SCORES.get(entry["category"], 0.5)]; every category of the
    taxonomy is a key, so the default is never taken. *)
Definition CATEGORY_SCORES (c : Build.Category) : R :=
  match c with
  | Build.Reliable => 1
  | Build.MostlyReliable => 8 / 10
  | Build.Mixed => 5 / 10
  | Build.Satire => 3 / 10
  | Build.Other => 5 / 10
  | Build.Unreliable => 2 / 10
  | Build.Conspiracy => 1 / 10
  | Build.Fake => 0
  end.

(** [max(0.0, 1.0 - (math.log10(max(tranco, 1)) / 6.0))] *)
Definition tranco_signal_of (tranco : Z) : R :=
  Rmax 0 (1 - PyNum.log10 (IZR (Z.max tranco 1)) / 6).

(** [min(1.0, age / 20.0)] *)
Definition age_signal_of (age : R) : R := Rmin 1 (age / 20).

(** [max(0.0, 1.0 - (math.log10(max(fc_claims, 1)) / 1.7))] *)
Definition fc_signal_of (fc_claims : Z) : R :=
  Rmax 0 (1 - PyNum.log10 (IZR (Z.max fc_claims 1)) / (17 / 10)).

(** The fact-check signal of an entry: there is one when
    [entry.get("factcheck_claims", 0) > 0]. *)
Definition fc_signal (e : entry) : option R :=
  let fc_claims := default 0%Z (factcheck_claims e) in
  if (0 <? fc_claims)%Z then Some (fc_signal_of fc_claims) else None.

(** [weighted_sum += w * signal; weights_total += w] when there is a
    signal.  The weights are numbers; the sum is a float, as the
    [iffy_score] is. *)
Definition add_signal (w : R) (signal : option PyNum.pyfloat)
    (acc : PyNum.pyfloat * R) : PyNum.pyfloat * R :=
  match signal with
  | Some x => (PyNum.fadd (fst acc) (PyNum.fmul (PyNum.Num w) x), snd acc + w)
  | None => acc
  end.

(** The score of an entry before rounding. *)
Definition raw_score (e : entry) : PyNum.pyfloat :=
  let cat_score := CATEGORY_SCORES (category e) in
  let tranco_signal := tranco_signal_of <$> tranco_rank e in
  let age_signal := age_signal_of <$> domain_age_years e in
  let acc := (PyNum.Num (50 / 100 * cat_score), 50 / 100) in
  let acc := add_signal (15 / 100) (iffy_score e) acc in
  let acc := add_signal (5 / 100) (PyNum.Num <$> tranco_signal) acc in
  let acc := add_signal (5 / 100) (PyNum.Num <$> age_signal) acc in
  let acc := add_signal (15 / 100) (PyNum.Num <$> fc_signal e) acc in
  let '(weighted_sum, weights_total) := acc in
  let weighted_sum :=
    if Rlt_dec weights_total 1
    then PyNum.fadd weighted_sum
           (PyNum.Num ((1 - weights_total) * cat_score))
    else weighted_sum in
  let score := weighted_sum in
  if safe_browsing_flagged e
  then PyNum.fmin score (PyNum.Num (5 / 100))
  else score.

Definition round2 (x : R) : R := PyNum.round x 2.

(** What a turn of the scoring loop writes into its entry when it gets to
    the end of the body. *)
Definition scored (e : entry) : entry :=
  let cat_score := CATEGORY_SCORES (category e) in
  set_score (PyNum.fround (raw_score e) 3)
    {| comp_category := round2 cat_score;
       comp_iffy := (fun x => PyNum.fround x 2) <$> iffy_score e;
       comp_tranco := round2 <$> (tranco_signal_of <$> tranco_rank e);
       comp_age := round2 <$> (age_signal_of <$> domain_age_years e);
       comp_factcheck := round2 <$> fc_signal e;
       comp_safe_browsing :=
         if safe_browsing_flagged e then Some "flagged" else None |}
    e.

(** One turn of the scoring loop of [step_score].  The module has no
    [import math]; the only one is in the body, under
    [if tranco is not None], so [math] is a local name of [step_score],
    bound from the first entry with a rank on.  [math] tells whether the
    name is bound when the turn starts, and the turn returns what it is at
    its end; [None] is the UnboundLocalError of [math.log10] in the
    fact-check branch. *)
Definition score_entry (math : bool) (e : entry) : option (entry * bool) :=
  let math := match tranco_rank e with Some _ => true | None => math end in
  match fc_signal e, math with
  | Some _, false => None
  | _, _ => Some (scored e, math)
  end.

Fixpoint score_loop (math : bool) (entries : list entry)
  : option (list entry) :=
  match entries with
  | [] => Some []
  | e :: rest =>
      match score_entry math e with
      | Some (e', math) =>
          match score_loop math rest with
          | Some rest' => Some (e' :: rest')
          | None => None
          end
      | None => None
      end
  end.

(** The compact entry [step_score] writes for a scored entry;
    [e["credibility_score"]] is there once the entry is scored. *)
Definition tier1_entry (e : entry) : option Build.compact :=
  score ← credibility_score e;
  Some {| Build.c_s := PyNum.fround score 2;
          Build.c_c := PyStr.index0 (Build.category_name (category e));
          Build.c_n := length (Build.sources (merged e));
          Build.c_r := tranco_rank e;
          Build.c_a := (fun a => PyNum.round a 1) <$> domain_age_years e |}.

(** The compact dataset: a later entry of a domain replaces an earlier. *)
Definition tier1 (entries : list entry) : gmap string Build.compact :=
  fold_left
    (fun t e =>
       match tier1_entry e with
       | Some c => <[domain e := c]> t
       | None => t
       end)
    entries ∅.

(** [step_score]: the scored entries and the compact dataset.  [None] is
    an exception: the UnboundLocalError of the loop, or, after the loop,
    the ValueError of [min(scores)] when there is no entry. *)
Definition step_score (entries : list entry)
  : option (list entry * gmap string Build.compact) :=
  match score_loop false entries with
  | Some [] => None
  | Some entries => Some (entries, tier1 entries)
  | None => None
  end.

(** [math] is bound wherever the loop needs it: an entry with fact-check
    claims has a rank, or comes after an entry that has one, or [math] was
    bound from the start. *)
Definition math_bound (math : bool) (entries : list entry) : Prop :=
  forall (i : nat) e,
    entries !! i = Some e -> is_Some (fc_signal e) ->
    math = true
    \/ exists (j : nat) e', (j <= i)%nat /\ entries !! j = Some e'
                            /\ is_Some (tranco_rank e').

(** The [iffy_score] of an entry when it is a number. *)
Definition iffy_number (e : entry) : option R :=
  match iffy_score e with
  | Some (PyNum.Num x) => Some x
  | _ => None
  end.

(** The [iffy_score] is a number, or there is none. *)
Definition number_or_absent (e : entry) : Prop :=
  forall s, iffy_score e = Some s -> exists x, s = PyNum.Num x.

(** The ranges the data model declares that the score depends on: an
    [iffy_score] in [0,1] and an age that is not negative.  (The score is
    in range whatever the rank and the number of claims are.) *)
Definition signals_in_range (e : entry) : Prop :=
  (forall s, iffy_score e = Some s -> PyNum.in_unit s)
  /\ (forall a, domain_age_years e = Some a -> 0 <= a).

(** No optional signal is there. *)
Definition no_signals (e : entry) : Prop :=
  iffy_score e = None /\ tranco_rank e = None /\ domain_age_years e = None
  /\ factcheck_claims e = None /\ safe_browsing_flagged e = false.

(** [x] is [y] when written with one decimal. *)
Definition to_one_decimal (x y : R) : Prop := Rabs (x - y) <= 5 / 100.

(** An entry with a category and a number of fact-check claims only. *)
Definition sample_entry (c : Build.Category) (claims : option Z) : entry :=
  {| merged :=
       {| Build.domain := "example.com"; Build.category := c;
          Build.categories_all := {[ c ]}; Build.sources := ["iffy"];
          Build.iffy := None; Build.opensources_types := None |};
     tranco_rank := None; domain_age_years := None;
     domain_registered := None; factcheck_claims := claims;
     safe_browsing_flagged := false; credibility_score := None;
     score_components := None |}.

(** An entry of both sources with every signal there, and flagged. *)
Definition sample_enriched : entry :=
  {| merged :=
       {| Build.domain := "example.com"; Build.category := Build.Mixed;
          Build.categories_all := {[ Build.Mixed; Build.MostlyReliable ]};
          Build.sources := ["opensources"; "iffy"];
          Build.iffy :=
            Some {| Build.iffy_factual := "MH"; Build.iffy_bias := "R";
                    Build.iffy_cred := "L";
                    Build.iffy_score := Some (PyNum.Num (3 / 10));
                    Build.iffy_site_rank := Some 1000%Z;
                    Build.iffy_year_online := Some 2004%Z;
                    Build.iffy_lang := "en"; Build.iffy_name := "Example" |};
          Build.opensources_types := Some ["bias"; ""; ""] |};
     tranco_rank := Some 1000%Z; domain_age_years := Some 12;
     domain_registered := Some "2014-01-01T00:00:00Z";
     factcheck_claims := Some 7%Z; safe_browsing_flagged := true;
     credibility_score := None; score_components := None |}.

(** A flagged entry with a rank and one fact-check claim, and a flagged
    entry whose [iffy_score] was read from the cell "nan". *)
Definition sample_ranked (claims : option Z) : entry :=
  {| merged :=
       {| Build.domain := "ranked.example"; Build.category := Build.Mixed;
          Build.categories_all := {[ Build.Mixed ]};
          Build.sources := ["opensources"];
          Build.iffy := None; Build.opensources_types := Some ["bias"; ""; ""] |};
     tranco_rank := Some 1000%Z; domain_age_years := None;
     domain_registered := None; factcheck_claims := claims;
     safe_browsing_flagged := false; credibility_score := None;
     score_components := None |}.

Definition sample_nan : entry :=
  {| merged :=
       {| Build.domain := "nan.example"; Build.category := Build.Unreliable;
          Build.categories_all := {[ Build.Unreliable ]};
          Build.sources := ["iffy"];
          Build.iffy :=
            Some {| Build.iffy_factual := "L"; Build.iffy_bias := "";
                    Build.iffy_cred := "";
                    Build.iffy_score := Some PyNum.NaN;
                    Build.iffy_site_rank := None;
                    Build.iffy_year_online := None;
                    Build.iffy_lang := "en"; Build.iffy_name := "" |};
          Build.opensources_types := None |};
     tranco_rank := None; domain_age_years := None;
     domain_registered := None; factcheck_claims := None;
     safe_browsing_flagged := true; credibility_score := None;
     score_components := None |}.

(** A world in which nothing happens, a date parser that knows one date
    (the epoch), and an RDAP cache with that date for one domain. *)
Definition quiet_rdap_server (base : string) (w : unit)
  : option (list (string * string)) * unit := (None, w).

Definition epoch_only (reg : string) : option Z :=
  if String.eqb reg "1970-01-01T00:00:00+00:00" then Some 0%Z else None.

Definition sample_rdap_cache : gmap string rdap_result :=
  {[ "example.com" :=
       {| rdap_error := false;
          registered := Some "1970-01-01T00:00:00+00:00";
          expires := None; updated := None |} ]}.

Definition quiet_factcheck_server (domain api_key : string) (w : unit)
  : fc_response * unit := (FcFailure, w).

Definition sample_fc_cache : gmap string fc_result :=
  {[ "example.com" := {| claim_count := Some 3%Z; error := ErrFalse |} ]}.

(** Microseconds in a day, and the time [d] days after the epoch. *)
Definition day_us : Z := 86400000000.
Definition days_after_epoch (d : Z) : Z := (0 + d * day_us)%Z.

(** [e'] is [e] with, at most, a domain age added or replaced. *)
Definition adds_age_only (e e' : entry) : Prop :=
  merged e' = merged e /\ tranco_rank e' = tranco_rank e
  /\ factcheck_claims e' = factcheck_claims e
  /\ safe_browsing_flagged e' = safe_browsing_flagged e
  /\ credibility_score e' = credibility_score e
  /\ score_components e' = score_components e
  /\ (is_Some (domain_age_years e) -> is_Some (domain_age_years e'))
  /\ (is_Some (domain_registered e) -> is_Some (domain_registered e')).

(** [e'] is [e] with, at most, a positive number of claims added or
    replaced. *)
Definition adds_claims_only (e e' : entry) : Prop :=
  merged e' = merged e /\ tranco_rank e' = tranco_rank e
  /\ domain_age_years e' = domain_age_years e
  /\ domain_registered e' = domain_registered e
  /\ safe_browsing_flagged e' = safe_browsing_flagged e
  /\ credibility_score e' = credibility_score e
  /\ score_components e' = score_components e
  /\ (factcheck_claims e' = factcheck_claims e
      \/ exists n, factcheck_claims e' = Some n /\ (0 < n)%Z).

(** For stating what [query_rdap] keeps of a response: the date of the
    last event of an action among the events that have a date. *)
Definition last_date (action : string) (events : list (string * string))
  : option string :=
  last (snd <$> filter (fun ev => fst ev = action /\ snd ev <> "") events).

(** An RDAP server that knows one registration, of the epoch. *)
Definition epoch_rdap_server (base : string) (w : unit)
  : option (list (string * string)) * unit :=
  (Some [("registration", "1970-01-01T00:00:00+00:00")], w).

(** [e'] is [e] with, at most, a rank added or replaced. *)
Definition adds_rank_only (e e' : entry) : Prop :=
  merged e' = merged e
  /\ domain_age_years e' = domain_age_years e
  /\ domain_registered e' = domain_registered e
  /\ factcheck_claims e' = factcheck_claims e
  /\ safe_browsing_flagged e' = safe_browsing_flagged e
  /\ credibility_score e' = credibility_score e
  /\ score_components e' = score_components e
  /\ (is_Some (tranco_rank e) -> is_Some (tranco_rank e')).

(** An [int] that reads one numeral. *)
Definition one_only (s : string) : option Z :=
  if String.eqb s "1" then Some 1%Z else None.

(** [e'] is [e] with, at most, the Safe Browsing flag set. *)
Definition adds_flag_only (e e' : entry) : Prop :=
  merged e' = merged e /\ tranco_rank e' = tranco_rank e
  /\ domain_age_years e' = domain_age_years e
  /\ domain_registered e' = domain_registered e
  /\ factcheck_claims e' = factcheck_claims e
  /\ credibility_score e' = credibility_score e
  /\ score_components e' = score_components e
  /\ (safe_browsing_flagged e = true -> safe_browsing_flagged e' = true).

(** A Safe Browsing API that reports every URL it is sent. *)
Definition strict_safebrowsing_server (api_key : string) (urls : list string)
    (w : unit) : option (list string) * unit := (Some urls, w).

(** What a signal adds to the score: its weight times its distance from
    the category score. *)
Definition pull (w cat_score : R) (signal : option R) : R :=
  match signal with
  | Some x => w * (x - cat_score)
  | None => 0
  end.

(** The score before rounding in closed form, for an [iffy_score] that is
    a number or absent: the category score, moved by every signal, cut at
    0.05 for a flagged entry. *)
Definition pulled_score (e : entry) : R :=
  let c := CATEGORY_SCORES (category e) in
  let s :=
    c + pull (15 / 100) c (iffy_number e)
    + pull (5 / 100) c (tranco_signal_of <$> tranco_rank e)
    + pull (5 / 100) c (age_signal_of <$> domain_age_years e)
    + pull (15 / 100) c (fc_signal e) in
  if safe_browsing_flagged e then Rmin s (5 / 100) else s.

End Enrich.

(** * Properties *)

(** ** Strings *)

Section StringFacts.

Import PyStr.

Lemma lower_char_not_upper (c : ascii) : is_upper (lower_char c) = false.
Proof. destruct c as [[] [] [] [] [] [] [] []]; reflexivity. Qed.

Lemma lower_char_id (c : ascii) : is_upper c = false -> lower_char c = c.
Proof. unfold lower_char. intros ->. reflexivity. Qed.

Lemma lower_all_lower (s : string) :
  all_chars (fun c => negb (is_upper c)) (lower s) = true.
Proof.
  induction s as [|c s IH]; simpl; [reflexivity|].
  rewrite lower_char_not_upper, IH. reflexivity.
Qed.

Lemma lower_id (s : string) :
  all_chars (fun c => negb (is_upper c)) s = true -> lower s = s.
Proof.
  induction s as [|c s IH]; simpl; [reflexivity|].
  intros [Hc Hs]%andb_true_iff.
  rewrite lower_char_id, IH; auto using negb_true_iff.
  now apply negb_true_iff.
Qed.

Lemma all_chars_lstrip (p q : ascii -> bool) (s : string) :
  all_chars q s = true -> all_chars q (lstrip p s) = true.
Proof.
  induction s as [|c s IH]; simpl; [reflexivity|].
  intros H. destruct (p c); [|exact H].
  apply andb_true_iff in H as [_ H]. auto.
Qed.

Lemma all_chars_rstrip (p q : ascii -> bool) (s : string) :
  all_chars q s = true -> all_chars q (rstrip p s) = true.
Proof.
  induction s as [|c s IH]; simpl; [reflexivity|].
  intros [Hc Hs]%andb_true_iff.
  destruct (is_empty (rstrip p s) && p c); simpl; [reflexivity|].
  rewrite Hc. auto.
Qed.

Lemma all_chars_slice_from (q : ascii -> bool) (n : nat) (s : string) :
  all_chars q s = true -> all_chars q (slice_from n s) = true.
Proof.
  revert s. induction n as [|n IH]; intros [|c s]; simpl; auto.
  intros [_ Hs]%andb_true_iff. auto.
Qed.

(** Stripping from the left changes nothing when the first character
    stays. *)
Lemma lstrip_id (p : ascii -> bool) (s : string) :
  opt_rejects p (first_char s) = true -> lstrip p s = s.
Proof.
  destruct s as [|c s]; simpl; [reflexivity|].
  intros H%negb_true_iff. now rewrite H.
Qed.

(** Stripping from the right changes nothing when the last character
    stays. *)
Lemma rstrip_id (p : ascii -> bool) (s : string) :
  opt_rejects p (last_char s) = true -> rstrip p s = s.
Proof.
  induction s as [|c s IH]; [reflexivity|].
  intros Hl. cbn [rstrip].
  destruct s as [|c' s'].
  - simpl in *. apply negb_true_iff in Hl. now rewrite Hl.
  - assert (Hl' : opt_rejects p (last_char (String c' s')) = true) by exact Hl.
    rewrite (IH Hl'). reflexivity.
Qed.

(** What [rstrip] returns does not end in a character of the set. *)
Lemma rstrip_last (p : ascii -> bool) (s : string) :
  opt_rejects p (last_char (rstrip p s)) = true.
Proof.
  induction s as [|c s IH]; simpl; [reflexivity|].
  destruct (rstrip p s) as [|c' r] eqn:Hr; simpl.
  - destruct (p c) eqn:Hp; simpl; [reflexivity|]. now rewrite Hp.
  - exact IH.
Qed.

(** A suffix that is not empty ends as the string does. *)
Lemma last_char_slice_from (n : nat) (s : string) :
  slice_from n s = EmptyString \/ last_char (slice_from n s) = last_char s.
Proof.
  revert s. induction n as [|n IH]; intros [|c s]; simpl; auto.
  destruct (IH s) as [He|Hl]; [now left|].
  destruct s as [|c' s']; [left; now destruct n|].
  right. exact Hl.
Qed.

Lemma opt_rejects_last_slice_from (p : ascii -> bool) (n : nat) (s : string) :
  opt_rejects p (last_char s) = true ->
  opt_rejects p (last_char (slice_from n s)) = true.
Proof.
  intros H. destruct (last_char_slice_from n s) as [-> | ->]; auto.
Qed.

End StringFacts.

(** ** The domain normalizer *)

Section Normalizer.

Import PyStr.

Lemma normalize_domain_unfold (x : string) :
  Build.normalize_domain x =
  if startswith (Build.stripped x) "www." then slice_from 4 (Build.stripped x)
  else Build.stripped x.
Proof. reflexivity. Qed.

Lemma stripped_all_lower (x : string) :
  all_chars (fun c => negb (is_upper c)) (Build.stripped x) = true.
Proof.
  unfold Build.stripped, strip.
  repeat apply all_chars_rstrip. apply all_chars_lstrip, lower_all_lower.
Qed.

(** The result of a pass has no upper-case character and no final ".". *)
Lemma normalize_domain_shape (x : string) :
  all_chars (fun c => negb (is_upper c)) (Build.normalize_domain x) = true
  /\ opt_rejects (is_char ".") (last_char (Build.normalize_domain x)) = true.
Proof.
  rewrite normalize_domain_unfold.
  pose proof (stripped_all_lower x) as Hl.
  assert (Hd : opt_rejects (is_char ".") (last_char (Build.stripped x)) = true)
    by apply rstrip_last.
  destruct (startswith (Build.stripped x) "www."); split; auto.
  - now apply all_chars_slice_from.
  - now apply opt_rejects_last_slice_from.
Qed.

(** A domain in normal form is a fixed point. *)
Lemma normalize_domain_fixed (d : string) :
  Build.normalized d = true -> Build.normalize_domain d = d.
Proof.
  unfold Build.normalized, Build.residue_free.
  rewrite !andb_true_iff.
  intros [[Hlow Hdot] [[[Hfst Hlst] Hslash] Hwww]].
  assert (Hs : Build.stripped d = d).
  { unfold Build.stripped, strip.
    rewrite (lower_id d), (lstrip_id is_space d) by assumption.
    rewrite (rstrip_id is_space d Hlst), (rstrip_id (is_char "/") d Hslash).
    exact (rstrip_id (is_char ".") d Hdot). }
  rewrite normalize_domain_unfold, Hs.
  destruct (startswith d "www."); [discriminate|reflexivity].
Qed.

Lemma normalized_normalize_domain (x : string) :
  Build.normalized (Build.normalize_domain x)
  = Build.residue_free (Build.normalize_domain x).
Proof.
  unfold Build.normalized.
  destruct (normalize_domain_shape x) as [-> ->]. reflexivity.
Qed.

(** C2, as amended.  A domain already in normal form (no upper-case
    character, no white space at either end, no final "/" or ".", no
    leading "www.") is returned unchanged, and a second pass changes
    nothing whenever the first pass left no white space at either end, no
    final "/" and no leading "www.". *)
Theorem normalize_domain_idempotent_when_clean :
  (forall d : string,
     Build.normalized d = true -> Build.normalize_domain d = d)
  /\ (forall x : string,
        Build.residue_free (Build.normalize_domain x) = true ->
        Build.normalize_domain (Build.normalize_domain x)
        = Build.normalize_domain x).
Proof.
  split.
  - exact normalize_domain_fixed.
  - intros x Hx. apply normalize_domain_fixed.
    now rewrite normalized_normalize_domain.
Qed.

Lemma normalize_domain_idempotent_when_clean_witness :
  Build.normalize_domain "example.com" = "example.com"
  /\ Build.normalize_domain (Build.normalize_domain "WWW.Example.com/")
     = Build.normalize_domain "WWW.Example.com/".
Proof.
  split.
  - apply (proj1 normalize_domain_idempotent_when_clean "example.com").
    reflexivity.
  - apply (proj2 normalize_domain_idempotent_when_clean "WWW.Example.com/").
    reflexivity.
Defined.

(** C2 as stated fails: only one "www." is removed per pass. *)
Lemma normalize_domain_not_idempotent :
  ~ (forall x : string,
       Build.normalize_domain (Build.normalize_domain x)
       = Build.normalize_domain x).
Proof.
  intros H. specialize (H "www.www.a.com"). vm_compute in H. discriminate.
Qed.

(** C8 at "example.com.": the consumer looks up the key with its final
    dot, the builder stored the domain without it. *)
Theorem lookup_key_keeps_trailing_dot :
  Usage.lookup_key "example.com." = "example.com."
  /\ Build.normalize_domain "example.com." = "example.com"
  /\ Usage.lookup_key "example.com." <> Build.normalize_domain "example.com.".
Proof. repeat split. vm_compute. discriminate. Qed.

End Normalizer.

(** ** Category resolution *)

Section Categories.

Import Build.

Lemma category_priority_severity (c : Category) :
  category_priority !! severity c = Some c.
Proof. destruct c; reflexivity. Qed.

(** [List.find] returns the first element that passes the test. *)
Lemma find_first {A} (f : A -> bool) (l : list A) (i : nat) (x : A) :
  l !! i = Some x -> f x = true ->
  exists j y, j <= i /\ l !! j = Some y /\ f y = true
              /\ List.find f l = Some y.
Proof.
  revert i. induction l as [|a l IH]; intros i Hi Hx; [discriminate|].
  cbn [List.find]. destruct (f a) eqn:Ha.
  - exists 0, a. repeat split; auto. lia.
  - destruct i as [|i]; cbn in Hi.
    + injection Hi as ->. congruence.
    + destruct (IH i Hi Hx) as (j & y & Hj & Hl & Hy & Hf).
      exists (S j), y. repeat split; auto. lia.
Qed.

Lemma category_priority_lookup (j : nat) (c : Category) :
  category_priority !! j = Some c -> severity c = j.
Proof.
  unfold category_priority.
  do 8 (destruct j as [|j]; [intros [= <-]; reflexivity|]).
  discriminate.
Qed.

(** The loop finds a label at least as severe as any label it is given. *)
Lemma pick_primary_below (types : list Category) (c : Category) :
  c ∈ types ->
  pick_primary types ∈ types /\ severity (pick_primary types) <= severity c.
Proof.
  intros Hc. unfold pick_primary.
  destruct (find_first (fun cat => bool_decide (cat ∈ types))
              category_priority (severity c) c)
    as (j & y & Hj & Hl & Hy & ->).
  - apply category_priority_severity.
  - now apply bool_decide_eq_true.
  - change (default Other (Some y)) with y. apply bool_decide_eq_true in Hy.
    apply category_priority_lookup in Hl. split; [exact Hy|lia].
Qed.


Lemma pick_primary_pair (c1 c2 : Category) :
  (pick_primary [c1; c2] = c1 \/ pick_primary [c1; c2] = c2)
  /\ severity (pick_primary [c1; c2]) <= severity c1
  /\ severity (pick_primary [c1; c2]) <= severity c2.
Proof.
  assert (H1 : c1 ∈ [c1; c2]) by (apply list_elem_of_here).
  assert (H2 : c2 ∈ [c1; c2]) by (apply list_elem_of_further, list_elem_of_here).
  destruct (pick_primary_below _ _ H1) as [Hin Hle1].
  destruct (pick_primary_below _ _ H2) as [_ Hle2].
  repeat split; auto.
  apply elem_of_cons in Hin as [Hin | Hin]; [now left|].
  apply elem_of_cons in Hin as [Hin | Hin]; [now right|].
  inversion Hin.
Qed.

Lemma severity_inj (c1 c2 : Category) : severity c1 = severity c2 -> c1 = c2.
Proof.
  intros H. pose proof (category_priority_severity c1) as E1.
  pose proof (category_priority_severity c2) as E2.
  rewrite H in E1. congruence.
Qed.

Lemma pick_primary_pair_comm (c1 c2 : Category) :
  pick_primary [c1; c2] = pick_primary [c2; c1].
Proof.
  apply severity_inj.
  destruct (pick_primary_pair c1 c2) as ([-> | ->] & H1 & H2);
    destruct (pick_primary_pair c2 c1) as ([-> | ->] & H3 & H4); lia.
Qed.




(** Every entry of the parsed OpenSources map was built from an item of the
    raw object. *)
Lemma parse_opensources_lookup (raw : list (string * os_info)) d e :
  parse_opensources raw !! d = Some e ->
  exists item, item ∈ raw /\ e = opensources_entry d (snd item).
Proof.
  unfold parse_opensources.
  enough (G : forall acc : gmap string entry,
            fold_left
              (fun entries item =>
                 let d := normalize_domain (fst item) in
                 if PyStr.is_empty d then entries
                 else <[d := opensources_entry d (snd item)]> entries)
              raw acc !! d = Some e ->
            acc !! d = Some e
            \/ exists item, item ∈ raw /\ e = opensources_entry d (snd item)).
  { intros H. destruct (G _ H) as [H0|H0]; [|exact H0].
    rewrite lookup_empty in H0. discriminate. }
  induction raw as [|item raw IH]; intros acc H; [now left|].
  cbn [fold_left] in H. apply IH in H as [H | (it & Hit & ->)].
  - cbv zeta in H. destruct (PyStr.is_empty _); [now left|].
    rewrite lookup_insert in H. case_decide as Hd.
    + right. exists item. split; [apply list_elem_of_here|]. congruence.
    + now left.
  - right. exists it. split; [now apply list_elem_of_further|reflexivity].
Qed.

Lemma parse_iffy_lookup py_float py_int (rows : list iffy_row) d e :
  parse_iffy py_float py_int rows !! d = Some e ->
  exists row, row ∈ rows /\ e = iffy_entry py_float py_int d row.
Proof.
  unfold parse_iffy.
  enough (G : forall acc : gmap string entry,
            fold_left
              (fun entries row =>
                 let d := normalize_domain (default "" (col_Domain row)) in
                 if PyStr.is_empty d then entries
                 else <[d := iffy_entry py_float py_int d row]> entries)
              rows acc !! d = Some e ->
            acc !! d = Some e
            \/ exists row, row ∈ rows /\ e = iffy_entry py_float py_int d row).
  { intros H. destruct (G _ H) as [H0|H0]; [|exact H0].
    rewrite lookup_empty in H0. discriminate. }
  induction rows as [|row rows IH]; intros acc H; [now left|].
  cbn [fold_left] in H. apply IH in H as [H | (it & Hit & ->)].
  - cbv zeta in H. destruct (PyStr.is_empty _); [now left|].
    rewrite lookup_insert in H. case_decide as Hd.
    + right. exists row. split; [apply list_elem_of_here|]. congruence.
    + now left.
  - right. exists it. split; [now apply list_elem_of_further|reflexivity].
Qed.





Lemma is_empty_true (t : string) : PyStr.is_empty t = true <-> t = "".
Proof. destruct t; cbn; split; congruence. Qed.

Lemma map_opensources_label_cases (t : string) (c : Category) :
  map_opensources_label t = c
  <-> dict_get OPENSOURCES_CATEGORY_MAP t = Some c
      \/ (dict_get OPENSOURCES_CATEGORY_MAP t = None /\ c = Other).
Proof.
  unfold map_opensources_label.
  destruct (dict_get OPENSOURCES_CATEGORY_MAP t) as [c'|].
  - change (default Other (Some c')) with c'. split.
    + intros ->. now left.
    + intros [[= ->]|[[=] _]]. reflexivity.
  - change (default Other (@None Category)) with Other. split.
    + intros <-. now right.
    + intros [[=]|[_ ->]]. reflexivity.
Qed.

(** The mapped labels of an item are those of its three raw labels that
    are not blank, each looked up stripped. *)
Lemma os_types_elem (info : os_info) (c : Category) :
  c ∈ os_types info
  <-> exists label,
        label ∈ [default "" (os_type info); default "" (os_type2 info);
                 default "" (os_type3 info)]
        /\ PyStr.strip label <> ""
        /\ map_opensources_label (PyStr.strip label) = c.
Proof.
  unfold os_types. cbn [flat_map]. rewrite app_nil_r, !elem_of_app.
  assert (G : forall field : option string,
            c ∈ (if PyStr.is_empty (PyStr.strip (default "" field))
                 then []
                 else [map_opensources_label (PyStr.strip (default "" field))])
            <-> PyStr.strip (default "" field) <> ""
                /\ map_opensources_label (PyStr.strip (default "" field)) = c).
  { intros field.
    destruct (PyStr.is_empty (PyStr.strip (default "" field))) eqn:E.
    - apply is_empty_true in E. rewrite elem_of_nil. tauto.
    - rewrite list_elem_of_singleton. split.
      + intros ->. split; [|reflexivity]. intros H.
        apply is_empty_true in H. congruence.
      + intros [_ H]. now symmetry. }
  rewrite !G. split.
  - intros [H|[H|H]]; eexists; (split; [|exact H]).
    + apply list_elem_of_here.
    + apply list_elem_of_further, list_elem_of_here.
    + do 2 apply list_elem_of_further. apply list_elem_of_here.
  - intros (label & Hl & H).
    rewrite !elem_of_cons, elem_of_nil in Hl.
    destruct Hl as [->|[->|[->|[]]]]; tauto.
Qed.

(** C5, as amended.  Both parsers look their labels up stripped of white
    space.  The categories of a parsed OpenSources entry are those of its
    raw labels that are not blank: the category the table has for the
    stripped label, and "other" when the table has none.  The category of
    a parsed Iffy entry is the one the table has for the stripped factual
    rating, and "unreliable" when the table has none. *)
Theorem unmapped_labels_default py_float py_int
    (raw : list (string * os_info)) (rows : list iffy_row)
    (d_os d_if : string) (e_os e_if : entry) :
  parse_opensources raw !! d_os = Some e_os ->
  parse_iffy py_float py_int rows !! d_if = Some e_if ->
  (exists labels,
     opensources_types e_os = Some labels
     /\ forall c,
          c ∈ categories_all e_os
          <-> exists label,
                label ∈ labels /\ PyStr.strip label <> ""
                /\ (dict_get OPENSOURCES_CATEGORY_MAP (PyStr.strip label)
                    = Some c
                    \/ (dict_get OPENSOURCES_CATEGORY_MAP (PyStr.strip label)
                        = None /\ c = Other)))
  /\ (exists row,
        row ∈ rows
        /\ iffy_factual <$> iffy e_if
           = Some (PyStr.strip (default "" (col_MBFC_Fact row)))
        /\ categories_all e_if = {[ category e_if ]}
        /\ (forall c,
              dict_get IFFY_FACTUAL_MAP
                (PyStr.strip (default "" (col_MBFC_Fact row))) = Some c ->
              category e_if = c)
        /\ (dict_get IFFY_FACTUAL_MAP
              (PyStr.strip (default "" (col_MBFC_Fact row))) = None ->
            category e_if = Unreliable)).
Proof.
  intros Hos Hif. split.
  - apply parse_opensources_lookup in Hos as (item & _ & ->).
    eexists. split; [reflexivity|]. intros c.
    cbn [opensources_entry categories_all].
    rewrite elem_of_list_to_set, os_types_elem.
    split; intros (label & Hl & Hne & H); exists label;
      (split; [exact Hl|split; [exact Hne|]]);
      now apply map_opensources_label_cases.
  - apply (parse_iffy_lookup py_float py_int) in Hif as (row & Hrow & ->).
    exists row. split; [exact Hrow|]. split; [reflexivity|].
    split; [reflexivity|].
    cbn [iffy_entry category]. unfold map_iffy_factual, cell.
    split.
    + intros c ->. reflexivity.
    + intros ->. reflexivity.
Qed.

Lemma unmapped_labels_default_witness :
  Mixed
  ∈ categories_all
      (opensources_entry "example.com"
         {| os_type := Some "fake"; os_type2 := Some "bias";
            os_type3 := Some "" |})
  /\ category
       (iffy_entry no_float no_int "example.com"
          {| col_Domain := Some "example.com"; col_MBFC_Fact := Some "MH";
             col_MBFC_Bias := Some "R"; col_MBFC_cred := Some "L";
             col_Score := None; col_Site_Rank := None;
             col_Year_online := None; col_Lang := Some "en";
             col_Name := Some "Example" |}) = MostlyReliable.
Proof.
  destruct (unmapped_labels_default no_float no_int sample_raw sample_rows
              "example.com" "example.com"
              (opensources_entry "example.com"
                 {| os_type := Some "fake"; os_type2 := Some "bias";
                    os_type3 := Some "" |})
              (iffy_entry no_float no_int "example.com"
                 {| col_Domain := Some "example.com";
                    col_MBFC_Fact := Some "MH"; col_MBFC_Bias := Some "R";
                    col_MBFC_cred := Some "L"; col_Score := None;
                    col_Site_Rank := None; col_Year_online := None;
                    col_Lang := Some "en"; col_Name := Some "Example" |}))
    as ((labels & Hl & Hc) & (row & _ & Hf & _ & Hin & _)).
  - reflexivity.
  - reflexivity.
  - split.
    + apply Hc. injection Hl as <-. exists "bias".
      split; [apply list_elem_of_further, list_elem_of_here|].
      split; [discriminate|]. left. reflexivity.
    + apply Hin. injection Hf as <-. reflexivity.
Defined.

(** C5 as stated fails on both sides.  An Iffy row whose rating is not in
    the table ("N/A" here, or a blank cell) gets "unreliable", not "other".
    An OpenSources label that is not in the table as it is written
    (" bias") is looked up stripped and gets "mixed", and a blank label
    gets no category at all. *)
Lemma unmapped_labels_not_other :
  dict_get IFFY_FACTUAL_MAP "N/A" = None
  /\ category
       (iffy_entry no_float no_int "a.com"
          {| col_Domain := Some "a.com"; col_MBFC_Fact := Some "N/A";
             col_MBFC_Bias := None; col_MBFC_cred := None;
             col_Score := None; col_Site_Rank := None;
             col_Year_online := None; col_Lang := None;
             col_Name := None |}) = Unreliable
  /\ parse_iffy no_float no_int
       [ {| col_Domain := Some "a.com"; col_MBFC_Fact := Some "N/A";
            col_MBFC_Bias := None; col_MBFC_cred := None;
            col_Score := None; col_Site_Rank := None;
            col_Year_online := None; col_Lang := None;
            col_Name := None |} ] !! "a.com"
     = Some
         (iffy_entry no_float no_int "a.com"
            {| col_Domain := Some "a.com"; col_MBFC_Fact := Some "N/A";
               col_MBFC_Bias := None; col_MBFC_cred := None;
               col_Score := None; col_Site_Rank := None;
               col_Year_online := None; col_Lang := None;
               col_Name := None |})
  /\ dict_get OPENSOURCES_CATEGORY_MAP " bias" = None
  /\ dict_get OPENSOURCES_CATEGORY_MAP "" = None
  /\ (categories_all <$>
        parse_opensources
          [ ("a.com", {| os_type := Some " bias"; os_type2 := Some "";
                         os_type3 := None |}) ] !! "a.com")
     = Some {[ Mixed ]}
  /\ Unreliable <> Other /\ Mixed <> Other.
Proof.
  split; [reflexivity|]. split; [reflexivity|]. split; [reflexivity|].
  split; [reflexivity|]. split; [reflexivity|]. split.
  - change (Some (list_to_set [Mixed] : gset Category) = Some {[ Mixed ]}).
    apply (f_equal Some), set_eq. intros c. set_solver.
  - split; discriminate.
Qed.

End Categories.

(** ** Merging *)

Section Merging.

Import Build.

Lemma omap_ext_elem {A B} (f g : A -> option B) (l : list A) :
  (forall x, x ∈ l -> f x = g x) -> omap f l = omap g l.
Proof.
  induction l as [|x l IH]; intros H; [reflexivity|]. cbn.
  rewrite (H x), IH by (try apply list_elem_of_here;
                        intros; apply H; now apply list_elem_of_further).
  reflexivity.
Qed.

Lemma omap_fmap_ext {A B C} (h : B -> C) (f g : A -> option B) (l : list A) :
  (forall x, h <$> f x = h <$> g x) -> h <$> omap f l = h <$> omap g l.
Proof.
  intros H. induction l as [|x l IH]; [reflexivity|]. cbn.
  specialize (H x). destruct (f x), (g x); cbn in *; congruence.
Qed.

Lemma merge_entries_keys (a b : gmap string entry) :
  sorted (elements (dom a ∪ dom b)) = sorted (elements (dom b ∪ dom a)).
Proof. now rewrite (union_comm_L (dom a) (dom b)). Qed.

Lemma merge_both_verdict (d : string) (x y : entry) :
  verdict (merge_both d x y) = verdict (merge_both d y x).
Proof.
  unfold verdict, merge_both. cbn [domain category categories_all sources].
  now rewrite pick_primary_pair_comm, (union_comm_L (categories_all x)).
Qed.

(** Swapping the two sources leaves the verdict on every domain as it
    is. *)
Lemma merge_at_verdict (a b : gmap string entry) (d : string) :
  verdict <$> merge_at a b d = verdict <$> merge_at b a d.
Proof.
  unfold merge_at.
  destruct (a !! d) as [x|], (b !! d) as [y|]; try reflexivity.
  change (Some (verdict (merge_both d x y)) = Some (verdict (merge_both d y x))).
  f_equal. apply merge_both_verdict.
Qed.

(** For a domain only one source has, swapping changes nothing at all. *)
Lemma merge_at_one_sided (a b : gmap string entry) (d : string) :
  a !! d = None \/ b !! d = None -> merge_at a b d = merge_at b a d.
Proof.
  unfold merge_at. intros [H|H]; rewrite H.
  - now destruct (b !! d).
  - now destruct (a !! d).
Qed.

Lemma merge_at_empty_r (a : gmap string entry) (d : string) :
  merge_at a ∅ d = a !! d.
Proof. unfold merge_at. rewrite lookup_empty. now destruct (a !! d). Qed.

Lemma merge_at_empty_l (a : gmap string entry) (d : string) :
  merge_at ∅ a d = a !! d.
Proof. unfold merge_at. now rewrite lookup_empty. Qed.

Lemma omap_lookup_keys (a : gmap string entry) (l : list (string * entry)) :
  (forall k v, (k, v) ∈ l -> a !! k = Some v) ->
  omap (fun d => a !! d) l.*1 = l.*2.
Proof.
  induction l as [|[k v] l IH]; intros H; [reflexivity|]. cbn.
  rewrite (H k v) by apply list_elem_of_here.
  rewrite IH; [reflexivity|]. intros; apply H. now apply list_elem_of_further.
Qed.

Lemma elements_dom_keys (a : gmap string entry) :
  elements (dom a) ≡ₚ (map_to_list a).*1.
Proof.
  apply NoDup_Permutation.
  - apply NoDup_elements.
  - apply NoDup_fst_map_to_list.
  - intros k. rewrite elem_of_elements, elem_of_dom, list_elem_of_fmap.
    split.
    + intros [v Hv]. exists (k, v). split; [reflexivity|].
      now apply elem_of_map_to_list.
    + intros ([k' v] & -> & Hv%elem_of_map_to_list). now exists v.
Qed.

(** Merging with an empty map returns the entries of the other map. *)
Lemma merge_entries_empty_r (a : gmap string entry) :
  merge_entries a ∅ ≡ₚ (map_to_list a).*2.
Proof.
  unfold merge_entries, sorted.
  rewrite dom_empty_L, (right_id_L ∅ (∪)).
  rewrite (omap_ext_elem _ (fun d => a !! d))
    by (intros; apply merge_at_empty_r).
  rewrite merge_sort_Permutation, elements_dom_keys.
  rewrite omap_lookup_keys; [reflexivity|].
  intros k v. apply elem_of_map_to_list.
Qed.

Lemma merge_entries_empty_swap (a : gmap string entry) :
  merge_entries a ∅ = merge_entries ∅ a.
Proof.
  unfold merge_entries. rewrite merge_entries_keys.
  apply omap_ext_elem. intros d _.
  now rewrite merge_at_empty_r, merge_at_empty_l.
Qed.

(** C4, as amended.  Swapping the two source maps gives the same domains
    in the same order with the same category, [categories_all] and sources
    on each; it gives the very same records when no domain is in both
    maps; and merging a map with an empty map, on either side, returns the
    entries of that map.  The metadata of a domain of both maps is taken by
    position. *)
Theorem merge_entries_order_independent_verdict (a b : gmap string entry) :
  verdict <$> merge_entries a b = verdict <$> merge_entries b a
  /\ (dom a ## dom b -> merge_entries a b = merge_entries b a)
  /\ merge_entries a ∅ = merge_entries ∅ a
  /\ merge_entries a ∅ ≡ₚ (map_to_list a).*2.
Proof.
  split; [|split; [|split]].
  - unfold merge_entries. rewrite merge_entries_keys.
    apply omap_fmap_ext. intros d. apply merge_at_verdict.
  - intros Hdisj. unfold merge_entries. rewrite merge_entries_keys.
    apply omap_ext_elem. intros d _. apply merge_at_one_sided.
    destruct (a !! d) as [x|] eqn:Ea; [|now left]. right.
    apply not_elem_of_dom. intros Hb.
    apply (Hdisj d); [|exact Hb]. apply elem_of_dom. now exists x.
  - apply merge_entries_empty_swap.
  - apply merge_entries_empty_r.
Qed.

Lemma merge_entries_order_independent_verdict_witness :
  merge_entries (parse_opensources sample_raw)
    (parse_iffy no_float no_int sample_rows_apart)
  = merge_entries (parse_iffy no_float no_int sample_rows_apart)
      (parse_opensources sample_raw).
Proof.
  apply (proj1 (proj2 (merge_entries_order_independent_verdict
                         (parse_opensources sample_raw)
                         (parse_iffy no_float no_int sample_rows_apart)))).
  apply (bool_decide_unpack _). vm_compute. exact I.
Defined.

(** C4 as stated fails: for a domain of both maps the [iffy_*] keys are
    copied from the second argument and [opensources_types] from the
    first, so the swapped merge carries no metadata. *)
Lemma merge_entries_not_commutative :
  ~ (forall a b : gmap string entry, merge_entries a b = merge_entries b a).
Proof.
  intros H.
  specialize (H (parse_opensources sample_raw)
                (parse_iffy no_float no_int sample_rows)).
  apply (f_equal (map (fun e => bool_decide (is_Some (opensources_types e)))))
    in H.
  vm_compute in H. discriminate.
Qed.

End Merging.

(** ** Numbers *)

Section Numbers.

Import PyNum.
Local Open Scope R_scope.

Lemma round_half_even_floor (x : R) :
  round_half_even x = Zfloor x \/ round_half_even x = (Zfloor x + 1)%Z.
Proof.
  unfold round_half_even.
  destruct (Rlt_dec _ _); [now left|].
  destruct (Rlt_dec _ _); [now right|].
  destruct (Z.even _); auto.
Qed.

(** Rounding never crosses an integer. *)
Lemma round_half_even_ge (x : R) (k : Z) :
  IZR k <= x -> (k <= round_half_even x)%Z.
Proof.
  intros H. apply Zfloor_lub in H.
  destruct (round_half_even_floor x) as [-> | ->]; lia.
Qed.

Lemma round_half_even_le (x : R) (k : Z) :
  x <= IZR k -> (round_half_even x <= k)%Z.
Proof.
  intros H. pose proof (Zfloor_bound x) as [Hlo Hhi].
  unfold round_half_even.
  destruct (Rlt_dec (x - IZR (Zfloor x)) (1 / 2)) as [Hd|Hd].
  - apply le_IZR. lra.
  - assert (Hlt : (Zfloor x < k)%Z) by (apply lt_IZR; lra).
    destruct (Rlt_dec _ _); [lia|]. destruct (Z.even _); lia.
Qed.

Lemma round_half_even_IZR (k : Z) : round_half_even (IZR k) = k.
Proof.
  apply Z.le_antisymm.
  - apply round_half_even_le. lra.
  - apply round_half_even_ge. lra.
Qed.

Lemma pow10_pos (n : nat) : 0 < 10 ^ n.
Proof. apply pow_lt. lra. Qed.

(** [round] keeps a number on its side of a decimal with that many
    digits. *)
Lemma round_ge (x : R) (n : nat) (k : Z) :
  IZR k / 10 ^ n <= x -> IZR k / 10 ^ n <= round x n.
Proof.
  intros H. pose proof (pow10_pos n) as Hp. unfold round.
  apply Rmult_le_compat_r; [left; now apply Rinv_0_lt_compat|].
  apply IZR_le, round_half_even_ge.
  apply (Rmult_le_compat_r (10 ^ n)) in H; [|lra].
  unfold Rdiv in H. rewrite Rmult_assoc, Rinv_l, Rmult_1_r in H; lra.
Qed.

Lemma round_le (x : R) (n : nat) (k : Z) :
  x <= IZR k / 10 ^ n -> round x n <= IZR k / 10 ^ n.
Proof.
  intros H. pose proof (pow10_pos n) as Hp. unfold round.
  apply Rmult_le_compat_r; [left; now apply Rinv_0_lt_compat|].
  apply IZR_le, round_half_even_le.
  apply (Rmult_le_compat_r (10 ^ n)) in H; [|lra].
  unfold Rdiv in H. rewrite Rmult_assoc, Rinv_l, Rmult_1_r in H; lra.
Qed.

(** A decimal with that many digits is its own rounding. *)
Lemma round_decimal (n : nat) (k : Z) : round (IZR k / 10 ^ n) n = IZR k / 10 ^ n.
Proof.
  apply Rle_antisym; [apply round_le|apply round_ge]; lra.
Qed.

Lemma round_unit_interval (x : R) (n : nat) :
  0 <= x <= 1 -> 0 <= round x n <= 1.
Proof.
  intros [H0 H1]. pose proof (pow10_pos n) as Hp. split.
  - replace 0 with (IZR 0 / 10 ^ n) by (unfold Rdiv; lra).
    apply round_ge. unfold Rdiv. lra.
  - assert (E : 1 = IZR (10 ^ Z.of_nat n) / 10 ^ n).
    { rewrite <- pow_IZR. field. lra. }
    apply Rle_trans with (IZR (10 ^ Z.of_nat n) / 10 ^ n); [|right; now rewrite <- E].
    apply round_le. now rewrite <- E.
Qed.

Lemma ln_le (x y : R) : 0 < x -> x <= y -> ln x <= ln y.
Proof.
  intros Hx [Hlt | ->]; [left; now apply ln_increasing|right; reflexivity].
Qed.

Lemma ln10_pos : 0 < ln 10.
Proof. rewrite <- ln_1. apply ln_increasing; lra. Qed.

Lemma log10_nonneg (x : R) : 1 <= x -> 0 <= log10 x.
Proof.
  intros H. unfold log10. pose proof ln10_pos.
  apply Rmult_le_pos; [|left; now apply Rinv_0_lt_compat].
  rewrite <- ln_1. apply ln_le; lra.
Qed.

Lemma log10_1 : log10 1 = 0.
Proof. unfold log10. rewrite ln_1. unfold Rdiv. lra. Qed.

(** Bounds on [log10] of an integer from a comparison of integer powers:
    [a ^ q <= 10 ^ p] gives [log10 a <= p / q], and the other way round. *)
Lemma log10_le_ratio (a : Z) (p q : nat) :
  (0 < a)%Z -> (0 < q)%nat -> (a ^ Z.of_nat q <= 10 ^ Z.of_nat p)%Z ->
  log10 (IZR a) <= INR p / INR q.
Proof.
  intros Ha Hq Hpow. pose proof ln10_pos as Hl.
  assert (Ha' : 0 < IZR a) by now apply IZR_lt.
  assert (Hq' : 0 < INR q) by now apply lt_0_INR.
  assert (H : INR q * ln (IZR a) <= INR p * ln 10).
  { rewrite <- !ln_pow by lra. apply ln_le; [now apply pow_lt|].
    rewrite !pow_IZR. now apply IZR_le. }
  unfold log10. apply (Rmult_le_reg_r (INR q * ln 10)); [nra|].
  field_simplify; lra.
Qed.

Lemma log10_ge_ratio (a : Z) (p q : nat) :
  (0 < a)%Z -> (0 < q)%nat -> (10 ^ Z.of_nat p <= a ^ Z.of_nat q)%Z ->
  INR p / INR q <= log10 (IZR a).
Proof.
  intros Ha Hq Hpow. pose proof ln10_pos as Hl.
  assert (Ha' : 0 < IZR a) by now apply IZR_lt.
  assert (Hq' : 0 < INR q) by now apply lt_0_INR.
  assert (H : INR p * ln 10 <= INR q * ln (IZR a)).
  { rewrite <- !ln_pow by lra. apply ln_le; [apply pow_lt; lra|].
    rewrite !pow_IZR. now apply IZR_le. }
  unfold log10. apply (Rmult_le_reg_r (INR q * ln 10)); [nra|].
  field_simplify; lra.
Qed.

Lemma log10_le (x y : R) : 0 < x -> x <= y -> log10 x <= log10 y.
Proof.
  intros Hx Hxy. unfold log10. pose proof ln10_pos.
  apply Rmult_le_compat_r; [left; now apply Rinv_0_lt_compat|].
  now apply ln_le.
Qed.

End Numbers.

(** ** The scoring engine *)

Section Scoring.

Import PyNum Enrich.
Local Open Scope R_scope.

Lemma CATEGORY_SCORES_range (c : Build.Category) :
  0 <= CATEGORY_SCORES c <= 1.
Proof. destruct c; cbn; lra. Qed.

Lemma CATEGORY_SCORES_decimal (c : Build.Category) :
  exists k : Z, CATEGORY_SCORES c = IZR k / 10 ^ 3.
Proof.
  destruct c; cbn;
    [exists 0%Z|exists 100%Z|exists 200%Z|exists 500%Z|exists 300%Z
    |exists 500%Z|exists 800%Z|exists 1000%Z]; lra.
Qed.

Lemma Z_max_1_ge (n : Z) : 1 <= IZR (Z.max n 1).
Proof. apply IZR_le. lia. Qed.

Lemma tranco_signal_range (tranco : Z) : 0 <= tranco_signal_of tranco <= 1.
Proof.
  unfold tranco_signal_of. split; [apply Rmax_l|].
  pose proof (log10_nonneg _ (Z_max_1_ge tranco)).
  apply Rmax_lub; lra.
Qed.

Lemma fc_signal_of_range (fc_claims : Z) : 0 <= fc_signal_of fc_claims <= 1.
Proof.
  unfold fc_signal_of. split; [apply Rmax_l|].
  pose proof (log10_nonneg _ (Z_max_1_ge fc_claims)).
  apply Rmax_lub; lra.
Qed.

Lemma age_signal_range (age : R) : 0 <= age -> 0 <= age_signal_of age <= 1.
Proof.
  intros H. unfold age_signal_of. split; [|apply Rmin_l].
  apply Rmin_glb; lra.
Qed.

Lemma fc_signal_range (e : entry) (x : R) :
  fc_signal e = Some x -> 0 <= x <= 1.
Proof.
  unfold fc_signal. destruct (0 <? _)%Z; [|discriminate].
  intros [= <-]. apply fc_signal_of_range.
Qed.

(** *** Floats *)

Lemma fmin_num (x y : R) : fmin (Num x) (Num y) = Num (Rmin x y).
Proof.
  unfold fmin, flt, Rmin.
  destruct (Rlt_dec y x), (Rle_dec x y); try reflexivity; exfalso; lra.
Qed.

Lemma fle_num (x y : R) : x <= y -> fle (Num x) (Num y) = true.
Proof. intros H. unfold fle. now destruct (Rle_dec x y). Qed.

(** *** The score before rounding *)

(** The weighted sum in closed form, whatever the [iffy_score] is. *)
Lemma raw_score_pulls (e : entry) :
  let c := CATEGORY_SCORES (category e) in
  let s :=
    c + pull (15 / 100) c (iffy_number e)
    + pull (5 / 100) c (tranco_signal_of <$> tranco_rank e)
    + pull (5 / 100) c (age_signal_of <$> domain_age_years e)
    + pull (15 / 100) c (fc_signal e) in
  raw_score e
  = match iffy_score e with
    | Some PosInf => if safe_browsing_flagged e then Num (5 / 100) else PosInf
    | Some NegInf => NegInf
    | Some NaN => NaN
    | _ => Num (if safe_browsing_flagged e then Rmin s (5 / 100) else s)
    end.
Proof.
  cbv zeta. unfold raw_score, iffy_number.
  destruct (iffy_score e) as [[i| | |]|]; destruct (tranco_rank e) as [t|];
    destruct (domain_age_years e) as [a|]; destruct (fc_signal e) as [f|];
    cbn [add_signal fmap option_fmap option_map fst snd pull fadd fmul];
    unfold scale_inf, inf_of;
    repeat (destruct (Rlt_dec _ _); try (exfalso; lra));
    cbn [fadd negb];
    destruct (safe_browsing_flagged e); rewrite ?fmin_num;
    cbn [fmin flt]; try reflexivity; f_equal;
    try (apply (f_equal (fun x => Rmin x (5 / 100)))); lra.
Qed.

Lemma raw_score_number (e : entry) :
  number_or_absent e -> raw_score e = Num (pulled_score e).
Proof.
  intros Hn. rewrite raw_score_pulls. unfold pulled_score.
  destruct (iffy_score e) as [[i| | |]|] eqn:E; try reflexivity;
    destruct (Hn _ E) as [x Hx]; discriminate.
Qed.

Lemma signals_number (e : entry) : signals_in_range e -> number_or_absent e.
Proof.
  intros [Hi _] s Hs. specialize (Hi s Hs).
  destruct s as [x| | |]; try contradiction. now exists x.
Qed.

(** Before rounding, the score of an entry with signals in range is in
    [0,1]. *)
Lemma pulled_score_range (e : entry) :
  signals_in_range e -> 0 <= pulled_score e <= 1.
Proof.
  intros [Hi Ha]. unfold pulled_score, iffy_number.
  pose proof (CATEGORY_SCORES_range (category e)) as Hc.
  pose proof (fc_signal_range e) as Hf.
  destruct (iffy_score e) as [[i| | |]|];
    try (exfalso; exact (Hi _ eq_refl));
    [specialize (Hi _ eq_refl); cbn [in_unit] in Hi|clear Hi];
    (destruct (tranco_rank e) as [t|];
     [pose proof (tranco_signal_range t) as Ht|]);
    (destruct (domain_age_years e) as [a|];
     [pose proof (age_signal_range a (Ha a eq_refl)) as Ha'|]);
    (destruct (fc_signal e) as [f|]; [specialize (Hf f eq_refl)|clear Hf]);
    cbn [pull fmap option_fmap option_map];
    destruct (safe_browsing_flagged e);
    try (apply Rmin_case_strong; intros); lra.
Qed.

(** Without a flag it is within 0.4 of the category score. *)
Lemma pulled_score_near_category (e : entry) :
  signals_in_range e -> safe_browsing_flagged e = false ->
  CATEGORY_SCORES (category e) - 4 / 10 <= pulled_score e
  <= CATEGORY_SCORES (category e) + 4 / 10.
Proof.
  intros [Hi Ha] Hflag. unfold pulled_score, iffy_number. rewrite Hflag.
  pose proof (CATEGORY_SCORES_range (category e)) as Hc.
  pose proof (fc_signal_range e) as Hf.
  destruct (iffy_score e) as [[i| | |]|];
    try (exfalso; exact (Hi _ eq_refl));
    [specialize (Hi _ eq_refl); cbn [in_unit] in Hi|clear Hi];
    (destruct (tranco_rank e) as [t|];
     [pose proof (tranco_signal_range t) as Ht|]);
    (destruct (domain_age_years e) as [a|];
     [pose proof (age_signal_range a (Ha a eq_refl)) as Ha'|]);
    (destruct (fc_signal e) as [f|]; [specialize (Hf f eq_refl)|clear Hf]);
    cbn [pull fmap option_fmap option_map]; lra.
Qed.

(** A flagged entry scores at most 0.05 before rounding, whatever its
    category and signals are. *)
Lemma pulled_score_flagged (e : entry) :
  safe_browsing_flagged e = true -> pulled_score e <= 5 / 100.
Proof. intros H. unfold pulled_score. rewrite H. apply Rmin_r. Qed.

(** Without signals the score is the category score. *)
Lemma pulled_score_no_signals (e : entry) :
  no_signals e -> pulled_score e = CATEGORY_SCORES (category e).
Proof.
  intros (Hi & Ht & Ha & Hf & Hs). unfold pulled_score, iffy_number, fc_signal.
  rewrite Hi, Ht, Ha, Hf, Hs. cbn. lra.
Qed.

(** The rounded score of a flagged entry whose [iffy_score] is not NaN. *)
Lemma flagged_score_le (e : entry) :
  safe_browsing_flagged e = true -> iffy_score e <> Some NaN ->
  fle (fround (raw_score e) 3) (Num (5 / 100)) = true.
Proof.
  intros Hf Hnan. rewrite raw_score_pulls. cbv zeta. rewrite Hf.
  assert (Hcap : forall x, x <= 5 / 100 -> round x 3 <= 5 / 100).
  { intros x Hx. replace (5 / 100) with (IZR 50 / 10 ^ 3) by (cbn; lra).
    apply round_le. cbn. lra. }
  destruct (iffy_score e) as [[i| | |]|]; cbn [fround];
    try (apply fle_num, Hcap; first [apply Rmin_r|lra]).
  - reflexivity.
  - congruence.
Qed.

(** *** The loop and the name [math] *)

Lemma score_entry_bound (math : bool) (e : entry) :
  (is_Some (fc_signal e) -> math = true \/ is_Some (tranco_rank e)) ->
  score_entry math e
  = Some (scored e, match tranco_rank e with Some _ => true | None => math end).
Proof.
  intros H. unfold score_entry.
  destruct (fc_signal e) as [f|]; [|reflexivity].
  destruct (H ltac:(eexists; reflexivity)) as [->|[r ->]];
    [destruct (tranco_rank e)|]; reflexivity.
Qed.

Lemma score_loop_bound (math : bool) (entries : list entry) :
  math_bound math entries -> score_loop math entries = Some (scored <$> entries).
Proof.
  revert math. induction entries as [|e rest IH]; intros math Hb;
    [reflexivity|].
  cbn [score_loop]. rewrite score_entry_bound.
  - rewrite IH; [reflexivity|].
    intros i e1 Hi Hfc.
    destruct (Hb (S i) e1 Hi Hfc) as [->|(j & e' & Hj & He' & Hr)].
    + left. now destruct (tranco_rank e).
    + destruct j as [|j].
      * injection He' as <-. left. destruct Hr as [r ->]. reflexivity.
      * right. exists j, e'. split; [lia|]. split; [exact He'|exact Hr].
  - intros Hfc. destruct (Hb 0%nat e eq_refl Hfc) as [->|(j & e' & Hj & He' & Hr)];
      [now left|right].
    assert (j = 0%nat) as -> by lia. now injection He' as <-.
Qed.

(** The loop stops at an entry with fact-check claims that no entry with a
    rank comes before. *)
Lemma score_loop_unbound (entries : list entry) (i : nat) (e : entry) :
  entries !! i = Some e -> is_Some (fc_signal e) ->
  (forall (j : nat) e', (j <= i)%nat -> entries !! j = Some e' ->
                        tranco_rank e' = None) ->
  score_loop false entries = None.
Proof.
  revert i. induction entries as [|e0 rest IH]; intros i Hi Hfc Hnone;
    [discriminate|].
  cbn [score_loop]. unfold score_entry.
  rewrite (Hnone 0%nat e0 ltac:(lia) eq_refl).
  destruct i as [|i].
  - injection Hi as ->. destruct Hfc as [f ->]. reflexivity.
  - destruct (fc_signal e0); [reflexivity|].
    rewrite (IH i Hi Hfc); [reflexivity|].
    intros j e' Hj He'. apply (Hnone (S j) e'); [lia|exact He'].
Qed.

Lemma step_score_bound (entries : list entry) :
  entries <> [] -> math_bound false entries ->
  step_score entries
  = Some (scored <$> entries, tier1 (scored <$> entries)).
Proof.
  intros Hne Hb. unfold step_score. rewrite (score_loop_bound _ _ Hb).
  destruct entries; [contradiction|reflexivity].
Qed.

Lemma step_score_unbound (entries : list entry) (i : nat) (e : entry) :
  entries !! i = Some e -> is_Some (fc_signal e) ->
  (forall (j : nat) e', (j <= i)%nat -> entries !! j = Some e' ->
                        tranco_rank e' = None) ->
  step_score entries = None.
Proof.
  intros Hi Hfc Hnone. unfold step_score.
  now rewrite (score_loop_unbound entries i e Hi Hfc Hnone).
Qed.

Lemma lookup_not_nil {A} (l : list A) (i : nat) (x : A) :
  l !! i = Some x -> l <> [].
Proof. intros H ->. discriminate. Qed.

(** C1.  The claim fails on the code by a slip: [math] is imported only
    in the branch for an entry with a rank, and used in the branch for an
    entry with fact-check claims.  An entry with claims and no rank, alone
    or before the first entry with a rank, stops [step_score] with an
    UnboundLocalError and no score is computed; the same entry after one
    with a rank is scored. *)
Theorem step_score_unbound_math :
  step_score [sample_entry Build.Fake (Some 3%Z)] = None
  /\ step_score [sample_entry Build.Fake (Some 3%Z); sample_ranked None]
     = None
  /\ step_score [sample_ranked None; sample_entry Build.Fake (Some 3%Z)]
     = Some (scored
               <$> [sample_ranked None; sample_entry Build.Fake (Some 3%Z)],
             tier1
               (scored
                  <$> [sample_ranked None;
                       sample_entry Build.Fake (Some 3%Z)])).
Proof.
  split; [|split].
  - apply (step_score_unbound _ 0 (sample_entry Build.Fake (Some 3%Z)));
      [reflexivity|eexists; reflexivity|].
    intros [|j] e' Hj He'; [|lia]. now injection He' as <-.
  - apply (step_score_unbound _ 0 (sample_entry Build.Fake (Some 3%Z)));
      [reflexivity|eexists; reflexivity|].
    intros [|j] e' Hj He'; [|lia]. now injection He' as <-.
  - apply step_score_bound; [discriminate|].
    intros i e Hi Hfc. right. exists 0%nat, (sample_ranked None).
    split; [lia|]. split; [reflexivity|]. eexists. reflexivity.
Qed.

(** C3, as amended.  When the loop gets through its entries, every flagged
    entry whose [iffy_score] is not NaN has a [credibility_score] of at
    most 0.05, whatever its category and its other signals are. *)
Theorem flagged_score_capped (entries : list entry) (i : nat) (e : entry) :
  entries !! i = Some e -> safe_browsing_flagged e = true ->
  iffy_score e <> Some NaN -> math_bound false entries ->
  exists out t e' s,
    step_score entries = Some (out, t)
    /\ out !! i = Some e'
    /\ credibility_score e' = Some s
    /\ fle s (Num (5 / 100)) = true.
Proof.
  intros Hi Hf Hnan Hb.
  exists (scored <$> entries), (tier1 (scored <$> entries)), (scored e),
    (fround (raw_score e) 3).
  split; [apply step_score_bound; [exact (lookup_not_nil _ _ _ Hi)|exact Hb]|].
  split; [now rewrite list_lookup_fmap, Hi|]. split; [reflexivity|].
  now apply flagged_score_le.
Qed.

Lemma flagged_score_capped_witness :
  exists out t e' s,
    step_score [sample_enriched] = Some (out, t)
    /\ out !! 0%nat = Some e'
    /\ credibility_score e' = Some s
    /\ fle s (Num (5 / 100)) = true.
Proof.
  apply (flagged_score_capped [sample_enriched] 0 sample_enriched).
  - reflexivity.
  - reflexivity.
  - discriminate.
  - intros i e Hi Hfc. right. exists 0%nat, sample_enriched.
    split; [lia|]. split; [reflexivity|]. eexists. reflexivity.
Defined.

(** C3 as stated fails for an [iffy_score] that is NaN: [min(score, 0.05)]
    keeps the NaN, and NaN is not at most 0.05. *)
Lemma nan_flagged_score_not_capped :
  exists out t e',
    step_score [sample_nan] = Some (out, t)
    /\ out !! 0%nat = Some e'
    /\ safe_browsing_flagged e' = true
    /\ credibility_score e' = Some NaN
    /\ fle NaN (Num (5 / 100)) = false.
Proof.
  exists [scored sample_nan], (tier1 [scored sample_nan]), (scored sample_nan).
  split.
  { apply (step_score_bound [sample_nan]); [discriminate|].
    intros [|i] e Hi [f Hfc]; [|discriminate].
    injection Hi as <-. discriminate. }
  split; [reflexivity|]. split; [reflexivity|]. split; [|reflexivity].
  cbn [scored set_score credibility_score].
  now rewrite (raw_score_pulls sample_nan).
Qed.

(** Turns [INR] of a literal into the real literal. *)
Ltac inr_numerals :=
  rewrite !INR_IZR_INZ;
  repeat match goal with
         | |- context [Z.of_nat ?n] =>
             let z := eval vm_compute in (Z.of_nat n) in
             change (Z.of_nat n) with z
         end.

Lemma log10_50_bounds : 169 / 100 <= log10 50 <= 1699 / 1000.
Proof.
  split.
  - replace (169 / 100) with (INR 169 / INR 100)
      by (inr_numerals; lra).
    apply (log10_ge_ratio 50 169 100); [lia|lia|].
    apply Z.leb_le. vm_compute. reflexivity.
  - replace (1699 / 1000) with (INR 1699 / INR 1000)
      by (inr_numerals; lra).
    apply (log10_le_ratio 50 1699 1000); [lia|lia|].
    apply Z.leb_le. vm_compute. reflexivity.
Qed.

Lemma log10_51_bound : 17 / 10 <= log10 51.
Proof.
  replace (17 / 10) with (INR 17 / INR 10)
    by (inr_numerals; lra).
  apply (log10_ge_ratio 51 17 10); [lia|lia|].
  apply Z.leb_le. vm_compute. reflexivity.
Qed.

Lemma fc_signal_of_1 : fc_signal_of 1 = 1.
Proof.
  unfold fc_signal_of. change (Z.max 1 1) with 1%Z. rewrite log10_1.
  rewrite Rmax_right; lra.
Qed.

Lemma fc_signal_of_50 : 0 < fc_signal_of 50 <= 1 / 100.
Proof.
  unfold fc_signal_of. change (Z.max 50 1) with 50%Z.
  pose proof log10_50_bounds as [Hlo Hhi].
  rewrite Rmax_right by lra. lra.
Qed.

Lemma fc_signal_of_51 (n : Z) : (51 <= n)%Z -> fc_signal_of n = 0.
Proof.
  intros H. unfold fc_signal_of. rewrite Z.max_l by lia.
  assert (Hl : 17 / 10 <= log10 (IZR n)).
  { etransitivity; [apply log10_51_bound|].
    apply log10_le; [lra|now apply IZR_le]. }
  rewrite Rmax_left; lra.
Qed.

Lemma fc_signal_present (e : entry) (n : Z) :
  factcheck_claims e = Some n -> (0 < n)%Z ->
  fc_signal e = Some (fc_signal_of n).
Proof.
  intros H Hn. unfold fc_signal. rewrite H.
  change (default 0%Z (Some n)) with n.
  apply Z.ltb_lt in Hn. now rewrite Hn.
Qed.

(** C9.  The code's signal for one fact-check claim is 1, not the 0.8 of
    the claim and of the comment beside the formula ("1 claim → 0.8"):
    [log10(1)] is 0.  The entry has a rank, so the loop reaches the
    signal; [score_components] records 1.0.  At the other end the formula
    does what the claim says: at most 0.01 for 50 claims, 0 for 51. *)
Theorem one_claim_signal_is_one :
  fc_signal_of 1 = 1
  /\ ~ to_one_decimal (fc_signal_of 1) (8 / 10)
  /\ 0 < fc_signal_of 50 <= 1 / 100
  /\ fc_signal_of 51 = 0
  /\ exists out t e' comp,
       step_score [sample_ranked (Some 1%Z)] = Some (out, t)
       /\ out !! 0%nat = Some e'
       /\ score_components e' = Some comp
       /\ comp_factcheck comp = Some 1.
Proof.
  split; [apply fc_signal_of_1|]. split; [|split; [|split]].
  - rewrite fc_signal_of_1. unfold to_one_decimal.
    rewrite Rabs_right; lra.
  - apply fc_signal_of_50.
  - apply fc_signal_of_51. lia.
  - exists [scored (sample_ranked (Some 1%Z))],
      (tier1 [scored (sample_ranked (Some 1%Z))]),
      (scored (sample_ranked (Some 1%Z))).
    eexists. split.
    { apply (step_score_bound [sample_ranked (Some 1%Z)]); [discriminate|].
      intros i e Hi Hfc. right. exists 0%nat, (sample_ranked (Some 1%Z)).
      split; [lia|]. split; [reflexivity|]. eexists. reflexivity. }
    split; [reflexivity|]. split; [reflexivity|].
    cbn [comp_factcheck].
    rewrite (fc_signal_present (sample_ranked (Some 1%Z)) 1 eq_refl) by lia.
    cbn [fmap option_fmap option_map]. rewrite fc_signal_of_1.
    unfold round2. f_equal.
    replace 1 with (IZR 100 / 10 ^ 2) by (cbn; lra). apply round_decimal.
Qed.

End Scoring.

(** ** The compact output *)

Section Compact.

Import Build.


End Compact.

(** ** Cached enrichment *)

Section WarmCache.

Import Enrich.

Variable World : Type.
Variable rdap_server : string -> World -> option (list (string * string)) * World.
Variable factcheck_server : string -> string -> World -> fc_response * World.
Variable fromisoformat : string -> option Z.

Lemma filter_all_cached {C} (key : entry -> string) (cache : gmap string C)
    (entries : list entry) :
  (forall e, e ∈ entries -> key e ∈ dom cache) ->
  filter (fun e => key e ∉ dom cache) entries = [].
Proof.
  intros H. induction entries as [|e entries IH]; [reflexivity|].
  rewrite filter_cons. destruct (decide (key e ∉ dom cache)) as [Hn|_].
  - exfalso. apply Hn, H, list_elem_of_here.
  - apply IH. intros e' He'. apply H. now apply list_elem_of_further.
Qed.

Lemma apply_limit_nil {A} (limit : Z) : apply_limit limit (@nil A) = [].
Proof. unfold apply_limit. destruct (0 <? limit)%Z; [apply take_nil|reflexivity]. Qed.

(** With every key in the cache file, a step only applies the cache. *)
Lemma step_rdap_warm (now : Z) (entries : list entry) (limit : Z)
    (file : option (gmap string rdap_result)) (w : World) :
  (forall e, e ∈ entries -> get_base_domain (domain e) ∈ dom (default ∅ file)) ->
  step_rdap World rdap_server fromisoformat now entries limit file w
  = (map (rdap_apply fromisoformat now (default ∅ file)) entries,
     load_cache file w).
Proof.
  intros H. unfold step_rdap. cbn [load_cache cache].
  rewrite (filter_all_cached (fun e => get_base_domain (domain e)) _
             entries H), apply_limit_nil.
  reflexivity.
Qed.

Lemma step_factcheck_warm (api_key : string) (entries : list entry)
    (limit : Z) (file : option (gmap string fc_result)) (w : World) :
  (forall e, e ∈ entries -> domain e ∈ dom (default ∅ file)) ->
  step_factcheck World factcheck_server api_key entries limit file w
  = (map (factcheck_apply (default ∅ file)) entries, load_cache file w).
Proof.
  intros H. unfold step_factcheck. cbn [load_cache cache].
  rewrite (filter_all_cached domain _ entries H), apply_limit_nil.
  reflexivity.
Qed.

(** What the RDAP step writes into an entry whose registration date is in
    the cache. *)
Lemma rdap_apply_registered (now : Z) (cache : gmap string rdap_result)
    (e : entry) (r : rdap_result) (reg : string) (t : Z) :
  cache !! get_base_domain (domain e) = Some r ->
  rdap_error r = false -> registered r = Some reg ->
  PyStr.is_empty reg = false -> fromisoformat reg = Some t ->
  rdap_apply fromisoformat now cache e
  = set_domain_age (PyNum.round (age_years now t) 1) reg e.
Proof.
  intros Hc He Hr Hn Ht. unfold rdap_apply. rewrite Hc.
  change (default rdap_empty (Some r)) with r.
  now rewrite He, Hr, Hn, Ht.
Qed.

(** The query loops only add keys to the cache, and add the key of every
    entry they are given. *)
Lemma rdap_query_step_dom (i : nat) (e : entry) (st : run rdap_result World) :
  dom (cache st) ⊆ dom (cache (rdap_query_step World rdap_server i e st))
  /\ get_base_domain (domain e)
     ∈ dom (cache (rdap_query_step World rdap_server i e st)).
Proof.
  unfold rdap_query_step. case_bool_decide as Hin; [split; [reflexivity|exact Hin]|].
  destruct (query_rdap _ _ _ _) as [result w'].
  destruct (_ =? 0)%nat; cbn [save_cache cache]; rewrite dom_insert_L;
    set_solver.
Qed.

Lemma rdap_query_loop_dom (to_query : list entry) (i : nat)
    (st : run rdap_result World) :
  dom (cache st) ⊆ dom (cache (rdap_query_loop World rdap_server i to_query st))
  /\ forall e, e ∈ to_query ->
       get_base_domain (domain e)
       ∈ dom (cache (rdap_query_loop World rdap_server i to_query st)).
Proof.
  revert i st. induction to_query as [|e0 rest IHloop]; intros i st; cbn.
  - split; [reflexivity|]. intros e He. inversion He.
  - destruct (rdap_query_step_dom i e0 st) as [Hsub Hin].
    destruct (IHloop (S i) (rdap_query_step World rdap_server i e0 st))
      as [Hsub' Hall].
    split; [etransitivity; eassumption|].
    intros e [-> | He]%elem_of_cons; [now apply Hsub'|auto].
Qed.

Lemma factcheck_query_step_dom (api_key : string) (i : nat) (e : entry)
    (st : run fc_result World) :
  dom (cache st)
  ⊆ dom (cache (factcheck_query_step World factcheck_server api_key i e st))
  /\ domain e
     ∈ dom (cache (factcheck_query_step World factcheck_server api_key i e st)).
Proof.
  unfold factcheck_query_step.
  case_bool_decide as Hin; [split; [reflexivity|exact Hin]|].
  destruct (query_factcheck _ _ _ _ _) as [result w1].
  destruct (is_rate_limit result);
    [destruct (query_factcheck _ _ _ _ _) as [again w2]|];
    destruct (_ =? 0)%nat; cbn [save_cache cache]; rewrite dom_insert_L;
    set_solver.
Qed.

Lemma factcheck_query_loop_dom (api_key : string) (to_query : list entry)
    (i : nat) (st : run fc_result World) :
  dom (cache st)
  ⊆ dom (cache (factcheck_query_loop World factcheck_server api_key i
                  to_query st))
  /\ forall e, e ∈ to_query ->
       domain e
       ∈ dom (cache (factcheck_query_loop World factcheck_server api_key i
                       to_query st)).
Proof.
  revert i st. induction to_query as [|e0 rest IHloop]; intros i st; cbn.
  - split; [reflexivity|]. intros e He. inversion He.
  - destruct (factcheck_query_step_dom api_key i e0 st) as [Hsub Hin].
    destruct (IHloop (S i)
                (factcheck_query_step World factcheck_server api_key i e0 st))
      as [Hsub' Hall].
    split; [etransitivity; eassumption|].
    intros e [-> | He]%elem_of_cons; [now apply Hsub'|auto].
Qed.

Lemma not_cached_in_filter {C} (key : entry -> string)
    (cache : gmap string C) (entries : list entry) (e : entry) :
  e ∈ entries -> key e ∉ dom cache ->
  e ∈ filter (fun e => key e ∉ dom cache) entries.
Proof. intros He Hn. apply list_elem_of_filter. auto. Qed.

(** A run without a limit returns what its cache gives, and leaves that
    cache, with the key of every entry, in the cache file. *)
Lemma step_factcheck_full (api_key : string) (entries : list entry)
    (file : option (gmap string fc_result)) (w : World) :
  let first :=
    step_factcheck World factcheck_server api_key entries 0 file w in
  first.1 = map (factcheck_apply (cache first.2)) entries
  /\ default ∅ (cache_file first.2) = cache first.2
  /\ forall e, e ∈ entries -> domain e ∈ dom (cache first.2).
Proof.
  cbv zeta. unfold step_factcheck, apply_limit.
  change (0 <? 0)%Z with false. cbv iota.
  set (st0 := load_cache file w).
  pose proof (not_cached_in_filter domain (cache st0) entries) as Hmiss.
  destruct (filter _ entries) as [|e0 rest]; cbn [fst snd].
  - split; [reflexivity|]. split; [reflexivity|].
    intros e He. destruct (decide (domain e ∈ dom (cache st0))) as [Hin|Hn];
      [exact Hin|].
    specialize (Hmiss e He Hn). inversion Hmiss.
  - split; [reflexivity|]. split; [reflexivity|].
    intros e He. cbn [save_cache cache].
    destruct (factcheck_query_loop_dom api_key (e0 :: rest) 0 st0)
      as [Hsub Hq].
    destruct (decide (domain e ∈ dom (cache st0))) as [Hin|Hn];
      [now apply Hsub|].
    apply Hq. now apply Hmiss.
Qed.

Lemma step_rdap_full (now : Z) (entries : list entry)
    (file : option (gmap string rdap_result)) (w : World) :
  let first :=
    step_rdap World rdap_server fromisoformat now entries 0 file w in
  first.1 = map (rdap_apply fromisoformat now (cache first.2)) entries
  /\ default ∅ (cache_file first.2) = cache first.2
  /\ forall e, e ∈ entries ->
       get_base_domain (domain e) ∈ dom (cache first.2).
Proof.
  cbv zeta. unfold step_rdap, apply_limit.
  change (0 <? 0)%Z with false. cbv iota.
  set (st0 := load_cache file w).
  pose proof (not_cached_in_filter (fun e => get_base_domain (domain e))
                (cache st0) entries) as Hmiss.
  destruct (filter _ entries) as [|e0 rest]; cbn [fst snd].
  - split; [reflexivity|]. split; [reflexivity|].
    intros e He.
    destruct (decide (get_base_domain (domain e) ∈ dom (cache st0)))
      as [Hin|Hn]; [exact Hin|].
    specialize (Hmiss e He Hn). inversion Hmiss.
  - split; [reflexivity|]. split; [reflexivity|].
    intros e He. cbn [save_cache cache].
    destruct (rdap_query_loop_dom (e0 :: rest) 0 st0) as [Hsub Hq].
    destruct (decide (get_base_domain (domain e) ∈ dom (cache st0)))
      as [Hin|Hn]; [now apply Hsub|].
    apply Hq. now apply Hmiss.
Qed.

(** After a run without a limit the next run, whatever its limit, sends
    no query and returns the same entries; for RDAP, when it is started at
    the same time. *)
Lemma step_factcheck_rerun (api_key : string) (entries : list entry)
    (limit : Z) (file : option (gmap string fc_result)) (w : World) :
  let first :=
    step_factcheck World factcheck_server api_key entries 0 file w in
  let second :=
    step_factcheck World factcheck_server api_key entries limit
      (cache_file first.2) (world first.2) in
  queries second.2 = [] /\ second.1 = first.1
  /\ cache_file second.2 = cache_file first.2.
Proof.
  cbv zeta.
  destruct (step_factcheck_full api_key entries file w) as (H1 & Hc & Hall).
  rewrite step_factcheck_warm by (now rewrite Hc).
  cbn [fst snd load_cache queries cache_file]. rewrite Hc, H1. auto.
Qed.

Lemma step_rdap_rerun (now : Z) (entries : list entry) (limit : Z)
    (file : option (gmap string rdap_result)) (w : World) :
  let first :=
    step_rdap World rdap_server fromisoformat now entries 0 file w in
  let second :=
    step_rdap World rdap_server fromisoformat now entries limit
      (cache_file first.2) (world first.2) in
  queries second.2 = [] /\ second.1 = first.1
  /\ cache_file second.2 = cache_file first.2.
Proof.
  cbv zeta.
  destruct (step_rdap_full now entries file w) as (H1 & Hc & Hall).
  rewrite step_rdap_warm by (now rewrite Hc).
  cbn [fst snd load_cache queries cache_file]. rewrite Hc, H1. auto.
Qed.

(** C7, as amended.  When the cache file of a step has the key of every
    entry, a run of the step sends no query, leaves the world and the
    cache file as they are, and returns entries that depend on the input
    entries and the cache only, and for the RDAP step on the time of the
    run: two such runs of the fact-check step return the same entries, two
    such runs of the RDAP step do when they are started at the same time.
    A run without a limit leaves such a cache file, so that the run after
    it sends no query and returns the same entries. *)
Theorem warm_cache_rerun (now : Z) (api_key : string) (entries : list entry)
    (limit1 limit2 : Z) (rdap_file : gmap string rdap_result)
    (fc_file : gmap string fc_result)
    (rdap_file0 : option (gmap string rdap_result))
    (fc_file0 : option (gmap string fc_result)) (w1 w2 : World) :
  ((forall e, e ∈ entries -> get_base_domain (domain e) ∈ dom rdap_file) ->
   let rdap1 :=
     step_rdap World rdap_server fromisoformat now entries limit1
       (Some rdap_file) w1 in
   let rdap2 :=
     step_rdap World rdap_server fromisoformat now entries limit2
       (Some rdap_file) w2 in
   queries rdap1.2 = [] /\ world rdap1.2 = w1
   /\ cache_file rdap1.2 = Some rdap_file /\ rdap1.1 = rdap2.1)
  /\ ((forall e, e ∈ entries -> domain e ∈ dom fc_file) ->
      let fc1 :=
        step_factcheck World factcheck_server api_key entries limit1
          (Some fc_file) w1 in
      let fc2 :=
        step_factcheck World factcheck_server api_key entries limit2
          (Some fc_file) w2 in
      queries fc1.2 = [] /\ world fc1.2 = w1
      /\ cache_file fc1.2 = Some fc_file /\ fc1.1 = fc2.1)
  /\ (let first :=
        step_rdap World rdap_server fromisoformat now entries 0 rdap_file0
          w1 in
      let second :=
        step_rdap World rdap_server fromisoformat now entries limit2
          (cache_file first.2) (world first.2) in
      queries second.2 = [] /\ second.1 = first.1)
  /\ (let first :=
        step_factcheck World factcheck_server api_key entries 0 fc_file0
          w1 in
      let second :=
        step_factcheck World factcheck_server api_key entries limit2
          (cache_file first.2) (world first.2) in
      queries second.2 = [] /\ second.1 = first.1).
Proof.
  split; [|split; [|split]].
  - intros Hr. cbv zeta. rewrite !step_rdap_warm by exact Hr. repeat split.
  - intros Hf. cbv zeta. rewrite !step_factcheck_warm by exact Hf.
    repeat split.
  - destruct (step_rdap_rerun now entries limit2 rdap_file0 w1)
      as (Hq & Hsame & _). split; assumption.
  - destruct (step_factcheck_rerun api_key entries limit2 fc_file0 w1)
      as (Hq & Hsame & _). split; assumption.
Qed.

End WarmCache.

Section Clock.

Import Enrich.
Local Open Scope R_scope.

Lemma age_years_days (d : Z) :
  age_years (days_after_epoch d) 0 = IZR d / (36525 / 100).
Proof.
  unfold age_years, days_after_epoch, day_us.
  replace (0 + d * 86400000000 - 0)%Z with (d * 86400000000)%Z by lia.
  now rewrite Z.div_mul by lia.
Qed.

Lemma sample_entry_cached (c : Build.Category) (claims : option Z) (e : entry) :
  e ∈ [sample_entry c claims] ->
  get_base_domain (domain e) ∈ dom sample_rdap_cache
  /\ domain e ∈ dom sample_fc_cache.
Proof.
  intros ->%list_elem_of_singleton.
  split; apply (bool_decide_unpack _); vm_compute; exact I.
Qed.

Lemma warm_cache_rerun_witness :
  queries
    (step_rdap unit quiet_rdap_server epoch_only (days_after_epoch 20000)
       [sample_entry Build.Unreliable None] 0 (Some sample_rdap_cache) tt).2
  = []
  /\ queries
       (step_factcheck unit quiet_factcheck_server "key"
          [sample_entry Build.Unreliable None] 0 (Some sample_fc_cache) tt).2
     = [].
Proof.
  pose proof (warm_cache_rerun unit quiet_rdap_server quiet_factcheck_server
                epoch_only (days_after_epoch 20000) "key"
                [sample_entry Build.Unreliable None] 0 0 sample_rdap_cache
                sample_fc_cache None None tt tt) as (Hr & Hf & _).
  split.
  - apply Hr. intros e He.
    apply (sample_entry_cached Build.Unreliable None e He).
  - apply Hf. intros e He.
    apply (sample_entry_cached Build.Unreliable None e He).
Defined.

(** C7 as stated fails for the RDAP step: with the same entries and the
    same cache file, a run 20000 days after the epoch and a run a year
    later give different ages (54.8 and 55.8 years). *)
Lemma rdap_rerun_depends_on_clock :
  ~ (forall (now1 now2 : Z) (entries : list entry)
       (file : gmap string rdap_result),
       (forall e, e ∈ entries -> get_base_domain (domain e) ∈ dom file) ->
       (step_rdap unit quiet_rdap_server epoch_only now1 entries 0
          (Some file) tt).1
       = (step_rdap unit quiet_rdap_server epoch_only now2 entries 0
            (Some file) tt).1).
Proof.
  intros H.
  specialize (H (days_after_epoch 20000) (days_after_epoch 20366)
                [sample_entry Build.Unreliable None] sample_rdap_cache
                (fun e He =>
                   proj1 (sample_entry_cached Build.Unreliable None e He))).
  rewrite !step_rdap_warm in H
    by (intros e He; apply (sample_entry_cached Build.Unreliable None e He)).
  cbn [fst map] in H. change (default ∅ (Some sample_rdap_cache))
    with sample_rdap_cache in H.
  rewrite !(rdap_apply_registered epoch_only _ sample_rdap_cache _
              {| rdap_error := false;
                 registered := Some "1970-01-01T00:00:00+00:00";
                 expires := None; updated := None |}
              "1970-01-01T00:00:00+00:00" 0) in H by reflexivity.
  injection H as H. rewrite !age_years_days in H.
  assert (H1 : PyNum.round (20000 / (36525 / 100)) 1 <= IZR 550 / 10 ^ 1)
    by (apply round_le; cbn; lra).
  assert (H2 : IZR 555 / 10 ^ 1 <= PyNum.round (20366 / (36525 / 100)) 1)
    by (apply round_ge; cbn; lra).
  rewrite H in H1. cbn in H1, H2. lra.
Qed.

End Clock.

(** * Further properties of the code *)

(** ** Spellings of a domain *)

Section Spellings.

Import PyStr.

Lemma lower_lower (s : string) : lower (lower s) = lower s.
Proof. apply lower_id, lower_all_lower. Qed.

Lemma all_chars_app (q : ascii -> bool) (s t : string) :
  all_chars q (s +:+ t) = all_chars q s && all_chars q t.
Proof.
  induction s as [|c s IH]; simpl; [reflexivity|].
  now rewrite IH, andb_assoc.
Qed.

Lemma last_char_app (s t : string) :
  t <> EmptyString -> last_char (s +:+ t) = last_char t.
Proof.
  intros Ht. induction s as [|c s IH]; simpl; [reflexivity|].
  destruct (s +:+ t) eqn:E; [|exact IH].
  destruct s, t; try contradiction; cbv in E; discriminate.
Qed.

(** A final character of the set goes, and with it nothing else when the
    character before it stays. *)
Lemma rstrip_app_char (p : ascii -> bool) (s : string) (c : ascii) :
  p c = true -> s <> EmptyString -> opt_rejects p (last_char s) = true ->
  rstrip p (s +:+ String c EmptyString) = s.
Proof.
  intros Hc. induction s as [|a s IH]; intros Hne Hl; [contradiction|].
  change (rstrip p (String a (s +:+ String c EmptyString)) = String a s).
  cbn [rstrip]. destruct s as [|b s'].
  - simpl. rewrite Hc. simpl in Hl. apply negb_true_iff in Hl. now rewrite Hl.
  - rewrite IH; [reflexivity|discriminate|exact Hl].
Qed.

Lemma normalized_parts (d : string) :
  Build.normalized d = true ->
  all_chars (fun c => negb (is_upper c)) d = true
  /\ opt_rejects (is_char ".") (last_char d) = true
  /\ opt_rejects is_space (first_char d) = true
  /\ opt_rejects is_space (last_char d) = true
  /\ opt_rejects (is_char "/") (last_char d) = true
  /\ startswith d "www." = false.
Proof.
  unfold Build.normalized, Build.residue_free. rewrite !andb_true_iff.
  intros [[Hlow Hdot] [[[Hfst Hlst] Hslash] Hwww]].
  apply negb_true_iff in Hwww. auto 10.
Qed.

(** X1.  Spellings of a domain in normal form: in upper or mixed case the
    input is normalized as its lower-case form is, and a domain in normal
    form that is not empty is what its spellings with a leading "www." and
    with a final "/" normalize to. *)
Theorem normalize_domain_spellings (x d : string) :
  Build.normalized d = true -> d <> EmptyString ->
  Build.normalize_domain (lower x) = Build.normalize_domain x
  /\ Build.normalize_domain ("www." +:+ d) = d
  /\ Build.normalize_domain (d +:+ "/") = d.
Proof.
  intros Hn Hne.
  destruct (normalized_parts d Hn) as (Hlow & Hdot & Hfst & Hlst & Hsl & Hw).
  split; [|split].
  - rewrite !normalize_domain_unfold. unfold Build.stripped.
    now rewrite lower_lower.
  - assert (Hs : Build.stripped ("www." +:+ d) = "www." +:+ d).
    { unfold Build.stripped, strip.
      rewrite (lower_id ("www." +:+ d))
        by (rewrite all_chars_app, Hlow; reflexivity).
      rewrite (lstrip_id is_space) by reflexivity.
      assert (Hlast : last_char ("www." +:+ d) = last_char d)
        by (apply last_char_app; exact Hne).
      rewrite (rstrip_id is_space ("www." +:+ d)),
        (rstrip_id (is_char "/") ("www." +:+ d)),
        (rstrip_id (is_char ".") ("www." +:+ d))
        by (rewrite Hlast; assumption).
      reflexivity. }
    rewrite normalize_domain_unfold, Hs.
    change ("www." +:+ d)
      with (String "w" (String "w" (String "w" (String "." d)))).
    assert (Hp : startswith
                   (String "w" (String "w" (String "w" (String "." d))))
                   "www." = true) by (unfold startswith; cbn; now destruct d).
    rewrite Hp. reflexivity.
  - assert (Hs : Build.stripped (d +:+ "/") = d).
    { unfold Build.stripped, strip.
      rewrite (lower_id (d +:+ "/"))
        by (rewrite all_chars_app, Hlow; reflexivity).
      rewrite (lstrip_id is_space)
        by (destruct d; [contradiction|exact Hfst]).
      rewrite (rstrip_id is_space)
        by (rewrite last_char_app by discriminate; reflexivity).
      rewrite rstrip_app_char by auto. now apply rstrip_id. }
    rewrite normalize_domain_unfold, Hs, Hw. reflexivity.
Qed.

Lemma normalize_domain_spellings_witness :
  Build.normalize_domain (lower "Example.COM")
  = Build.normalize_domain "Example.COM"
  /\ Build.normalize_domain ("www." +:+ "example.com") = "example.com"
  /\ Build.normalize_domain ("example.com" +:+ "/") = "example.com".
Proof.
  apply (normalize_domain_spellings "Example.COM" "example.com");
    [reflexivity|discriminate].
Defined.

(** The string [check_domain] tests for the "www." prefix. *)
Lemma lookup_key_unfold (x : string) :
  Usage.lookup_key x =
  let d := rstrip (is_char "/") (strip (lower x)) in
  if startswith d "www." then slice_from 4 d else d.
Proof. reflexivity. Qed.

Lemma lookup_key_fixed (d : string) :
  Build.normalized d = true -> Usage.lookup_key d = d.
Proof.
  intros Hn.
  destruct (normalized_parts d Hn) as (Hlow & Hdot & Hfst & Hlst & Hsl & Hw).
  rewrite lookup_key_unfold. cbv zeta. unfold strip.
  rewrite (lower_id d), (lstrip_id is_space d) by assumption.
  rewrite (rstrip_id is_space d Hlst), (rstrip_id (is_char "/") d Hsl), Hw.
  reflexivity.
Qed.

(** X2.  The consumer and the builder normalize alike every input that,
    lower-cased and stripped of white space and final slashes, does not
    end in a dot; a domain in normal form is its own lookup key. *)
Theorem lookup_key_agrees_without_trailing_dot (x d : string) :
  opt_rejects (is_char ".")
    (last_char (rstrip (is_char "/") (strip (lower x)))) = true ->
  Build.normalized d = true ->
  Usage.lookup_key x = Build.normalize_domain x
  /\ Usage.lookup_key d = d.
Proof.
  intros Hx Hn. split.
  - rewrite lookup_key_unfold, normalize_domain_unfold. unfold Build.stripped.
    cbv zeta. now rewrite (rstrip_id (is_char ".")) by exact Hx.
  - now apply lookup_key_fixed.
Qed.

Lemma lookup_key_agrees_without_trailing_dot_witness :
  Usage.lookup_key " WWW.Example.com// "
  = Build.normalize_domain " WWW.Example.com// "
  /\ Usage.lookup_key "example.com" = "example.com".
Proof.
  apply (lookup_key_agrees_without_trailing_dot " WWW.Example.com// "
           "example.com"); reflexivity.
Defined.

End Spellings.

(** ** The parsed maps *)

Section ParsedMaps.

Import Build.

Lemma parse_opensources_keyed (raw : list (string * os_info)) :
  parse_opensources raw
  = keyed_fold (fun item => normalize_domain (fst item))
      (fun d item => opensources_entry d (snd item)) raw ∅.
Proof. reflexivity. Qed.

Lemma parse_iffy_keyed py_float py_int (rows : list iffy_row) :
  parse_iffy py_float py_int rows
  = keyed_fold (fun row => normalize_domain (default "" (col_Domain row)))
      (fun d row => iffy_entry py_float py_int d row) rows ∅.
Proof. reflexivity. Qed.

Lemma keyed_fold_lookup {A} (key : A -> string) (val : string -> A -> entry)
    (l : list A) (acc : gmap string entry) (d : string) (e : entry) :
  keyed_fold key val l acc !! d = Some e ->
  acc !! d = Some e
  \/ exists x, x ∈ l /\ key x = d /\ PyStr.is_empty d = false /\ e = val d x.
Proof.
  unfold keyed_fold. revert acc.
  induction l as [|x l IHl]; intros acc H; [now left|].
  cbn [fold_left] in H. apply IHl in H as [H | (y & Hy & Hk & Hn & ->)].
  - cbv zeta in H. destruct (PyStr.is_empty (key x)) eqn:Hx; [now left|].
    rewrite lookup_insert in H. case_decide as Hd; [|now left].
    right. exists x. subst d. injection H as <-.
    split; [apply list_elem_of_here|auto].
  - right. exists y. split; [now apply list_elem_of_further|auto].
Qed.

Lemma keyed_fold_snoc {A} (key : A -> string) (val : string -> A -> entry)
    (l : list A) (x : A) (acc : gmap string entry) :
  keyed_fold key val (l ++ [x]) acc
  = if PyStr.is_empty (key x) then keyed_fold key val l acc
    else <[key x := val (key x) x]> (keyed_fold key val l acc).
Proof. unfold keyed_fold. now rewrite fold_left_app. Qed.

Lemma is_empty_false (s : string) :
  PyStr.is_empty s = false -> s <> EmptyString.
Proof. now destruct s. Qed.

Lemma parse_opensources_key (raw : list (string * os_info)) d e :
  parse_opensources raw !! d = Some e ->
  PyStr.is_empty d = false
  /\ exists item, normalize_domain (fst item) = d
                  /\ e = opensources_entry d (snd item).
Proof.
  rewrite parse_opensources_keyed. intros H.
  apply keyed_fold_lookup in H as [H | (x & _ & Hk & Hn & ->)];
    [rewrite lookup_empty in H; discriminate|]. eauto.
Qed.

Lemma parse_iffy_key py_float py_int (rows : list iffy_row) d e :
  parse_iffy py_float py_int rows !! d = Some e ->
  PyStr.is_empty d = false
  /\ exists row, normalize_domain (default "" (col_Domain row)) = d
                 /\ e = iffy_entry py_float py_int d row.
Proof.
  rewrite parse_iffy_keyed. intros H.
  apply keyed_fold_lookup in H as [H | (x & _ & Hk & Hn & ->)];
    [rewrite lookup_empty in H; discriminate|]. eauto.
Qed.

Lemma parse_opensources_keyed_map (raw : list (string * os_info)) :
  keyed (parse_opensources raw).
Proof. intros d e (_ & item & _ & ->)%parse_opensources_key. reflexivity. Qed.

Lemma parse_iffy_keyed_map py_float py_int (rows : list iffy_row) :
  keyed (parse_iffy py_float py_int rows).
Proof. intros d e (_ & row & _ & ->)%parse_iffy_key. reflexivity. Qed.

(** A key of either parsed map is in normal form once a pass of the
    normalizer would leave it as it is. *)
Lemma parsed_key_normalized py_float py_int (raw : list (string * os_info))
    (rows : list iffy_row) (d : string) :
  d ∈ dom (parse_opensources raw)
  \/ d ∈ dom (parse_iffy py_float py_int rows) ->
  residue_free d = true -> normalized d = true.
Proof.
  intros Hd Hres.
  assert (Hx : exists x, normalize_domain x = d).
  { destruct Hd as [Hd | Hd]; apply elem_of_dom in Hd as [v Hv].
    - apply parse_opensources_key in Hv as (_ & item & Hi & _). eauto.
    - apply parse_iffy_key in Hv as (_ & row & Hr & _). eauto. }
  destruct Hx as [x Hx]. destruct (normalize_domain_shape x) as [H1 H2].
  rewrite Hx in H1, H2. unfold normalized. now rewrite H1, H2, Hres.
Qed.

(** X3.  Every key of a parsed map is a result of [normalize_domain] that
    is not empty, so it has no upper-case character and no final dot; the
    entry under it carries the key as its domain, names its one source,
    and has the metadata of that source only. *)
Theorem parsed_map_keys py_float py_int (raw : list (string * os_info))
    (rows : list iffy_row) (d : string) (e : entry) :
  parse_opensources raw !! d = Some e
  \/ parse_iffy py_float py_int rows !! d = Some e ->
  domain e = d /\ d <> EmptyString
  /\ (exists x, normalize_domain x = d)
  /\ PyStr.all_chars (fun c => negb (PyStr.is_upper c)) d = true
  /\ PyStr.opt_rejects (PyStr.is_char ".") (PyStr.last_char d) = true
  /\ (parse_opensources raw !! d = Some e ->
      sources e = ["opensources"] /\ iffy e = None
      /\ is_Some (opensources_types e))
  /\ (parse_iffy py_float py_int rows !! d = Some e ->
      sources e = ["iffy"] /\ is_Some (iffy e)
      /\ opensources_types e = None /\ categories_all e = {[ category e ]}).
Proof.
  intros H.
  assert (Hkey : domain e = d /\ PyStr.is_empty d = false
                 /\ exists x, normalize_domain x = d).
  { destruct H as [H | H].
    - pose proof (parse_opensources_keyed_map raw d e H).
      apply parse_opensources_key in H as (Hn & item & Hi & _). eauto.
    - pose proof (parse_iffy_keyed_map py_float py_int rows d e H).
      apply parse_iffy_key in H as (Hn & row & Hr & _). eauto. }
  destruct Hkey as (Hd & Hn & x & Hx).
  split; [exact Hd|]. split; [now apply is_empty_false|].
  split; [now exists x|].
  destruct (normalize_domain_shape x) as [Hlow Hdot]. rewrite Hx in Hlow, Hdot.
  split; [exact Hlow|]. split; [exact Hdot|]. split.
  - intros (_ & item & _ & ->)%parse_opensources_key. cbn. eauto.
  - intros (_ & row & _ & ->)%parse_iffy_key. cbn. eauto.
Qed.

Lemma parsed_map_keys_witness :
  exists e,
    parse_opensources sample_raw !! "example.com" = Some e
    /\ domain e = "example.com" /\ sources e = ["opensources"].
Proof.
  eexists. split; [vm_compute; reflexivity|].
  assert (H : parse_opensources sample_raw !! "example.com"
              = Some (opensources_entry "example.com"
                        {| os_type := Some "fake"; os_type2 := Some "bias";
                           os_type3 := Some "" |}))
    by (vm_compute; reflexivity).
  destruct (parsed_map_keys no_float no_int sample_raw sample_rows
              "example.com" _ (or_introl H)) as (Hd & _ & _ & _ & _ & Ho & _).
  split; [reflexivity|]. apply (Ho H).
Defined.

(** X4.  An item whose domain normalizes to the empty string is dropped,
    and of two items with the same normalized domain the later one
    replaces the earlier one whole: their labels are not combined. *)
Theorem parse_opensources_later_item_wins (raw : list (string * os_info))
    (dom1 dom2 : string) (info1 info2 : os_info) :
  (normalize_domain dom1 = EmptyString ->
   parse_opensources (raw ++ [(dom1, info1)]) = parse_opensources raw)
  /\ (normalize_domain dom1 = normalize_domain dom2 ->
      parse_opensources (raw ++ [(dom1, info1); (dom2, info2)])
      = parse_opensources (raw ++ [(dom2, info2)])).
Proof.
  rewrite !parse_opensources_keyed. split.
  - intros H. rewrite keyed_fold_snoc. cbn [fst snd]. now rewrite H.
  - intros H.
    change [(dom1, info1); (dom2, info2)]
      with ([(dom1, info1)] ++ [(dom2, info2)])%list.
    rewrite app_assoc, !(keyed_fold_snoc _ _ _ (dom2, info2)).
    rewrite keyed_fold_snoc. cbn [fst snd]. rewrite H.
    destruct (PyStr.is_empty (normalize_domain dom2)); [reflexivity|].
    apply insert_insert_eq.
Qed.

Lemma parse_opensources_later_item_wins_witness :
  parse_opensources (sample_raw ++ [("  ", {| os_type := Some "fake";
                       os_type2 := None; os_type3 := None |})])
  = parse_opensources sample_raw
  /\ parse_opensources
       (sample_raw ++
        [("WWW.Dup.com", {| os_type := Some "fake"; os_type2 := None;
                            os_type3 := None |});
         ("dup.com/", {| os_type := Some "satire"; os_type2 := None;
                         os_type3 := None |})])
     = parse_opensources
         (sample_raw ++
          [("dup.com/", {| os_type := Some "satire"; os_type2 := None;
                           os_type3 := None |})]).
Proof.
  split.
  - apply (proj1 (parse_opensources_later_item_wins sample_raw "  " ""
                    {| os_type := Some "fake"; os_type2 := None;
                       os_type3 := None |}
                    {| os_type := None; os_type2 := None;
                       os_type3 := None |})).
    reflexivity.
  - apply (proj2 (parse_opensources_later_item_wins sample_raw
                    "WWW.Dup.com" "dup.com/"
                    {| os_type := Some "fake"; os_type2 := None;
                       os_type3 := None |}
                    {| os_type := Some "satire"; os_type2 := None;
                       os_type3 := None |})).
    reflexivity.
Defined.

End ParsedMaps.

(** ** The merged list *)

Section MergedList.

Import Build.

#[local] Instance str_le_total : Total str_le.
Proof.
  intros s1 s2. unfold str_le.
  destruct (String.leb_total s1 s2) as [H|H]; rewrite H; cbn; auto.
Qed.

Lemma sorted_perm (l : list string) : sorted l ≡ₚ l.
Proof. apply merge_sort_Permutation. Qed.

Lemma elem_of_merge_keys (a b : gmap string entry) (d : string) :
  d ∈ sorted (elements (dom a ∪ dom b)) <-> d ∈ dom a \/ d ∈ dom b.
Proof. rewrite sorted_perm, elem_of_elements. apply elem_of_union. Qed.

Lemma merge_at_domain (a b : gmap string entry) (d : string) :
  keyed a -> keyed b -> d ∈ dom a \/ d ∈ dom b ->
  domain <$> merge_at a b d = Some d.
Proof.
  intros Ha Hb Hd. unfold merge_at.
  destruct (a !! d) as [x|] eqn:Ea; destruct (b !! d) as [y|] eqn:Eb; cbn.
  - reflexivity.
  - now rewrite (Ha d x Ea).
  - now rewrite (Hb d y Eb).
  - destruct Hd as [Hd|Hd]; apply elem_of_dom in Hd as [? Hd]; congruence.
Qed.

Lemma omap_domains (f : string -> option entry) (l : list string) :
  (forall d, d ∈ l -> domain <$> f d = Some d) -> domain <$> omap f l = l.
Proof.
  induction l as [|d l IHl]; intros H; [reflexivity|]. cbn.
  pose proof (H d (list_elem_of_here _ _)) as Hd.
  destruct (f d) as [e|]; [|discriminate]. cbn in *.
  injection Hd as ->. f_equal. apply IHl.
  intros d' Hd'. apply H. now apply list_elem_of_further.
Qed.

Lemma merge_entries_domains (a b : gmap string entry) :
  keyed a -> keyed b ->
  domain <$> merge_entries a b = sorted (elements (dom a ∪ dom b)).
Proof.
  intros Ha Hb. unfold merge_entries. apply omap_domains.
  intros d Hd. apply merge_at_domain; auto. now apply elem_of_merge_keys.
Qed.

Lemma merged_parsed_NoDup py_float py_int (raw : list (string * os_info))
    (rows : list iffy_row) :
  NoDup (domain <$> merge_entries (parse_opensources raw)
                      (parse_iffy py_float py_int rows)).
Proof.
  rewrite (merge_entries_domains _ _ (parse_opensources_keyed_map raw)
             (parse_iffy_keyed_map py_float py_int rows)), sorted_perm.
  apply NoDup_elements.
Qed.

Lemma merged_parsed_domain py_float py_int (raw : list (string * os_info))
    (rows : list iffy_row) (e : entry) :
  e ∈ merge_entries (parse_opensources raw) (parse_iffy py_float py_int rows) ->
  domain e ∈ dom (parse_opensources raw)
  \/ domain e ∈ dom (parse_iffy py_float py_int rows).
Proof.
  intros He. apply elem_of_merge_keys.
  rewrite <- (merge_entries_domains _ _ (parse_opensources_keyed_map raw)
                (parse_iffy_keyed_map py_float py_int rows)).
  apply list_elem_of_fmap. now exists e.
Qed.

(** X5.  The merged list of two parsed maps has one record for every
    domain of either map and no other, no domain twice, and the records
    in the order of their domains. *)
Theorem merged_domains_sorted_unique py_float py_int
    (raw : list (string * os_info)) (rows : list iffy_row) :
  let merged :=
    merge_entries (parse_opensources raw) (parse_iffy py_float py_int rows) in
  (forall d, d ∈ (domain <$> merged)
             <-> d ∈ dom (parse_opensources raw)
                 \/ d ∈ dom (parse_iffy py_float py_int rows))
  /\ NoDup (domain <$> merged)
  /\ Sorted str_le (domain <$> merged)
  /\ length merged
     = size (dom (parse_opensources raw)
               ∪ dom (parse_iffy py_float py_int rows)).
Proof.
  cbv zeta.
  pose proof (merge_entries_domains _ _ (parse_opensources_keyed_map raw)
                (parse_iffy_keyed_map py_float py_int rows)) as Hdom.
  split; [|split; [|split]].
  - intros d. rewrite Hdom. apply elem_of_merge_keys.
  - now apply merged_parsed_NoDup.
  - rewrite Hdom. apply Sorted_merge_sort. apply _.
  - rewrite <- (length_fmap domain), Hdom, sorted_perm. reflexivity.
Qed.

Lemma merge_entries_elem (a b : gmap string entry) (d : string) (e : entry) :
  merge_at a b d = Some e -> e ∈ merge_entries a b.
Proof.
  intros H. apply list_elem_of_omap. exists d. split; [|exact H].
  apply elem_of_merge_keys. unfold merge_at in H.
  destruct (a !! d) eqn:Ea; [left; apply elem_of_dom; eauto|].
  right. apply elem_of_dom. eauto.
Qed.

(** X6.  For a domain both maps have, the merged list has one record with
    the more severe of the two categories, never milder than either, with
    the labels and metadata of both entries and both source names. *)
Theorem merge_overlap_worst_wins (a b : gmap string entry) (d : string)
    (x y : entry) :
  a !! d = Some x -> b !! d = Some y ->
  exists e,
    e ∈ merge_entries a b /\ domain e = d
    /\ (category e = category x \/ category e = category y)
    /\ severity (category e) <= severity (category x)
    /\ severity (category e) <= severity (category y)
    /\ categories_all e = categories_all x ∪ categories_all y
    /\ sources e = ["opensources"; "iffy"]
    /\ iffy e = iffy y /\ opensources_types e = opensources_types x.
Proof.
  intros Ha Hb. exists (merge_both d x y). split.
  - apply (merge_entries_elem a b d). unfold merge_at. now rewrite Ha, Hb.
  - destruct (pick_primary_pair (category x) (category y)) as (H1 & H2 & H3).
    cbn. auto 10.
Qed.

Lemma merge_overlap_worst_wins_witness :
  exists e,
    e ∈ merge_entries (parse_opensources sample_raw)
          (parse_iffy no_float no_int sample_rows)
    /\ domain e = "example.com" /\ category e = Fake
    /\ sources e = ["opensources"; "iffy"].
Proof.
  destruct (merge_overlap_worst_wins (parse_opensources sample_raw)
              (parse_iffy no_float no_int sample_rows) "example.com"
              (opensources_entry "example.com"
                 {| os_type := Some "fake"; os_type2 := Some "bias";
                    os_type3 := Some "" |})
              (iffy_entry no_float no_int "example.com"
                 {| col_Domain := Some "example.com";
                    col_MBFC_Fact := Some "MH"; col_MBFC_Bias := Some "R";
                    col_MBFC_cred := Some "L"; col_Score := None;
                    col_Site_Rank := None; col_Year_online := None;
                    col_Lang := Some "en"; col_Name := Some "Example" |}))
    as (e & He & Hd & _ & Hle & _ & _ & Hs & _).
  - vm_compute. reflexivity.
  - vm_compute. reflexivity.
  - exists e. split; [exact He|]. split; [exact Hd|]. split; [|exact Hs].
    apply severity_inj.
    change (severity (category (opensources_entry _ _))) with 0 in Hle.
    change (severity Fake) with 0. lia.
Defined.

End MergedList.

(** ** The compact dataset and its consumer *)

Section CompactDataset.

Import Build.
Local Open Scope R_scope.

(** X7.  An entry of a domain that only one of the two maps has is in the
    merged list as it is. *)
Theorem merge_one_sided_unchanged (a b : gmap string entry) (d : string)
    (x : entry) :
  (a !! d = Some x /\ b !! d = None) \/ (a !! d = None /\ b !! d = Some x) ->
  x ∈ merge_entries a b.
Proof.
  intros [[Ha Hb] | [Ha Hb]]; apply (merge_entries_elem a b d);
    unfold merge_at; now rewrite Ha, Hb.
Qed.

Lemma merge_one_sided_unchanged_witness :
  opensources_entry "satire.org"
    {| os_type := Some "satire"; os_type2 := None; os_type3 := None |}
  ∈ merge_entries (parse_opensources sample_raw)
      (parse_iffy no_float no_int sample_rows).
Proof.
  apply (merge_one_sided_unchanged _ _ "satire.org"). left.
  split; vm_compute; reflexivity.
Defined.

Lemma CREDIBILITY_SCORES_range (c : Category) : 0 <= CREDIBILITY_SCORES c <= 1.
Proof. destruct c; cbn; lra. Qed.

Lemma CREDIBILITY_SCORES_decimal (c : Category) :
  exists k : Z, CREDIBILITY_SCORES c = IZR k / 10 ^ 2.
Proof.
  destruct c; cbn;
    [exists 0%Z|exists 10%Z|exists 20%Z|exists 50%Z|exists 30%Z
    |exists 50%Z|exists 80%Z|exists 100%Z]; lra.
Qed.

(** Rounding a rounded number to the same digits changes nothing. *)
Lemma round_round (x : R) (n : nat) :
  PyNum.round (PyNum.round x n) n = PyNum.round x n.
Proof. unfold PyNum.round at 2. apply round_decimal. Qed.

(** X8.  The score [step_merge] writes for a merged entry is a number in
    [0,1] when the [iffy_score], if there is one, is in [0,1]; it is the
    category score itself when there is no [iffy_score], and NaN when the
    [iffy_score] is NaN. *)
Theorem step_merge_score_range (e : entry) :
  (forall s, iffy e ≫= iffy_score = Some s -> PyNum.in_unit s) ->
  (exists x, c_s (tier1_entry e) = PyNum.Num x /\ 0 <= x <= 1)
  /\ (iffy e ≫= iffy_score = None ->
      c_s (tier1_entry e) = PyNum.Num (CREDIBILITY_SCORES (category e)))
  /\ (forall e', iffy e' ≫= iffy_score = Some PyNum.NaN ->
                 c_s (tier1_entry e') = PyNum.NaN).
Proof.
  intros Hs. unfold tier1_entry. cbn [c_s].
  pose proof (CREDIBILITY_SCORES_range (category e)) as Hc.
  destruct (CREDIBILITY_SCORES_decimal (category e)) as [k Hk].
  split; [|split].
  - destruct (iffy e ≫= iffy_score) as [s|].
    + specialize (Hs s eq_refl). destruct s as [x| | |]; try contradiction.
      cbn [PyNum.in_unit] in Hs. cbn [PyNum.fmul PyNum.fadd PyNum.fround].
      eexists. split; [reflexivity|].
      apply round_unit_interval, round_unit_interval. lra.
    + cbn [PyNum.fround]. eexists. split; [reflexivity|].
      now apply round_unit_interval.
  - intros Hnone. rewrite Hnone. cbn [PyNum.fround].
    now rewrite Hk, round_decimal.
  - intros e' ->. reflexivity.
Qed.

Lemma step_merge_score_range_witness :
  exists x,
    c_s (tier1_entry (Enrich.merged Enrich.sample_enriched)) = PyNum.Num x
    /\ 0 <= x <= 1.
Proof.
  apply (step_merge_score_range (Enrich.merged Enrich.sample_enriched)).
  intros s [= <-]. cbn. lra.
Defined.

Lemma tier1_snoc (l : list entry) (e : entry) :
  tier1 (l ++ [e]) = <[domain e := tier1_entry e]> (tier1 l).
Proof. unfold tier1. now rewrite fold_left_app. Qed.

Lemma tier1_dom (l : list entry) : dom (tier1 l) = list_to_set (domain <$> l).
Proof.
  induction l as [|e l IHl] using rev_ind; [apply dom_empty_L|].
  rewrite tier1_snoc, dom_insert_L, IHl, fmap_app, list_to_set_app_L.
  cbn. rewrite (right_id_L ∅ (∪)). apply union_comm_L.
Qed.

Lemma tier1_lookup (l : list entry) (e : entry) :
  NoDup (domain <$> l) -> e ∈ l ->
  tier1 l !! domain e = Some (tier1_entry e).
Proof.
  induction l as [|x l IHl] using rev_ind; intros Hnd He; [inversion He|].
  rewrite tier1_snoc. rewrite fmap_app in Hnd.
  apply NoDup_app in Hnd as (Hnd & Hdis & _).
  apply elem_of_app in He as [He | ->%list_elem_of_singleton].
  - rewrite lookup_insert_ne; [auto|].
    intros Heq. apply (Hdis (domain e)).
    + apply list_elem_of_fmap. now exists e.
    + cbn. rewrite Heq. apply list_elem_of_here.
  - apply lookup_insert_eq.
Qed.

(** X9.  From the raw files to the consumer: the compact dataset
    [step_merge] writes has a record for the domains of the two parsed
    maps and for no other, and [check_domain] finds the record of a merged
    entry under its domain whenever a pass of the normalizer would leave
    the domain as it is. *)
Theorem step_merge_dataset_lookup py_float py_int
    (raw : list (string * os_info)) (rows : list iffy_row) (e : entry) :
  let merged :=
    merge_entries (parse_opensources raw) (parse_iffy py_float py_int rows) in
  e ∈ merged -> residue_free (domain e) = true ->
  Usage.check_domain (tier1 merged) (domain e) = Some (tier1_entry e)
  /\ forall d, d ∈ dom (tier1 merged)
               <-> d ∈ dom (parse_opensources raw)
                   \/ d ∈ dom (parse_iffy py_float py_int rows).
Proof.
  cbv zeta. intros He Hres. split.
  - unfold Usage.check_domain.
    rewrite lookup_key_fixed
      by (apply (parsed_key_normalized py_float py_int raw rows);
          [apply merged_parsed_domain; exact He|exact Hres]).
    apply tier1_lookup; [apply merged_parsed_NoDup|exact He].
  - intros d. rewrite tier1_dom, elem_of_list_to_set.
    rewrite (merge_entries_domains _ _ (parse_opensources_keyed_map raw)
               (parse_iffy_keyed_map py_float py_int rows)).
    apply elem_of_merge_keys.
Qed.

Lemma step_merge_dataset_lookup_witness :
  Usage.check_domain
    (tier1 (merge_entries (parse_opensources sample_raw)
              (parse_iffy no_float no_int sample_rows)))
    "satire.org"
  = Some (tier1_entry
            (opensources_entry "satire.org"
               {| os_type := Some "satire"; os_type2 := None;
                  os_type3 := None |})).
Proof.
  apply (step_merge_dataset_lookup no_float no_int sample_raw sample_rows
           (opensources_entry "satire.org"
              {| os_type := Some "satire"; os_type2 := None;
                 os_type3 := None |})).
  - apply (merge_entries_elem _ _ "satire.org"). vm_compute. reflexivity.
  - reflexivity.
Defined.

End CompactDataset.

(** ** Runs of the cached steps *)

Section CachedRuns.

Import Enrich.

Variable World : Type.
Variable rdap_server : string -> World -> option (list (string * string)) * World.
Variable factcheck_server : string -> string -> World -> fc_response * World.
Variable fromisoformat : string -> option Z.

Lemma apply_limit_length {A} (limit : Z) (l : list A) :
  length (apply_limit limit l) <= length l
  /\ ((0 < limit)%Z -> length (apply_limit limit l) <= Z.to_nat limit).
Proof.
  unfold apply_limit. destruct (0 <? limit)%Z eqn:E.
  - rewrite length_take. lia.
  - split; [lia|]. intros H%Z.ltb_lt. congruence.
Qed.

Lemma rdap_query_step_queries (i : nat) (e : entry) (st : run rdap_result World) :
  length (queries (rdap_query_step World rdap_server i e st))
  <= S (length (queries st)).
Proof.
  unfold rdap_query_step. case_bool_decide; [lia|].
  destruct (query_rdap _ _ _ _) as [result w'].
  destruct (_ =? 0)%nat; cbn; lia.
Qed.

Lemma rdap_query_loop_queries (to_query : list entry) (i : nat)
    (st : run rdap_result World) :
  length (queries (rdap_query_loop World rdap_server i to_query st))
  <= length (queries st) + length to_query.
Proof.
  revert i st. induction to_query as [|e rest IHq]; intros i st; cbn; [lia|].
  specialize (IHq (S i) (rdap_query_step World rdap_server i e st)).
  pose proof (rdap_query_step_queries i e st). lia.
Qed.

Lemma factcheck_query_step_queries (api_key : string) (i : nat) (e : entry)
    (st : run fc_result World) :
  length (queries (factcheck_query_step World factcheck_server api_key i e st))
  <= 2 + length (queries st).
Proof.
  unfold factcheck_query_step. case_bool_decide; [lia|].
  destruct (query_factcheck _ _ _ _ _) as [result w1].
  destruct (is_rate_limit result);
    [destruct (query_factcheck _ _ _ _ _) as [again w2]|];
    destruct (_ =? 0)%nat; cbn; lia.
Qed.

Lemma factcheck_query_loop_queries (api_key : string) (to_query : list entry)
    (i : nat) (st : run fc_result World) :
  length (queries (factcheck_query_loop World factcheck_server api_key i
                     to_query st))
  <= length (queries st) + 2 * length to_query.
Proof.
  revert i st. induction to_query as [|e rest IHq]; intros i st; cbn; [lia|].
  specialize (IHq (S i)
                (factcheck_query_step World factcheck_server api_key i e st)).
  pose proof (factcheck_query_step_queries api_key i e st). lia.
Qed.

(** X10.  The query cap: a run with a limit [K > 0] sends at most [K]
    RDAP queries, and at most [2 K] fact-check queries (a rate-limited
    query is sent once more); without a limit the bounds are the number of
    entries and twice that number. *)
Theorem query_cap (now : Z) (api_key : string) (entries : list entry)
    (limit : Z) (rdap_file : option (gmap string rdap_result))
    (fc_file : option (gmap string fc_result)) (w : World) :
  let rdap :=
    step_rdap World rdap_server fromisoformat now entries limit rdap_file w in
  let fc :=
    step_factcheck World factcheck_server api_key entries limit fc_file w in
  length (queries rdap.2) <= length entries
  /\ length (queries fc.2) <= 2 * length entries
  /\ ((0 < limit)%Z ->
      length (queries rdap.2) <= Z.to_nat limit
      /\ length (queries fc.2) <= 2 * Z.to_nat limit).
Proof.
  cbv zeta. unfold step_rdap, step_factcheck.
  set (qr := apply_limit limit (filter _ entries)).
  set (qf := apply_limit limit (filter _ entries)).
  assert (Hr : length (queries
                 match qr with
                 | [] => load_cache rdap_file w
                 | _ :: _ =>
                     save_cache (rdap_query_loop World rdap_server 0 qr
                                   (load_cache rdap_file w))
                 end) <= length qr).
  { destruct qr as [|e0 rest] eqn:E; [cbn; lia|]. cbn [save_cache queries].
    pose proof (rdap_query_loop_queries (e0 :: rest) 0
                  (load_cache rdap_file w)) as H. cbn in H |- *. lia. }
  assert (Hf : length (queries
                 match qf with
                 | [] => load_cache fc_file w
                 | _ :: _ =>
                     save_cache (factcheck_query_loop World factcheck_server
                                   api_key 0 qf (load_cache fc_file w))
                 end) <= 2 * length qf).
  { destruct qf as [|e0 rest] eqn:E; [cbn; lia|]. cbn [save_cache queries].
    pose proof (factcheck_query_loop_queries api_key (e0 :: rest) 0
                  (load_cache fc_file w)) as H. cbn in H |- *. lia. }
  cbn [snd].
  pose proof (apply_limit_length limit
                (filter (fun e => get_base_domain (domain e)
                                  ∉ dom (cache (load_cache rdap_file w)))
                   entries)) as [Hr1 Hr2].
  pose proof (apply_limit_length limit
                (filter (fun e => domain e
                                  ∉ dom (cache (load_cache fc_file w)))
                   entries)) as [Hf1 Hf2].
  pose proof (length_filter
                (fun e => get_base_domain (domain e)
                          ∉ dom (cache (load_cache rdap_file w))) entries).
  pose proof (length_filter
                (fun e => domain e ∉ dom (cache (load_cache fc_file w)))
                entries).
  fold qr in Hr1, Hr2. fold qf in Hf1, Hf2.
  split; [lia|]. split; [lia|]. intros Hl.
  specialize (Hr2 Hl). specialize (Hf2 Hl). lia.
Qed.

(** The query loops keep what is in the cache. *)
Lemma rdap_query_step_keeps (i : nat) (e : entry) (st : run rdap_result World) :
  cache st ⊆ cache (rdap_query_step World rdap_server i e st).
Proof.
  unfold rdap_query_step. case_bool_decide as Hin; [reflexivity|].
  destruct (query_rdap _ _ _ _) as [result w'].
  apply not_elem_of_dom in Hin.
  destruct (_ =? 0)%nat; cbn [save_cache cache]; now apply insert_subseteq.
Qed.

Lemma rdap_query_loop_keeps (to_query : list entry) (i : nat)
    (st : run rdap_result World) :
  cache st ⊆ cache (rdap_query_loop World rdap_server i to_query st).
Proof.
  revert i st. induction to_query as [|e rest IHq]; intros i st; cbn;
    [reflexivity|].
  etransitivity; [apply (rdap_query_step_keeps i e)|apply IHq].
Qed.

Lemma factcheck_query_step_keeps (api_key : string) (i : nat) (e : entry)
    (st : run fc_result World) :
  cache st
  ⊆ cache (factcheck_query_step World factcheck_server api_key i e st).
Proof.
  unfold factcheck_query_step. case_bool_decide as Hin; [reflexivity|].
  destruct (query_factcheck _ _ _ _ _) as [result w1].
  apply not_elem_of_dom in Hin.
  destruct (is_rate_limit result);
    [destruct (query_factcheck _ _ _ _ _) as [again w2]|];
    destruct (_ =? 0)%nat; cbn [save_cache cache]; now apply insert_subseteq.
Qed.

Lemma factcheck_query_loop_keeps (api_key : string) (to_query : list entry)
    (i : nat) (st : run fc_result World) :
  cache st
  ⊆ cache (factcheck_query_loop World factcheck_server api_key i to_query st).
Proof.
  revert i st. induction to_query as [|e rest IHq]; intros i st; cbn;
    [reflexivity|].
  etransitivity; [apply (factcheck_query_step_keeps api_key i e)|apply IHq].
Qed.

(** X11.  A run never changes or drops a result of the cache file: every
    result that was in the file is in the cache and in the file after the
    run, under the same key. *)
Theorem cached_results_kept (now : Z) (api_key : string)
    (entries : list entry) (limit : Z)
    (rdap_file : gmap string rdap_result) (fc_file : gmap string fc_result)
    (w : World) (k : string) :
  let rdap :=
    step_rdap World rdap_server fromisoformat now entries limit
      (Some rdap_file) w in
  let fc :=
    step_factcheck World factcheck_server api_key entries limit
      (Some fc_file) w in
  (forall v, rdap_file !! k = Some v ->
             cache rdap.2 !! k = Some v
             /\ default ∅ (cache_file rdap.2) !! k = Some v)
  /\ (forall v, fc_file !! k = Some v ->
                cache fc.2 !! k = Some v
                /\ default ∅ (cache_file fc.2) !! k = Some v).
Proof.
  cbv zeta. unfold step_rdap, step_factcheck. cbn [snd]. split; intros v Hv.
  - destruct (apply_limit limit _) as [|e0 rest]; [now split|].
    cbn [save_cache cache cache_file].
    change (default ∅ (Some ?c)) with c.
    pose proof (rdap_query_loop_keeps (e0 :: rest) 0
                  (load_cache (Some rdap_file) w)) as Hsub.
    split; apply (lookup_weaken _ _ _ _ Hv Hsub).
  - destruct (apply_limit limit _) as [|e0 rest]; [now split|].
    cbn [save_cache cache cache_file].
    change (default ∅ (Some ?c)) with c.
    pose proof (factcheck_query_loop_keeps api_key (e0 :: rest) 0
                  (load_cache (Some fc_file) w)) as Hsub.
    split; apply (lookup_weaken _ _ _ _ Hv Hsub).
Qed.

(** The keys an RDAP run sends are new and all different. *)
Lemma rdap_query_step_fresh (i : nat) (e : entry) (st : run rdap_result World) :
  NoDup (queries st) ->
  (forall k, k ∈ queries st -> k ∈ dom (cache st)) ->
  let st' := rdap_query_step World rdap_server i e st in
  NoDup (queries st')
  /\ (forall k, k ∈ queries st' -> k ∈ dom (cache st'))
  /\ (forall k, k ∈ queries st' -> k ∈ queries st \/ k ∉ dom (cache st)).
Proof.
  intros Hnd Hin. cbv zeta. unfold rdap_query_step.
  case_bool_decide as Hc; [auto|].
  destruct (query_rdap _ _ _ _) as [result w'].
  assert (Hgoal :
    NoDup (get_base_domain (domain e) :: queries st)
    /\ (forall k, k ∈ get_base_domain (domain e) :: queries st ->
                  k ∈ dom (<[get_base_domain (domain e)
                             := default rdap_error_marker result]> (cache st)))
    /\ (forall k, k ∈ get_base_domain (domain e) :: queries st ->
                  k ∈ queries st \/ k ∉ dom (cache st))).
  { split; [|split].
    - apply NoDup_cons. split; [|exact Hnd]. intros Hq. apply Hc, Hin, Hq.
    - intros k [-> | Hk]%elem_of_cons; rewrite dom_insert_L.
      + apply elem_of_union_l. now apply elem_of_singleton.
      + apply elem_of_union_r. auto.
    - intros k [-> | Hk]%elem_of_cons; auto. }
  destruct (_ =? 0)%nat; exact Hgoal.
Qed.

Lemma rdap_query_loop_fresh (to_query : list entry) (i : nat)
    (st : run rdap_result World) :
  NoDup (queries st) ->
  (forall k, k ∈ queries st -> k ∈ dom (cache st)) ->
  let st' := rdap_query_loop World rdap_server i to_query st in
  NoDup (queries st')
  /\ (forall k, k ∈ queries st' -> k ∈ dom (cache st'))
  /\ (forall k, k ∈ queries st' -> k ∈ queries st \/ k ∉ dom (cache st)).
Proof.
  revert i st. induction to_query as [|e rest IHq]; intros i st Hnd Hin;
    cbn; [auto|].
  destruct (rdap_query_step_fresh i e st Hnd Hin) as (Hnd1 & Hin1 & Hnew1).
  destruct (IHq (S i) _ Hnd1 Hin1) as (Hnd2 & Hin2 & Hnew2).
  split; [exact Hnd2|]. split; [exact Hin2|].
  intros k Hk. destruct (Hnew2 k Hk) as [Hq | Hn]; [now apply Hnew1|].
  right. intros Hd. apply Hn.
  pose proof (rdap_query_step_keeps i e st) as Hsub.
  apply elem_of_dom in Hd as [v Hv]. apply elem_of_dom. exists v.
  apply (lookup_weaken _ _ _ _ Hv Hsub).
Qed.

(** X12.  In a run of the RDAP step no registrable domain is queried
    twice, none is queried that has a result in the cache file (an error
    marker is a result), and every queried one has a result in the cache
    afterwards. *)
Theorem rdap_queries_fresh (now : Z) (entries : list entry) (limit : Z)
    (file : option (gmap string rdap_result)) (w : World) :
  let st :=
    (step_rdap World rdap_server fromisoformat now entries limit file w).2 in
  NoDup (queries st)
  /\ (forall k, k ∈ queries st ->
        (k ∉ dom (default ∅ file)) /\ k ∈ dom (cache st)).
Proof.
  cbv zeta. unfold step_rdap. cbn [snd].
  destruct (apply_limit limit _) as [|e0 rest].
  - split; [apply NoDup_nil_2|]. intros k Hk. inversion Hk.
  - cbn [save_cache queries cache].
    destruct (rdap_query_loop_fresh (e0 :: rest) 0 (load_cache file w))
      as (Hnd & Hin & Hnew).
    + apply NoDup_nil_2.
    + intros k Hk. inversion Hk.
    + split; [exact Hnd|]. intros k Hk. split; [|now apply Hin].
      destruct (Hnew k Hk) as [Hq | Hn]; [inversion Hq|exact Hn].
Qed.

(** One turn of a query loop that adds a result under a new key and saves
    the cache every [B] turns. *)
Lemma flush_turn {C} (B i : nat) (key : string) (r : C) (st st' : run C World) :
  B <> 0 -> key ∉ dom (cache st) ->
  cache st' = <[key := r]> (cache st) ->
  cache_file st'
  = (if ((i + 1) mod B =? 0)%nat then Some (cache st') else cache_file st) ->
  default ∅ (cache_file st) ⊆ cache st -> unflushed st <= i mod B ->
  default ∅ (cache_file st') ⊆ cache st'
  /\ unflushed st' <= S i mod B
  /\ size (cache st') = S (size (cache st))
  /\ dom (cache st') = {[ key ]} ∪ dom (cache st).
Proof.
  intros HB Hkey Hc Hf Hsub Hun. apply not_elem_of_dom in Hkey.
  assert (Hsize : size (cache st') = S (size (cache st)))
    by (rewrite Hc; now apply map_size_insert_None).
  assert (Hdom : dom (cache st') = {[ key ]} ∪ dom (cache st))
    by (rewrite Hc; apply dom_insert_L).
  unfold unflushed in *. rewrite Hf. replace (i + 1) with (S i) by lia.
  destruct (S i mod B =? 0)%nat eqn:E.
  - change (default ∅ (Some (cache st'))) with (cache st').
    split; [reflexivity|]. split; [lia|auto].
  - apply Nat.eqb_neq in E.
    assert (Hmod : S i mod B = S (i mod B)).
    { pose proof (Nat.div_mod_eq i B) as Hi.
      pose proof (Nat.mod_upper_bound i B HB) as Hlt.
      destruct (decide (S (i mod B) < B)) as [Hs | Hs].
      - symmetry. apply (Nat.mod_unique (S i) B (i / B)); lia.
      - exfalso. apply E.
        replace (S i) with (S (i / B) * B)
          by (rewrite Nat.mul_succ_l, (Nat.mul_comm (i / B) B); lia).
        apply Nat.Div0.mod_mul. }
    pose proof (map_subseteq_size _ _ Hsub) as Hle.
    split; [|split; [lia|auto]].
    etransitivity; [exact Hsub|]. rewrite Hc. now apply insert_subseteq.
Qed.

Lemma factcheck_query_step_flush (api_key : string) (i : nat) (e : entry)
    (st : run fc_result World) :
  domain e ∉ dom (cache st) ->
  default ∅ (cache_file st) ⊆ cache st -> unflushed st <= i mod 200 ->
  let st' := factcheck_query_step World factcheck_server api_key i e st in
  default ∅ (cache_file st') ⊆ cache st'
  /\ unflushed st' <= S i mod 200
  /\ size (cache st') = S (size (cache st))
  /\ dom (cache st') = {[ domain e ]} ∪ dom (cache st).
Proof.
  intros Hkey Hsub Hun. cbv zeta. unfold factcheck_query_step.
  rewrite bool_decide_eq_false_2 by exact Hkey.
  destruct (query_factcheck _ _ _ _ _) as [result w1].
  destruct (is_rate_limit result);
    [destruct (query_factcheck _ _ _ _ _) as [again w2]|];
    (eapply flush_turn; [lia|exact Hkey| | |exact Hsub|exact Hun];
     [destruct (_ =? 0)%nat; reflexivity
     |destruct (_ =? 0)%nat; reflexivity]).
Qed.

Lemma rdap_query_step_flush (i : nat) (e : entry) (st : run rdap_result World) :
  get_base_domain (domain e) ∉ dom (cache st) ->
  default ∅ (cache_file st) ⊆ cache st -> unflushed st <= i mod 100 ->
  let st' := rdap_query_step World rdap_server i e st in
  default ∅ (cache_file st') ⊆ cache st'
  /\ unflushed st' <= S i mod 100
  /\ size (cache st') = S (size (cache st))
  /\ dom (cache st') = {[ get_base_domain (domain e) ]} ∪ dom (cache st).
Proof.
  intros Hkey Hsub Hun. cbv zeta. unfold rdap_query_step.
  rewrite bool_decide_eq_false_2 by exact Hkey.
  destruct (query_rdap _ _ _ _) as [result w'].
  eapply flush_turn; [lia|exact Hkey| | |exact Hsub|exact Hun];
    [destruct (_ =? 0)%nat; reflexivity
    |destruct (_ =? 0)%nat; reflexivity].
Qed.

Lemma factcheck_query_loop_flush (api_key : string) (l : list entry) (i : nat)
    (st : run fc_result World) :
  NoDup (domain <$> l) ->
  (forall e, e ∈ l -> domain e ∉ dom (cache st)) ->
  default ∅ (cache_file st) ⊆ cache st -> unflushed st <= i mod 200 ->
  let st' := factcheck_query_loop World factcheck_server api_key i l st in
  default ∅ (cache_file st') ⊆ cache st'
  /\ unflushed st' <= (i + length l) mod 200
  /\ size (cache st') = size (cache st) + length l.
Proof.
  revert i st. induction l as [|e l IHq]; intros i st Hnd Hnew Hsub Hun;
    cbn [factcheck_query_loop length].
  - rewrite !Nat.add_0_r. auto.
  - cbn in Hnd. apply NoDup_cons in Hnd as [Hne Hnd].
    destruct (factcheck_query_step_flush api_key i e st)
      as (Hsub1 & Hun1 & Hsz1 & Hdom1); auto using list_elem_of_here.
    destruct (IHq (S i)
                (factcheck_query_step World factcheck_server api_key i e st))
      as (Hsub2 & Hun2 & Hsz2); auto.
    + intros e' He'. rewrite Hdom1.
      intros [Heq%elem_of_singleton | Hd]%elem_of_union.
      * apply Hne. apply list_elem_of_fmap. exists e'. auto.
      * apply (Hnew e'); [now apply list_elem_of_further|exact Hd].
    + cbv zeta. replace (i + S (length l)) with (S i + length l) by lia.
      split; [exact Hsub2|]. split; [exact Hun2|lia].
Qed.

Lemma rdap_query_loop_flush (l : list entry) (i : nat)
    (st : run rdap_result World) :
  NoDup ((fun e => get_base_domain (domain e)) <$> l) ->
  (forall e, e ∈ l -> get_base_domain (domain e) ∉ dom (cache st)) ->
  default ∅ (cache_file st) ⊆ cache st -> unflushed st <= i mod 100 ->
  let st' := rdap_query_loop World rdap_server i l st in
  default ∅ (cache_file st') ⊆ cache st'
  /\ unflushed st' <= (i + length l) mod 100
  /\ size (cache st') = size (cache st) + length l.
Proof.
  revert i st. induction l as [|e l IHq]; intros i st Hnd Hnew Hsub Hun;
    cbn [rdap_query_loop length].
  - rewrite !Nat.add_0_r. auto.
  - cbn in Hnd. apply NoDup_cons in Hnd as [Hne Hnd].
    destruct (rdap_query_step_flush i e st)
      as (Hsub1 & Hun1 & Hsz1 & Hdom1); auto using list_elem_of_here.
    destruct (IHq (S i) (rdap_query_step World rdap_server i e st))
      as (Hsub2 & Hun2 & Hsz2); auto.
    + intros e' He'. rewrite Hdom1.
      intros [Heq%elem_of_singleton | Hd]%elem_of_union.
      * apply Hne. apply list_elem_of_fmap. exists e'. auto.
      * apply (Hnew e'); [now apply list_elem_of_further|exact Hd].
    + cbv zeta. replace (i + S (length l)) with (S i + length l) by lia.
      split; [exact Hsub2|]. split; [exact Hun2|lia].
Qed.

(** X13.  The periodic save bounds what a crash can lose.  When the query
    loop of a step has gone through [n] entries whose keys are all
    different and not in the cache, the cache has [n] results more, the
    cache file has all of them but the last [n mod 200] (fact-check) or
    [n mod 100] (RDAP), and whatever is in the file is in the cache. *)
Theorem periodic_save_bounds_loss (api_key : string) (done : list entry)
    (rdap_file : option (gmap string rdap_result))
    (fc_file : option (gmap string fc_result)) (w : World) :
  (NoDup ((fun e => get_base_domain (domain e)) <$> done) ->
   (forall e, e ∈ done ->
              get_base_domain (domain e) ∉ dom (default ∅ rdap_file)) ->
   let st :=
     rdap_query_loop World rdap_server 0 done (load_cache rdap_file w) in
   default ∅ (cache_file st) ⊆ cache st
   /\ unflushed st <= length done mod 100
   /\ size (cache st) = size (default ∅ rdap_file) + length done)
  /\ (NoDup (domain <$> done) ->
      (forall e, e ∈ done -> domain e ∉ dom (default ∅ fc_file)) ->
      let st :=
        factcheck_query_loop World factcheck_server api_key 0 done
          (load_cache fc_file w) in
      default ∅ (cache_file st) ⊆ cache st
      /\ unflushed st <= length done mod 200
      /\ size (cache st) = size (default ∅ fc_file) + length done).
Proof.
  split; intros Hnd Hnew.
  - apply (rdap_query_loop_flush done 0 (load_cache rdap_file w) Hnd Hnew).
    + reflexivity.
    + unfold unflushed. cbn. lia.
  - apply (factcheck_query_loop_flush api_key done 0 (load_cache fc_file w)
             Hnd Hnew).
    + reflexivity.
    + unfold unflushed. cbn. lia.
Qed.

Lemma rdap_apply_adds_age_only (now : Z) (c : gmap string rdap_result)
    (e : entry) :
  adds_age_only e (rdap_apply fromisoformat now c e).
Proof.
  assert (Hrefl : adds_age_only e e) by (repeat split; auto).
  unfold rdap_apply.
  destruct (rdap_error _); [exact Hrefl|].
  destruct (registered _) as [reg|]; [|exact Hrefl].
  destruct (PyStr.is_empty reg); [exact Hrefl|].
  destruct (fromisoformat reg); [|exact Hrefl].
  repeat split; cbn; eauto.
Qed.

Lemma factcheck_apply_adds_claims_only (c : gmap string fc_result) (e : entry) :
  adds_claims_only e (factcheck_apply c e).
Proof.
  unfold factcheck_apply.
  destruct (0 <? _)%Z eqn:E.
  - apply Z.ltb_lt in E. repeat split; cbn; eauto.
  - repeat split; auto.
Qed.

(** X14.  The two steps only add.  Given at least one entry (with none,
    the RDAP step stops at the percentage of its summary line), they return
    as many entries as they are given, in the same order, each with the
    keys of the merged entry and every other attribute as before; the RDAP
    step may add or replace the age and the registration date and never
    removes them, the fact-check step may add or replace the number of
    claims, by a positive number only. *)
Theorem steps_only_add (now : Z) (api_key : string) (entries : list entry)
    (limit : Z) (rdap_file : option (gmap string rdap_result))
    (fc_file : option (gmap string fc_result)) (w : World) :
  entries <> [] ->
  Forall2 adds_age_only entries
    (step_rdap World rdap_server fromisoformat now entries limit rdap_file w).1
  /\ Forall2 adds_claims_only entries
       (step_factcheck World factcheck_server api_key entries limit fc_file
          w).1.
Proof.
  intros _. unfold step_rdap, step_factcheck. cbn [fst]. split.
  - apply Forall2_fmap_r, Forall_Forall2_diag, Forall_forall.
    intros e _. apply rdap_apply_adds_age_only.
  - apply Forall2_fmap_r, Forall_Forall2_diag, Forall_forall.
    intros e _. apply factcheck_apply_adds_claims_only.
Qed.

End CachedRuns.

Section CachedRunsExamples.

Import Enrich.

Lemma query_cap_witness :
  length
    (queries
       (step_rdap unit quiet_rdap_server epoch_only 0
          [sample_entry Build.Fake None; sample_enriched] 1 None tt).2)
  <= 1.
Proof.
  pose proof (query_cap unit quiet_rdap_server quiet_factcheck_server
                epoch_only 0 "key"
                [sample_entry Build.Fake None; sample_enriched] 1 None None
                tt) as (_ & _ & H).
  apply H. lia.
Defined.

Lemma cached_results_kept_witness :
  cache
    (snd (step_rdap unit quiet_rdap_server epoch_only 0
            [sample_entry Build.Fake None] 0 (Some sample_rdap_cache) tt))
  !! "example.com"
  = Some {| rdap_error := false;
            registered := Some "1970-01-01T00:00:00+00:00";
            expires := None; updated := None |}.
Proof.
  apply (cached_results_kept unit quiet_rdap_server quiet_factcheck_server
           epoch_only 0 "key" [sample_entry Build.Fake None] 0
           sample_rdap_cache sample_fc_cache tt "example.com").
  reflexivity.
Defined.

Lemma periodic_save_bounds_loss_witness :
  unflushed
    (rdap_query_loop unit quiet_rdap_server 0 [sample_entry Build.Fake None]
       (load_cache None tt))
  <= 1 mod 100.
Proof.
  apply (proj1 (periodic_save_bounds_loss unit quiet_rdap_server
                  quiet_factcheck_server "key"
                  [sample_entry Build.Fake None] None None tt)).
  - apply NoDup_singleton.
  - intros e _. cbn. rewrite dom_empty_L. apply not_elem_of_empty.
Defined.

Lemma steps_only_add_witness :
  Forall2 adds_age_only [sample_enriched]
    (step_rdap unit quiet_rdap_server epoch_only 0 [sample_enriched] 0 None
       tt).1
  /\ Forall2 adds_claims_only [sample_enriched]
       (step_factcheck unit quiet_factcheck_server "key" [sample_enriched] 0
          None tt).1.
Proof.
  apply (steps_only_add unit quiet_rdap_server quiet_factcheck_server
           epoch_only 0 "key" [sample_enriched] 0 None None tt).
  discriminate.
Defined.

End CachedRunsExamples.

(** ** How the signals move the score *)

Section ScoreShape.

Import PyNum Enrich.
Local Open Scope R_scope.

Lemma log10_Zmax_le (n m : Z) :
  (n <= m)%Z -> log10 (IZR (Z.max n 1)) <= log10 (IZR (Z.max m 1)).
Proof.
  intros H. apply log10_le.
  - apply IZR_lt. lia.
  - apply IZR_le. lia.
Qed.

Lemma log10_million : log10 1000000 = 6.
Proof.
  unfold log10. change 1000000 with (IZR (10 ^ Z.of_nat 6)).
  rewrite <- pow_IZR, ln_pow by lra. pose proof ln10_pos.
  replace (INR 6) with 6 by (rewrite INR_IZR_INZ; reflexivity). field. lra.
Qed.

Lemma fc_signal_of_antitone (n m : Z) :
  (n <= m)%Z -> fc_signal_of m <= fc_signal_of n.
Proof.
  intros H. unfold fc_signal_of. pose proof (log10_Zmax_le n m H).
  apply Rle_max_compat_l. lra.
Qed.

(** X15.  The three signal transforms go the way the comments say: a
    worse (larger) rank or more claims never give a larger signal, more
    years never give a smaller one; the rank signal is 1 up to rank 1 and
    0 from rank 1,000,000 on, the age signal is 1 from 20 years on. *)
Theorem signals_monotone (r1 r2 n m : Z) (a1 a2 : R) :
  (r1 <= r2)%Z -> (n <= m)%Z -> a1 <= a2 ->
  tranco_signal_of r2 <= tranco_signal_of r1
  /\ fc_signal_of m <= fc_signal_of n
  /\ age_signal_of a1 <= age_signal_of a2
  /\ ((r1 <= 1)%Z -> tranco_signal_of r1 = 1)
  /\ ((1000000 <= r2)%Z -> tranco_signal_of r2 = 0)
  /\ (20 <= a2 -> age_signal_of a2 = 1).
Proof.
  intros Hr Hn Ha. repeat split.
  - unfold tranco_signal_of. pose proof (log10_Zmax_le r1 r2 Hr).
    apply Rle_max_compat_l. lra.
  - now apply fc_signal_of_antitone.
  - unfold age_signal_of. apply Rle_min_compat_l. lra.
  - intros H1. unfold tranco_signal_of. rewrite Z.max_r by lia.
    rewrite log10_1. rewrite Rmax_right; lra.
  - intros H2. unfold tranco_signal_of. rewrite Z.max_l by lia.
    assert (6 <= log10 (IZR r2)).
    { rewrite <- log10_million. apply log10_le; [lra|]. now apply IZR_le. }
    rewrite Rmax_left; lra.
  - intros H3. unfold age_signal_of. rewrite Rmin_left; lra.
Qed.

Lemma signals_monotone_witness :
  tranco_signal_of 5000 <= tranco_signal_of 10
  /\ fc_signal_of 40 <= fc_signal_of 3
  /\ age_signal_of 2 <= age_signal_of 25.
Proof.
  destruct (signals_monotone 10 5000 3 40 2 25) as (H1 & H2 & H3 & _);
    [lia|lia|lra|]. auto.
Defined.


(** X17.  When the loop gets through its entries ([math] bound where it
    is needed), an entry with signals in range has a [credibility_score]
    in [0,1]; it is within 0.4 of the score of its category when the entry
    is not flagged, so a "fake" domain never scores above 0.4 and a
    "reliable" one never below 0.6, and it is the score of the category
    when there is no signal. *)
Theorem score_within_04_of_category (entries : list entry) (i : nat)
    (e : entry) :
  entries !! i = Some e -> math_bound false entries -> signals_in_range e ->
  exists out t e' s,
    step_score entries = Some (out, t)
    /\ out !! i = Some e'
    /\ credibility_score e' = Some (Num s)
    /\ 0 <= s <= 1
    /\ (safe_browsing_flagged e = false ->
        CATEGORY_SCORES (category e) - 4 / 10 <= s
        <= CATEGORY_SCORES (category e) + 4 / 10)
    /\ (no_signals e -> s = CATEGORY_SCORES (category e)).
Proof.
  intros Hi Hb Hr.
  exists (scored <$> entries), (tier1 (scored <$> entries)), (scored e),
    (round (pulled_score e) 3).
  split; [apply step_score_bound; [exact (lookup_not_nil _ _ _ Hi)|exact Hb]|].
  split; [now rewrite list_lookup_fmap, Hi|].
  split.
  { cbn [scored set_score credibility_score].
    now rewrite (raw_score_number e (signals_number e Hr)). }
  split; [apply round_unit_interval, pulled_score_range, Hr|].
  destruct (CATEGORY_SCORES_decimal (category e)) as [k Hk].
  split.
  - intros Hf. pose proof (pulled_score_near_category e Hr Hf) as [Hlo Hhi].
    split.
    + replace (CATEGORY_SCORES (category e) - 4 / 10)
        with (IZR (k - 400) / 10 ^ 3) by (rewrite Hk, minus_IZR; cbn; lra).
      apply round_ge. rewrite minus_IZR. cbn in Hk |- *. lra.
    + replace (CATEGORY_SCORES (category e) + 4 / 10)
        with (IZR (k + 400) / 10 ^ 3) by (rewrite Hk, plus_IZR; cbn; lra).
      apply round_le. rewrite plus_IZR. cbn in Hk |- *. lra.
  - intros Hn. rewrite (pulled_score_no_signals e Hn), Hk.
    apply round_decimal.
Qed.

Lemma score_within_04_of_category_witness :
  exists out t e' s,
    step_score [sample_ranked (Some 3%Z)] = Some (out, t)
    /\ out !! 0%nat = Some e'
    /\ credibility_score e' = Some (Num s)
    /\ 0 <= s <= 1
    /\ (safe_browsing_flagged (sample_ranked (Some 3%Z)) = false ->
        CATEGORY_SCORES (category (sample_ranked (Some 3%Z))) - 4 / 10 <= s
        <= CATEGORY_SCORES (category (sample_ranked (Some 3%Z))) + 4 / 10)
    /\ (no_signals (sample_ranked (Some 3%Z)) ->
        s = CATEGORY_SCORES (category (sample_ranked (Some 3%Z)))).
Proof.
  apply (score_within_04_of_category [sample_ranked (Some 3%Z)] 0
           (sample_ranked (Some 3%Z))).
  - reflexivity.
  - intros i e Hi Hfc. right. exists 0%nat, (sample_ranked (Some 3%Z)).
    split; [lia|]. split; [reflexivity|]. eexists. reflexivity.
  - split; intros x Hx; discriminate.
Defined.





End ScoreShape.

(** ** The scored dataset and its consumer *)

Section ScoredDataset.

Import PyNum Enrich.
Local Open Scope R_scope.

Lemma tier1_scored_snoc (l : list entry) (e : entry) :
  tier1 (l ++ [e])
  = match tier1_entry e with
    | Some c => <[domain e := c]> (tier1 l)
    | None => tier1 l
    end.
Proof. unfold tier1. now rewrite fold_left_app. Qed.

Lemma tier1_entry_scored (e : entry) :
  tier1_entry (scored e)
  = Some {| Build.c_s := fround (fround (raw_score e) 3) 2;
            Build.c_c :=
              PyStr.index0 (Build.category_name (category e));
            Build.c_n := length (Build.sources (merged e));
            Build.c_r := tranco_rank e;
            Build.c_a := (fun a => round a 1) <$> domain_age_years e |}.
Proof. reflexivity. Qed.

Lemma tier1_scored_dom (l : list entry) :
  dom (tier1 (scored <$> l)) = list_to_set (domain <$> l).
Proof.
  induction l as [|e l IHl] using rev_ind; [apply dom_empty_L|].
  rewrite !fmap_app, list_to_set_app_L. cbn [fmap list_fmap].
  rewrite tier1_scored_snoc, tier1_entry_scored, dom_insert_L, IHl.
  cbn. rewrite (right_id_L ∅ (∪)). apply union_comm_L.
Qed.

Lemma tier1_scored_lookup (l : list entry) (e : entry) :
  NoDup (domain <$> l) -> e ∈ l ->
  tier1 (scored <$> l) !! domain e = tier1_entry (scored e).
Proof.
  induction l as [|x l IHl] using rev_ind; intros Hnd He; [inversion He|].
  rewrite fmap_app. cbn [fmap list_fmap].
  rewrite tier1_scored_snoc, (tier1_entry_scored x).
  rewrite fmap_app in Hnd. apply NoDup_app in Hnd as (Hnd & Hdis & _).
  apply elem_of_app in He as [He | ->%list_elem_of_singleton].
  - rewrite lookup_insert_ne; [auto|].
    change (domain (scored x)) with (domain x).
    intros Heq. apply (Hdis (domain e)).
    + apply list_elem_of_fmap. now exists e.
    + cbn. rewrite Heq. apply list_elem_of_here.
  - change (domain (scored x)) with (domain x).
    rewrite lookup_insert_eq. symmetry. apply tier1_entry_scored.
Qed.

(** X19.  From the scored entries to the consumer.  When the loop gets
    through its entries ([math] bound where it is needed), the compact
    dataset of [step_score] has a record for the domains of the entries
    and for no other; when no two entries share a domain, [check_domain]
    finds the record of an entry under its domain in normal form, with a
    score in [0,1] (signals in range), the number of its sources and its
    rank; and the score of a flagged entry reads as LOW. *)
Theorem step_score_dataset_lookup (entries : list entry) (e : entry) :
  NoDup (domain <$> entries) -> e ∈ entries -> math_bound false entries ->
  Build.normalized (domain e) = true -> signals_in_range e ->
  exists out t,
    step_score entries = Some (out, t)
    /\ dom t = list_to_set (domain <$> entries)
    /\ exists c,
         Usage.check_domain t (domain e) = Some c
         /\ (exists s, Build.c_s c = Num s /\ 0 <= s <= 1)
         /\ Build.c_n c = length (Build.sources (merged e))
         /\ Build.c_r c = tranco_rank e
         /\ (safe_browsing_flagged e = true ->
             Usage.traffic_light (Build.c_s c) = Usage.Low).
Proof.
  intros Hnd He Hb Hn Hr.
  exists (scored <$> entries), (tier1 (scored <$> entries)).
  split.
  { apply step_score_bound; [|exact Hb]. intros ->. inversion He. }
  split; [apply tier1_scored_dom|].
  eexists. split.
  - unfold Usage.check_domain. rewrite (lookup_key_fixed _ Hn).
    rewrite (tier1_scored_lookup entries e Hnd He). apply tier1_entry_scored.
  - cbn [Build.c_s Build.c_n Build.c_r].
    rewrite (raw_score_number e (signals_number e Hr)). cbn [fround].
    split; [|split; [reflexivity|split; [reflexivity|]]].
    + eexists. split; [reflexivity|].
      apply round_unit_interval, round_unit_interval.
      now apply pulled_score_range.
    + intros Hf. unfold Usage.traffic_light.
      assert (H5 : round (round (pulled_score e) 3) 2 <= IZR 5 / 10 ^ 2).
      { apply round_le.
        apply Rle_trans with (IZR 50 / 10 ^ 3); [|cbn; lra].
        apply round_le. pose proof (pulled_score_flagged e Hf). cbn. lra. }
      rewrite fle_num; [reflexivity|]. cbn in H5. lra.
Qed.

Lemma step_score_dataset_lookup_witness :
  exists out t c,
    step_score [sample_enriched] = Some (out, t)
    /\ Usage.check_domain t "example.com" = Some c
    /\ Usage.traffic_light (Build.c_s c) = Usage.Low.
Proof.
  destruct (step_score_dataset_lookup [sample_enriched] sample_enriched)
    as (out & t & Hs & _ & c & Hc & _ & _ & _ & Hlow).
  - apply NoDup_singleton.
  - apply list_elem_of_here.
  - intros i e Hi Hfc. right. exists 0%nat, sample_enriched.
    split; [lia|]. split; [reflexivity|]. eexists. reflexivity.
  - reflexivity.
  - split; intros x [= <-]; cbn; lra.
  - exists out, t, c. split; [exact Hs|]. split; [exact Hc|]. now apply Hlow.
Defined.

End ScoredDataset.

(** ** Registrable domains *)

Section BaseDomain.

Import PyStr Enrich.

Lemma split_not_nil (sep : ascii) (s : string) : split sep s <> [].
Proof.
  destruct s as [|c s]; cbn; [discriminate|].
  destruct (is_char sep c); [discriminate|].
  destruct (split sep s); discriminate.
Qed.

(** The parts [split] returns have no separator in them. *)
Lemma split_sep_free (sep : ascii) (s : string) :
  Forall (fun w => sep_free sep w = true) (split sep s).
Proof.
  induction s as [|c s IHs]; cbn.
  - repeat constructor.
  - destruct (is_char sep c) eqn:E.
    + constructor; [reflexivity|exact IHs].
    + destruct (split sep s) as [|w ws]; [repeat constructor; cbn; now rewrite E|].
      inversion IHs as [|? ? Hw Hws]; subst. constructor; [|exact Hws].
      unfold sep_free in *. cbn. now rewrite E, Hw.
Qed.

Lemma split_one (sep : ascii) (w : string) :
  sep_free sep w = true -> split sep w = [w].
Proof.
  unfold sep_free. induction w as [|c w IHw]; cbn; [reflexivity|].
  intros [Hc Hw]%andb_true_iff. apply negb_true_iff in Hc.
  now rewrite Hc, (IHw Hw).
Qed.

Lemma split_app_sep (sep : ascii) (w rest : string) :
  sep_free sep w = true ->
  split sep (w +:+ String sep rest) = w :: split sep rest.
Proof.
  unfold sep_free. induction w as [|c w IHw]; simpl.
  - intros _. unfold is_char. now rewrite N.eqb_refl.
  - intros [Hc Hw]%andb_true_iff. apply negb_true_iff in Hc.
    now rewrite Hc, (IHw Hw).
Qed.

(** Splitting what [join] made of parts without a separator gives the
    parts back. *)
Lemma split_join (sep : ascii) (parts : list string) :
  parts <> [] -> Forall (fun w => sep_free sep w = true) parts ->
  split sep (join (String sep EmptyString) parts) = parts.
Proof.
  induction parts as [|w ws IHp]; intros Hne Hall; [contradiction|].
  inversion Hall as [|? ? Hw Hws]; subst.
  destruct ws as [|w' ws'].
  - cbn. now apply split_one.
  - change (join (String sep EmptyString) (w :: w' :: ws'))
      with (w +:+ String sep EmptyString
              +:+ join (String sep EmptyString) (w' :: ws')).
    change (String sep EmptyString
              +:+ join (String sep EmptyString) (w' :: ws'))
      with (String sep (join (String sep EmptyString) (w' :: ws'))).
    rewrite split_app_sep by exact Hw. f_equal.
    apply IHp; [discriminate|exact Hws].
Qed.

Lemma last_n_length {A} (n : nat) (l : list A) :
  length (last_n n l) = Nat.min n (length l).
Proof. unfold last_n. rewrite length_drop. lia. Qed.

Lemma last_n_all {A} (n : nat) (l : list A) :
  length l <= n -> last_n n l = l.
Proof.
  intros H. unfold last_n. replace (length l - n) with 0 by lia. reflexivity.
Qed.

Lemma last_n_last_n {A} (k n : nat) (l : list A) :
  k <= n -> last_n k (last_n n l) = last_n k l.
Proof.
  intros H. unfold last_n. rewrite length_drop, drop_drop. f_equal. lia.
Qed.

Lemma last_n_Forall {A} (P : A -> Prop) (n : nat) (l : list A) :
  Forall P l -> Forall P (last_n n l).
Proof. apply Forall_drop. Qed.

Lemma last_n_not_nil {A} (n : nat) (l : list A) :
  0 < n -> l <> [] -> last_n n l <> [].
Proof.
  intros Hn Hl Hnil. apply (f_equal length) in Hnil.
  rewrite last_n_length in Hnil. destruct l; [contradiction|]. cbn in Hnil. lia.
Qed.

(** The parts of a registrable domain. *)
Lemma get_base_domain_parts (d : string) :
  let parts := split "." d in
  get_base_domain d = d /\ length parts < 2
  \/ exists k, (k = 2 \/ k = 3) /\ k <= length parts
       /\ get_base_domain d = join "." (last_n k parts)
       /\ (k = 3 -> join "." (last_n 2 parts) ∈ two_level)
       /\ (k = 2 -> ~ (3 <= length parts
                       /\ join "." (last_n 2 parts) ∈ two_level)).
Proof.
  cbv zeta. unfold get_base_domain.
  destruct (bool_decide (3 <= length (split "." d))) eqn:E3;
    [apply bool_decide_eq_true in E3|apply bool_decide_eq_false in E3].
  - destruct (bool_decide (_ ∈ two_level)) eqn:E2;
      [apply bool_decide_eq_true in E2|apply bool_decide_eq_false in E2];
      cbn [andb].
    + right. exists 3. split; [now right|]. split; [exact E3|].
      split; [reflexivity|]. split; [intros _; exact E2|intros H; discriminate].
    + rewrite bool_decide_eq_true_2 by lia.
      right. exists 2. split; [now left|]. split; [lia|].
      split; [reflexivity|]. split; [intros H; discriminate|].
      intros _ [_ H]. exact (E2 H).
  - cbn [andb]. destruct (bool_decide (2 <= _)) eqn:E2';
      [apply bool_decide_eq_true in E2'|apply bool_decide_eq_false in E2'].
    + right. exists 2. split; [now left|]. split; [exact E2'|].
      split; [reflexivity|]. split; [intros H; discriminate|].
      intros _ [H _]. exact (E3 H).
    + left. split; [reflexivity|lia].
Qed.

(** X20.  Taking the registrable domain twice is taking it once, so
    [query_rdap], which takes it again, asks the server for the very key
    the step caches the answer under; the registrable domain has at most
    three labels. *)
Theorem get_base_domain_idempotent (d : string) :
  get_base_domain (get_base_domain d) = get_base_domain d
  /\ (length (split "." (get_base_domain d)) <= 3
      \/ get_base_domain d = d).
Proof.
  destruct (get_base_domain_parts d) as [[Hd Hlen] | (k & Hk & Hle & Hb & H3 & H2)].
  - rewrite Hd. auto.
  - assert (Hsp : split "." (get_base_domain d) = last_n k (split "." d)).
    { rewrite Hb. apply split_join.
      - apply last_n_not_nil; [lia|apply split_not_nil].
      - apply last_n_Forall, split_sep_free. }
    assert (Hlk : length (last_n k (split "." d)) = k)
      by (rewrite last_n_length; lia).
    split; [|left; rewrite Hsp; lia].
    destruct (get_base_domain_parts (get_base_domain d))
      as [[Hd' Hlen'] | (k' & Hk' & Hle' & Hb' & H3' & H2')].
    + exact Hd'.
    + rewrite Hb', Hsp. rewrite Hsp in Hle', H3', H2'. rewrite Hlk in *.
      destruct Hk as [-> | ->]; destruct Hk' as [-> | ->].
      * now rewrite last_n_all by lia.
      * lia.
      * exfalso. apply H2'; [reflexivity|]. split; [lia|].
        rewrite last_n_last_n by lia. now apply H3.
      * rewrite last_n_all by lia. now rewrite <- Hb.
Qed.

End BaseDomain.

(** ** Safe Browsing: batches, URLs and the cache *)

Section SafeBrowsing.

Import PyStr Enrich.

Variable World : Type.
Variable safebrowsing_server :
  string -> list string -> World -> option (list string) * World.

(** *** Batches *)

Lemma chunks_concat {A} (B m : nat) (l : list A) :
  concat ((fun k => take B (drop (k * B) l)) <$> seq 0 m) = take (m * B) l.
Proof.
  induction m as [|m IH]; [reflexivity|].
  rewrite seq_S, fmap_app, concat_app, IH.
  cbn [fmap list_fmap concat Nat.add]. rewrite app_nil_r.
  rewrite take_take_drop. f_equal. lia.
Qed.

Lemma batches_chunks (l : list string) :
  batches l
  = (fun k => take BATCH_SIZE (drop (k * BATCH_SIZE) l))
      <$> seq 0 ((length l + BATCH_SIZE - 1) / BATCH_SIZE).
Proof.
  unfold batches, batch_starts, batch_at. now rewrite <- list_fmap_compose.
Qed.

Lemma ceil_div_bounds (B n : nat) :
  0 < B ->
  n <= (n + B - 1) / B * B /\ (forall k, k < (n + B - 1) / B -> k * B < n).
Proof.
  intros HB.
  pose proof (Nat.div_mod_eq (n + B - 1) B) as E.
  pose proof (Nat.mod_upper_bound (n + B - 1) B ltac:(lia)) as U.
  set (m := (n + B - 1) / B) in *. set (r := (n + B - 1) mod B) in *.
  split; [nia|]. intros k Hk. nia.
Qed.

Lemma batches_concat (l : list string) : concat (batches l) = l.
Proof.
  rewrite batches_chunks, chunks_concat. apply take_ge.
  apply ceil_div_bounds. unfold BATCH_SIZE. lia.
Qed.

Lemma batches_bounds (l : list string) :
  Forall (fun batch => 1 <= length batch <= BATCH_SIZE) (batches l).
Proof.
  rewrite batches_chunks. apply Forall_fmap, Forall_seq. intros k Hk.
  cbn -[BATCH_SIZE Nat.div]. rewrite length_take, length_drop.
  pose proof (proj2 (ceil_div_bounds BATCH_SIZE (length l)
                       ltac:(unfold BATCH_SIZE; lia)) k ltac:(lia)).
  assert (0 < BATCH_SIZE) by (unfold BATCH_SIZE; lia). lia.
Qed.

(** X21.  The batches of [step_safebrowsing] cut the list of domains to
    check into consecutive pieces: put end to end they give the list back,
    no batch is empty, none has more than 500 domains, and their number is
    the length of the list divided by 500, rounded up. *)
Theorem batches_partition (to_check : list string) :
  concat (batches to_check) = to_check
  /\ Forall (fun batch => 1 <= length batch <= BATCH_SIZE) (batches to_check)
  /\ length (batches to_check)
     = (length to_check + BATCH_SIZE - 1) / BATCH_SIZE.
Proof.
  split; [apply batches_concat|]. split; [apply batches_bounds|].
  rewrite batches_chunks, length_fmap. apply length_seq.
Qed.

(** *** The URL of a domain and back *)

Lemma prefix_app (p s : string) :
  String.prefix p s = true -> exists t, s = p +:+ t.
Proof.
  revert s. induction p as [|a p IH]; intros s H.
  - exists s. reflexivity.
  - destruct s as [|b s]; simpl in H; [discriminate|].
    destruct (ascii_dec a b) as [->|]; [|discriminate].
    destruct (IH _ H) as [t ->]. exists t. reflexivity.
Qed.

Lemma count_char_app (a : ascii) (s t : string) :
  count_char a (s +:+ t) = count_char a s + count_char a t.
Proof.
  induction s as [|c s IH]; [reflexivity|].
  change (String c s +:+ t) with (String c (s +:+ t)).
  cbn [count_char]. rewrite IH. lia.
Qed.

(** A pattern with two "/" does not occur in a string with one. *)
Lemma replace_absent (a : ascii) (old new r : string) :
  2 <= count_char a old -> count_char a r <= 1 -> replace old new r = r.
Proof.
  intros Hold. unfold replace. induction r as [|c r IH]; intros Hr.
  - reflexivity.
  - cbn [replace_from]. destruct (String.prefix old (String c r)) eqn:E.
    + apply prefix_app in E as [t Et].
      apply (f_equal (count_char a)) in Et. rewrite count_char_app in Et. lia.
    + f_equal. apply IH. cbn [count_char] in Hr. lia.
Qed.

Lemma sep_free_count (a : ascii) (d : string) :
  sep_free a d = true -> count_char a d = 0.
Proof.
  unfold sep_free. induction d as [|c d IH]; [reflexivity|].
  cbn [all_chars count_char]. intros [Hc Hd]%andb_true_iff.
  apply negb_true_iff in Hc. rewrite Hc, (IH Hd). reflexivity.
Qed.

Lemma all_chars_last (q : ascii -> bool) (s : string) :
  all_chars q s = true -> opt_rejects (fun c => negb (q c)) (last_char s) = true.
Proof.
  induction s as [|c s IH]; [reflexivity|].
  cbn [all_chars]. intros [Hc Hs]%andb_true_iff.
  destruct s as [|c' s'].
  - simpl. now rewrite Hc.
  - exact (IH Hs).
Qed.

Lemma strip_slash_app (d : string) :
  sep_free "/" d = true ->
  strip_chars (is_char "/") (d +:+ "/") = d.
Proof.
  intros Hd. unfold strip_chars. destruct d as [|c d'] eqn:Ed.
  - reflexivity.
  - rewrite <- Ed in *. rewrite lstrip_id.
    + apply rstrip_app_char; [reflexivity|subst; discriminate|].
      apply all_chars_last in Hd.
      destruct (last_char d) as [x|]; [|reflexivity].
      simpl in *. now rewrite negb_involutive in Hd.
    + subst d. unfold sep_free in Hd. cbn [all_chars] in Hd.
      apply andb_true_iff in Hd as [Hc _]. exact Hc.
Qed.

Lemma url_domain_threat_url (d : string) :
  sep_free "/" d = true -> url_domain (threat_url d) = d.
Proof.
  intros Hd. unfold url_domain, threat_url.
  replace (replace "http://" "" ("http://" +:+ d +:+ "/"))
    with (replace "http://" "" (d +:+ "/")) by (destruct d; reflexivity).
  assert (Hone : count_char "/" (d +:+ "/") <= 1).
  { rewrite count_char_app, (sep_free_count _ _ Hd). vm_compute. lia. }
  rewrite (replace_absent "/" "http://" "" _ ltac:(vm_compute; lia) Hone).
  rewrite (replace_absent "/" "https://" "" _ ltac:(vm_compute; lia) Hone).
  apply strip_slash_app, Hd.
Qed.

(** X22.  A domain without "/" is read back unchanged from the URL the
    step sends for it: [url_domain (threat_url d) = d]. *)
Theorem threat_url_round_trip (d : string) :
  sep_free "/" d = true -> url_domain (threat_url d) = d.
Proof. exact (url_domain_threat_url d). Qed.

(** *** One batch *)

Lemma sb_mark_lookup (result : string -> sb_result) (batch : list string)
    (c : gmap string sb_result) (d : string) :
  sb_mark result batch c !! d
  = if bool_decide (d ∈ batch) then Some (result d) else c !! d.
Proof.
  unfold sb_mark. revert c.
  induction batch as [|x batch IH]; intros c; cbn [fold_left].
  - rewrite bool_decide_eq_false_2; [reflexivity|apply not_elem_of_nil].
  - rewrite IH. destruct (decide (d ∈ batch)) as [Hin|Hout].
    + rewrite !bool_decide_eq_true_2;
        [reflexivity|apply list_elem_of_further, Hin|exact Hin].
    + rewrite (bool_decide_eq_false_2 (d ∈ batch)) by exact Hout.
      destruct (decide (d = x)) as [->|Hne].
      * rewrite lookup_insert_eq, bool_decide_eq_true_2;
          [reflexivity|apply list_elem_of_here].
      * rewrite lookup_insert_ne by congruence.
        rewrite bool_decide_eq_false_2; [reflexivity|].
        rewrite elem_of_cons. tauto.
Qed.

Lemma sb_batch_step_lookup (api_key : string) (st : run sb_result World)
    (batch : list string) (d : string) :
  d ∉ batch ->
  cache (sb_batch_step World safebrowsing_server api_key st batch) !! d
  = cache st !! d.
Proof.
  intros Hd. unfold sb_batch_step.
  destruct (safebrowsing_server _ _ _) as [response w']. cbn [cache].
  rewrite sb_mark_lookup. now rewrite bool_decide_eq_false_2.
Qed.

Lemma sb_batch_step_dom (api_key : string) (st : run sb_result World)
    (batch : list string) (d : string) :
  d ∈ dom (cache (sb_batch_step World safebrowsing_server api_key st batch))
  <-> d ∈ dom (cache st) \/ d ∈ batch.
Proof.
  unfold sb_batch_step.
  destruct (safebrowsing_server _ _ _) as [response w']. cbn [cache].
  rewrite !elem_of_dom, sb_mark_lookup. case_bool_decide.
  - split; [now right|]. intros _. eexists. reflexivity.
  - tauto.
Qed.

Lemma flagged_domain_iff (batch matches : list string) (d : string) :
  Forall (fun d => sep_free "/" d = true) batch ->
  matches ⊆ threat_url <$> batch ->
  d ∈ batch ->
  d ∈ url_domain <$> matches <-> threat_url d ∈ matches.
Proof.
  intros Hfree Hsub Hd. rewrite Forall_forall in Hfree. split.
  - intros (m & -> & Hm)%list_elem_of_fmap.
    destruct (proj1 (list_elem_of_fmap _ _ _) (Hsub _ Hm)) as (d' & -> & Hd').
    now rewrite (url_domain_threat_url d' (Hfree _ Hd')).
  - intros Hm. apply list_elem_of_fmap. exists (threat_url d).
    split; [|exact Hm]. symmetry. apply url_domain_threat_url, Hfree, Hd.
Qed.

(** X23.  When the API answers a batch of domains without "/" with some of
    the URLs it was sent, each domain of the batch is cached as flagged
    exactly when its own URL is among the matches, and without the error
    mark. *)
Theorem flagged_iff_url_reported (api_key : string) (st : run sb_result World)
    (batch matches : list string) (w' : World) (d : string) :
  safebrowsing_server api_key (threat_url <$> batch) (world st)
  = (Some matches, w') ->
  Forall (fun d => sep_free "/" d = true) batch ->
  matches ⊆ threat_url <$> batch ->
  d ∈ batch ->
  cache (sb_batch_step World safebrowsing_server api_key st batch) !! d
  = Some {| flagged := bool_decide (threat_url d ∈ matches);
            sb_error := false |}.
Proof.
  intros Hserver Hfree Hsub Hd. unfold sb_batch_step. rewrite Hserver.
  cbn [cache]. rewrite sb_mark_lookup, bool_decide_eq_true_2 by exact Hd.
  do 2 f_equal. apply bool_decide_ext.
  apply flagged_domain_iff with batch; assumption.
Qed.

(** *** The whole step *)

Lemma sb_batches_dom (api_key : string) (bs : list (list string))
    (st : run sb_result World) (d : string) :
  d ∈ dom (cache (fold_left (sb_batch_step World safebrowsing_server api_key)
                    bs st))
  <-> d ∈ dom (cache st) \/ d ∈ concat bs.
Proof.
  revert st. induction bs as [|b bs IH]; intros st; cbn [fold_left concat].
  - rewrite elem_of_nil. tauto.
  - rewrite IH, sb_batch_step_dom, elem_of_app. tauto.
Qed.

Lemma sb_batches_keep (api_key : string) (bs : list (list string))
    (st : run sb_result World) (d : string) :
  d ∉ concat bs ->
  cache (fold_left (sb_batch_step World safebrowsing_server api_key) bs st)
  !! d
  = cache st !! d.
Proof.
  revert st. induction bs as [|b bs IH]; intros st; cbn [fold_left concat];
    [reflexivity|].
  rewrite elem_of_app. intros Hd.
  rewrite IH by tauto. apply sb_batch_step_lookup. tauto.
Qed.

Lemma sb_batches_queries (api_key : string) (bs : list (list string))
    (st : run sb_result World) :
  length (queries (fold_left (sb_batch_step World safebrowsing_server api_key)
                     bs st))
  = length (queries st) + length (concat bs).
Proof.
  revert st. induction bs as [|b bs IH]; intros st;
    cbn [fold_left concat length]; [lia|].
  rewrite IH, length_app. unfold sb_batch_step.
  destruct (safebrowsing_server _ _ _) as [response w']. cbn [queries].
  rewrite length_app, length_rev. lia.
Qed.

Lemma sb_apply_domain (c : gmap string sb_result) (e : entry) :
  domain (sb_apply c e) = domain e.
Proof.
  unfold sb_apply. destruct (c !! domain e) as [cached|]; [|reflexivity].
  destruct (flagged cached); reflexivity.
Qed.

Lemma sb_apply_idem (c : gmap string sb_result) (e : entry) :
  sb_apply c (sb_apply c e) = sb_apply c e.
Proof.
  unfold sb_apply at 1. rewrite sb_apply_domain.
  destruct (c !! domain e) as [cached|] eqn:E; [|reflexivity].
  destruct (flagged cached) eqn:F; [|reflexivity].
  unfold sb_apply. rewrite E, F. reflexivity.
Qed.

Lemma sb_apply_adds_flag_only (c : gmap string sb_result) (e : entry) :
  adds_flag_only e (sb_apply c e).
Proof.
  unfold sb_apply, adds_flag_only.
  destruct (c !! domain e) as [cached|]; [|tauto].
  destruct (flagged cached); cbn; tauto.
Qed.

Lemma filter_none {A} (P : A -> Prop) `{!forall x, Decision (P x)}
    (l : list A) :
  Forall (fun x => ~ P x) l -> filter P l = [].
Proof.
  induction 1 as [|x l Hx _ IH]; [reflexivity|].
  now rewrite filter_cons_False.
Qed.

Lemma step_safebrowsing_dom (api_key : string) (entries : list entry)
    (file : option (gmap string sb_result)) (w : World) (e : entry) :
  e ∈ entries ->
  domain e
  ∈ dom (cache (snd (step_safebrowsing World safebrowsing_server api_key
                       entries file w))).
Proof.
  intros He. unfold step_safebrowsing. cbn [snd save_cache cache].
  rewrite sb_batches_dom, batches_concat.
  destruct (decide (domain e ∈ dom (cache (load_cache (W := World) file w))))
    as [Hin|Hout]; [now left|right].
  apply list_elem_of_fmap. exists e. split; [reflexivity|].
  apply list_elem_of_filter. split; assumption.
Qed.

(** X24.  After a [step_safebrowsing] run the cache file holds the cache,
    every entry's domain is in it whatever the API answered (a failed batch
    too), and as many domains were sent as entries were missing from the
    cache.  So a second run over the result with that file sends nothing,
    leaves the world as it is and returns the same entries. *)
Theorem safebrowsing_rerun_is_silent (api_key : string)
    (entries : list entry) (file : option (gmap string sb_result))
    (w w2 : World) :
  let r := step_safebrowsing World safebrowsing_server api_key entries file w
  in
  cache_file (snd r) = Some (cache (snd r))
  /\ (forall e, e ∈ entries -> domain e ∈ dom (cache (snd r)))
  /\ length (queries (snd r))
     = length (filter (fun e => domain e ∉ dom (default ∅ file)) entries)
  /\ step_safebrowsing World safebrowsing_server api_key (fst r)
       (cache_file (snd r)) w2
     = (fst r,
        {| cache := cache (snd r); cache_file := Some (cache (snd r));
           world := w2; queries := [] |}).
Proof.
  intros r. split; [reflexivity|]. split.
  { intros e He. apply step_safebrowsing_dom, He. } split.
  { unfold r, step_safebrowsing. cbn [snd save_cache queries].
    rewrite sb_batches_queries, batches_concat, length_fmap. reflexivity. }
  assert (Hdom : forall e, e ∈ entries -> domain e ∈ dom (cache (snd r))).
  { intros e He. apply step_safebrowsing_dom, He. }
  change (cache_file (snd r)) with (Some (cache (snd r))).
  set (c := cache (snd r)) in *.
  change (fst r) with (map (sb_apply c) entries).
  unfold step_safebrowsing.
  change (cache (load_cache (W := World) (Some c) w2)) with c.
  rewrite filter_none.
  - cbn [fmap list_fmap]. change (batches []) with (@nil (list string)).
    cbn [fold_left save_cache load_cache cache queries world cache_file].
    change (default ∅ (Some c)) with c. f_equal.
    rewrite map_map. apply map_ext. intros e. apply sb_apply_idem.
  - apply Forall_forall. intros e' (e & -> & He)%list_elem_of_fmap Hout.
    apply Hout. rewrite sb_apply_domain. apply Hdom, He.
Qed.

(** X25.  [step_safebrowsing] keeps every result the cache file had, and
    changes nothing of an entry but the flag, which it sets and never
    clears. *)
Theorem safebrowsing_only_adds (api_key : string) (entries : list entry)
    (file : option (gmap string sb_result)) (w : World) :
  let r := step_safebrowsing World safebrowsing_server api_key entries file w
  in
  (forall k v, default ∅ file !! k = Some v -> cache (snd r) !! k = Some v)
  /\ Forall2 adds_flag_only entries (fst r).
Proof.
  intros r. split.
  - intros k v Hk. unfold r, step_safebrowsing. cbn [snd save_cache cache].
    rewrite sb_batches_keep; [exact Hk|].
    rewrite batches_concat.
    intros (e & -> & He)%list_elem_of_fmap.
    apply list_elem_of_filter in He as [Hout _]. apply Hout.
    apply elem_of_dom. eexists. exact Hk.
  - unfold r, step_safebrowsing. cbn [fst].
    apply Forall2_fmap_r, Forall_Forall2_diag, Forall_forall.
    intros e _. apply sb_apply_adds_flag_only.
Qed.

End SafeBrowsing.

Section SafeBrowsingExamples.

Import PyStr Enrich.

Lemma threat_url_round_trip_witness :
  url_domain (threat_url "example.com") = "example.com".
Proof. apply (threat_url_round_trip "example.com"). reflexivity. Defined.

Lemma flagged_iff_url_reported_witness :
  cache
    (sb_batch_step unit strict_safebrowsing_server "key" (load_cache None tt)
       ["example.com"])
  !! "example.com"
  = Some {| flagged :=
              bool_decide
                (threat_url "example.com" ∈ [threat_url "example.com"]);
            sb_error := false |}.
Proof.
  apply (flagged_iff_url_reported unit strict_safebrowsing_server "key"
           (load_cache None tt) ["example.com"] [threat_url "example.com"]
           tt "example.com").
  - reflexivity.
  - repeat constructor.
  - intros x Hx. exact Hx.
  - apply list_elem_of_here.
Defined.

End SafeBrowsingExamples.

(** ** The Tranco list *)

Section TrancoRank.

Import PyStr Enrich.

Variable py_int : string -> option Z.

Lemma split1_app (sep : ascii) (r n : string) :
  sep_free sep r = true -> split1 sep (r +:+ String sep n) = [r; n].
Proof.
  unfold sep_free. induction r as [|c r IH]; intros Hr.
  - change (split1 sep (String sep n) = [EmptyString; n]). cbn [split1].
    unfold is_char. now rewrite N.eqb_refl.
  - change (split1 sep (String c (r +:+ String sep n)) = [String c r; n]).
    cbn [all_chars] in Hr. apply andb_true_iff in Hr as [Hc Hr].
    apply negb_true_iff in Hc. cbn [split1]. rewrite Hc, (IH Hr).
    reflexivity.
Qed.

Lemma tranco_line_rank (t : gmap string Z) (line r n : string) (k : Z) :
  strip line = r +:+ "," +:+ n -> sep_free "," r = true ->
  py_int r = Some k ->
  tranco_line py_int t line = Some (<[lower n := k]> t).
Proof.
  intros Hline Hr Hk. unfold tranco_line. rewrite Hline.
  change ("," +:+ n) with (String "," n).
  rewrite (split1_app _ _ _ Hr), Hk. reflexivity.
Qed.

Lemma tranco_line_None (t : gmap string Z) (line : string) :
  tranco_line py_int t line = None
  <-> exists r n, split1 "," (strip line) = [r; n] /\ py_int r = None.
Proof.
  unfold tranco_line. split.
  - destruct (split1 "," (strip line)) as [|r [|n [|x rest]]];
      try discriminate.
    destruct (py_int r) eqn:E; [discriminate|]. intros _. now exists r, n.
  - intros (r & n & -> & ->). reflexivity.
Qed.

Lemma tranco_table_snoc (lines : list string) (line : string) :
  tranco_table py_int (lines ++ [line])
  = match tranco_table py_int lines with
    | Some t => tranco_line py_int t line
    | None => None
    end.
Proof. unfold tranco_table. now rewrite fold_left_app. Qed.

Lemma tranco_table_None (lines : list string) :
  tranco_table py_int lines = None
  <-> exists line r n,
        line ∈ lines /\ split1 "," (strip line) = [r; n] /\ py_int r = None.
Proof.
  induction lines as [|x lines IH] using rev_ind.
  - split; [discriminate|]. intros (line & _ & _ & []%elem_of_nil & _).
  - rewrite tranco_table_snoc. split.
    + destruct (tranco_table py_int lines) as [t|].
      * intros (r & n & Hs & Hr)%tranco_line_None. exists x, r, n.
        split; [|now split]. apply elem_of_app. right. apply list_elem_of_here.
      * intros _. destruct (proj1 IH eq_refl) as (line & r & n & Hl & H).
        exists line, r, n. split; [|exact H]. apply elem_of_app. now left.
    + intros (line & r & n & Hl & Hs & Hr).
      apply elem_of_app in Hl as [Hl|Hl].
      * rewrite (proj2 IH); [reflexivity|]. now exists line, r, n.
      * apply list_elem_of_singleton in Hl as ->.
        destruct (tranco_table py_int lines) as [t|]; [|reflexivity].
        apply tranco_line_None. now exists r, n.
Qed.

Lemma www_ne (d : string) : "www." +:+ d <> d.
Proof.
  intros H. apply (f_equal String.length) in H.
  change (String.length ("www." +:+ d)) with (4 + String.length d) in H. lia.
Qed.

Lemma tranco_apply_adds_rank_only (t : gmap string Z) (e : entry) :
  adds_rank_only e (tranco_apply t e).
Proof.
  unfold tranco_apply, adds_rank_only.
  destruct (t !! domain e) as [k|]; [cbn; eauto 10|].
  destruct (t !! ("www." +:+ domain e)) as [k|]; cbn; eauto 10.
Qed.

(** X26.  The last line of the Tranco file, read as [rank,name], gives its
    rank to every entry whose domain is the name in lower case, whatever
    the lines before said, and to every entry whose domain is that name
    without its "www." when the entry's own domain is on no line.  Nothing
    else of an entry changes, and a rank an entry had is never removed. *)
Theorem tranco_last_line_wins (lines : list string) (line r n : string)
    (k : Z) (t : gmap string Z) (entries : list entry) :
  tranco_table py_int lines = Some t ->
  strip line = r +:+ "," +:+ n -> sep_free "," r = true ->
  py_int r = Some k ->
  entries <> [] ->
  exists es,
    step_tranco py_int (lines ++ [line]) entries = Some es
    /\ Forall2
         (fun e e' =>
            adds_rank_only e e'
            /\ (domain e = lower n -> tranco_rank e' = Some k)
            /\ ("www." +:+ domain e = lower n -> t !! domain e = None ->
                tranco_rank e' = Some k))
         entries es.
Proof.
  intros Ht Hline Hr Hk Hne. unfold step_tranco.
  rewrite tranco_table_snoc, Ht, (tranco_line_rank t line r n k Hline Hr Hk).
  destruct entries as [|e0 rest]; [contradiction|].
  eexists. split; [reflexivity|].
  apply Forall2_fmap_r, Forall_Forall2_diag, Forall_forall. intros e _.
  split; [apply tranco_apply_adds_rank_only|]. unfold tranco_apply. split.
  - intros ->. now rewrite lookup_insert_eq.
  - intros Hw Hnone.
    rewrite lookup_insert_ne by (rewrite <- Hw; apply www_ne).
    rewrite Hnone, Hw, lookup_insert_eq. reflexivity.
Qed.

(** X27.  [step_tranco] ends with an error in exactly two cases: there is
    no entry (the matched percentage divides by their number), or some
    line of the file has a comma and what stands before its first comma is
    not an integer.  A line without a comma is passed over. *)
Theorem step_tranco_fails_iff (lines : list string) (entries : list entry) :
  step_tranco py_int lines entries = None
  <-> entries = []
      \/ exists line r n,
           line ∈ lines /\ split1 "," (strip line) = [r; n]
           /\ py_int r = None.
Proof.
  rewrite <- tranco_table_None. unfold step_tranco.
  destruct (tranco_table py_int lines) as [t|].
  - destruct entries; split; try discriminate; auto.
    intros [H|H]; discriminate.
  - split; auto.
Qed.

End TrancoRank.

Section TrancoRankExamples.

Import PyStr Enrich.

Lemma tranco_last_line_wins_witness :
  exists es,
    step_tranco one_only ([] ++ ["1,Example.COM"]) [sample_enriched] = Some es
    /\ Forall2
         (fun e e' =>
            adds_rank_only e e'
            /\ (domain e = lower "Example.COM" -> tranco_rank e' = Some 1%Z)
            /\ ("www." +:+ domain e = lower "Example.COM" ->
                (∅ : gmap string Z) !! domain e = None ->
                tranco_rank e' = Some 1%Z))
         [sample_enriched] es.
Proof.
  apply (tranco_last_line_wins one_only [] "1,Example.COM" "1" "Example.COM"
           1%Z ∅ [sample_enriched]).
  - reflexivity.
  - reflexivity.
  - reflexivity.
  - reflexivity.
  - discriminate.
Defined.

End TrancoRankExamples.

(** ** From the Safe Browsing cache to the score *)

Section FlagToScore.

Import PyStr PyNum Enrich.

Local Open Scope R_scope.

Variable World : Type.
Variable safebrowsing_server :
  string -> list string -> World -> option (list string) * World.

Lemma sb_apply_flagged (c : gmap string sb_result) (e : entry)
    (v : sb_result) :
  c !! domain e = Some v -> flagged v = true ->
  safe_browsing_flagged (sb_apply c e) = true.
Proof. intros Hc Hv. unfold sb_apply. now rewrite Hc, Hv. Qed.

Lemma sb_apply_keeps (c : gmap string sb_result) (e : entry) :
  fc_signal (sb_apply c e) = fc_signal e
  /\ tranco_rank (sb_apply c e) = tranco_rank e
  /\ iffy_score (sb_apply c e) = iffy_score e.
Proof.
  unfold sb_apply. destruct (c !! domain e) as [cached|]; [|auto].
  destruct (flagged cached); auto.
Qed.

(** Setting flags leaves [math] bound where it was. *)
Lemma math_bound_sb_apply (c : gmap string sb_result) (math : bool)
    (entries : list entry) :
  math_bound math entries -> math_bound math (sb_apply c <$> entries).
Proof.
  intros Hb i e1 Hi Hfc. rewrite list_lookup_fmap in Hi.
  destruct (entries !! i) as [e0|] eqn:E0; [|discriminate].
  injection Hi as <-.
  rewrite (proj1 (sb_apply_keeps c e0)) in Hfc.
  destruct (Hb i e0 E0 Hfc) as [->|(j & e' & Hj & He' & Hr)]; [now left|].
  right. exists j, (sb_apply c e'). split; [exact Hj|]. split.
  - now rewrite list_lookup_fmap, He'.
  - now rewrite (proj1 (proj2 (sb_apply_keeps c e'))).
Qed.

(** X28.  An entry whose domain the Safe Browsing cache holds as flagged
    at the end of [step_safebrowsing], and whose [iffy_score] is not NaN,
    comes out of [step_score], run on what that step returns, with a
    score of at most 0.05, when the scoring loop gets through the entries
    ([math] bound where it is needed). *)
Theorem flagged_domain_scores_low (api_key : string) (entries : list entry)
    (file : option (gmap string sb_result)) (w : World) (e : entry)
    (v : sb_result) :
  let r := step_safebrowsing World safebrowsing_server api_key entries file w
  in
  e ∈ entries -> math_bound false entries -> iffy_score e <> Some NaN ->
  cache (snd r) !! domain e = Some v -> flagged v = true ->
  exists out t e' s,
    step_score (fst r) = Some (out, t)
    /\ e' ∈ out
    /\ domain e' = domain e
    /\ credibility_score e' = Some s
    /\ fle s (Num (5 / 100)) = true.
Proof.
  intros r He Hb Hnan Hc Hv. set (c := cache (snd r)) in *.
  change (fst r) with (sb_apply c <$> entries).
  exists (scored <$> (sb_apply c <$> entries)),
    (tier1 (scored <$> (sb_apply c <$> entries))),
    (scored (sb_apply c e)), (fround (raw_score (sb_apply c e)) 3).
  split.
  { apply step_score_bound; [|now apply math_bound_sb_apply].
    intros Hnil. apply fmap_nil_inv in Hnil. subst entries. inversion He. }
  split.
  { apply (list_elem_of_fmap_2 scored), (list_elem_of_fmap_2 (sb_apply c)), He. }
  split; [apply (sb_apply_domain c e)|]. split; [reflexivity|].
  apply flagged_score_le.
  - apply (sb_apply_flagged c e v Hc Hv).
  - now rewrite (proj2 (proj2 (sb_apply_keeps c e))).
Qed.

End FlagToScore.

Section FlagToScoreExamples.

Import PyStr PyNum Enrich.

Local Open Scope R_scope.

Lemma flagged_domain_scores_low_witness :
  exists out t e' s,
    step_score
      (fst (step_safebrowsing unit strict_safebrowsing_server "key"
              [sample_entry Build.Fake None] None tt))
    = Some (out, t)
    /\ e' ∈ out
    /\ domain e' = domain (sample_entry Build.Fake None)
    /\ credibility_score e' = Some s
    /\ fle s (Num (5 / 100)) = true.
Proof.
  apply (flagged_domain_scores_low unit strict_safebrowsing_server "key"
           [sample_entry Build.Fake None] None tt
           (sample_entry Build.Fake None)
           {| flagged := true; sb_error := false |}).
  - apply list_elem_of_here.
  - intros [|i] e Hi [f Hfc]; [|discriminate].
    injection Hi as <-. discriminate.
  - discriminate.
  - vm_compute. reflexivity.
  - reflexivity.
Defined.

End FlagToScoreExamples.

(** ** The category letter, read back *)

Section CategoryLetter.

Import Build.

(** X29.  The letter the compact dataset keeps for a category is read back
    by the consumer's table as the name of that category for every category
    but "mostly_reliable", and never as "unknown". *)
Theorem category_letter_read_back (c : Category) :
  exists letter,
    PyStr.index0 (category_name c) = Some letter
    /\ Usage.category_of_letter letter <> "unknown"
    /\ (Usage.category_of_letter letter = category_name c
        <-> c <> MostlyReliable).
Proof.
  destruct c; eexists; (split; [reflexivity|]); (split; [discriminate|]);
    split; try discriminate; try reflexivity; try congruence;
    intros H; vm_compute in H; discriminate.
Qed.

End CategoryLetter.

(** ** What [query_rdap] keeps of a response *)

Section RdapDates.

Import PyStr Enrich.

Variable World : Type.
Variable rdap_server : string -> World -> option (list (string * string)) * World.

Lemma last_date_snoc (act : string) (events : list (string * string))
    (a d : string) :
  last_date act (events ++ [(a, d)])
  = if decide (a = act /\ d <> "") then Some d else last_date act events.
Proof.
  unfold last_date. rewrite filter_app, fmap_app, filter_cons, filter_nil.
  cbn [fst snd]. destruct (decide (a = act /\ d <> "")).
  - cbn [fmap list_fmap]. apply last_snoc.
  - cbn [fmap list_fmap]. now rewrite app_nil_r.
Qed.

Lemma rdap_events_fold (events : list (string * string)) :
  fold_left rdap_event events rdap_empty
  = {| rdap_error := false;
       registered := last_date "registration" events;
       expires := last_date "expiration" events;
       updated := last_date "last changed" events |}.
Proof.
  induction events as [|[a d] events IH] using rev_ind; [reflexivity|].
  rewrite fold_left_app, IH. cbn [fold_left]. rewrite !last_date_snoc.
  unfold rdap_event. cbn [rdap_error registered expires updated].
  destruct d as [|c d'].
  - cbn [is_empty]. repeat case_decide; try reflexivity; tauto.
  - cbn [is_empty].
    destruct (String.eqb_spec a "registration") as [->|H1].
    { repeat case_decide; try reflexivity;
        try (exfalso; intuition discriminate). }
    destruct (String.eqb_spec a "expiration") as [->|H2].
    { repeat case_decide; try reflexivity;
        try (exfalso; intuition discriminate). }
    destruct (String.eqb_spec a "last changed") as [->|H3].
    { repeat case_decide; try reflexivity;
        try (exfalso; intuition discriminate). }
    repeat case_decide; try reflexivity; exfalso; intuition congruence.
Qed.

(** X30.  When the server answers, [query_rdap] keeps under each of its
    three keys the date of the last event of that action that has a date;
    events of other actions and events without a date count for nothing,
    and an answer that leaves all three keys empty is returned as no
    result at all, like a failed query. *)
Theorem query_rdap_last_dates (domain : string) (w w' : World)
    (events : list (string * string)) :
  rdap_server (get_base_domain domain) w = (Some events, w') ->
  let r := {| rdap_error := false;
              registered := last_date "registration" events;
              expires := last_date "expiration" events;
              updated := last_date "last changed" events |} in
  query_rdap World rdap_server domain w
  = (if rdap_is_empty r then None else Some r, w').
Proof.
  intros Hserver r. unfold query_rdap. rewrite Hserver.
  now rewrite rdap_events_fold.
Qed.

End RdapDates.

Section RdapDatesExamples.

Import PyStr Enrich.

Lemma query_rdap_last_dates_witness :
  query_rdap unit epoch_rdap_server "www.example.com" tt
  = (Some {| rdap_error := false;
             registered := Some "1970-01-01T00:00:00+00:00";
             expires := None; updated := None |}, tt).
Proof.
  apply (query_rdap_last_dates unit epoch_rdap_server "www.example.com" tt tt
           [("registration", "1970-01-01T00:00:00+00:00")]).
  reflexivity.
Defined.

End RdapDatesExamples.
